(** * EngineUtilities: a shallow embedding of the numeric kernel

    The C++ sources compute on [float].  The embedding reads them in two
    ways.

    - In exact arithmetic: a scalar is a rational number ([Q]), the four
      operations are those of the rationals, [==] is the equality of
      rationals and plays the role of the C++ [operator==] on scalars.
      A literal of the source stands for the value of the [float] (or
      [double]) it denotes, which is a rational.  The conversions between
      [int] and [float] are those of the machine: a scalar converts to
      [int] only when its integer part fits, and an [int] converts to the
      nearest [float].  Rounding of the four operations, overflow and
      the special values of [float] are outside this reading; a property
      that depends on their absence says so.
    - In binary32 arithmetic ([Module Binary32]): a scalar is a
      [spec_float] and every operation rounds as IEEE 754 prescribes.
      This reading holds the functions whose loops depend on rounding,
      and shows where the first reading stops describing the program.

    C++ [int] values (loop counters, indices) are embedded as integers
    ([Z]) within the range of [int]. *)

From Stdlib Require Import ZArith QArith Qround Qabs Qminmax Qpower Qfield.
From Stdlib Require Import Lia Lqa List Bool SpecFloat.
From Equations Require Import Equations.
Import ListNotations.

Local Open Scope Z_scope.
Local Open Scope Q_scope.

(** ** Scalars and conversions *)

(** [a < b] on scalars, as a test. *)
Definition Qltb (a b : Q) : bool := negb (Qle_bool b a).

(** The range of [int]. *)
Definition INT_MAX : Z := 2147483647.
Definition INT_MIN : Z := -2147483648.

Definition in_int (z : Z) : bool := ((INT_MIN <=? z) && (z <=? INT_MAX))%Z.

(** The integer part of [q]: the fractional part is dropped, toward
    zero. *)
Definition Qtrunc (q : Q) : Z := Z.quot (Qnum q) (Zpos (Qden q)).

(** [static_cast<int>(q)]: the integer part of [q] when it fits an [int].
    The conversion is undefined otherwise, and [None] stands for that. *)
Definition static_cast_int (q : Q) : option Z :=
  let z := Qtrunc q in
  if in_int z then Some z else None.

(** [a + b] on [int]; signed overflow is undefined, and [None] stands for
    that. *)
Definition int_add (a b : Z) : option Z :=
  let z := (a + b)%Z in
  if in_int z then Some z else None.

(** The conversion of an [int] to [float]: the nearest number with a
    significand of 24 bits, ties to the even significand.  The [k] lowest
    bits of the magnitude are dropped, where [k] is what the magnitude
    has above 24 bits; an [int] of magnitude up to [2^24] converts to
    itself. *)
Definition float_of_int (i : Z) : Q :=
  let a := Z.abs i in
  let k := Z.max 0 (Z.log2 a - 23) in
  let q := (a / 2 ^ k)%Z in
  let r := (a mod 2 ^ k)%Z in
  let q' := match (2 * r ?= 2 ^ k)%Z with
            | Lt => q
            | Eq => if Z.even q then q else (q + 1)%Z
            | Gt => (q + 1)%Z
            end in
  inject_Z (Z.sgn i * (q' * 2 ^ k)).

(** ** Counted loops

    [for (int i = lo; i < hi; i += step) body] with literal bounds and a
    positive literal step runs [trip_count lo hi step] times, the counter
    taking the values [lo], [lo + step], ... *)

Fixpoint for_loop {S : Type} (n : nat) (i step : Z)
    (body : Z -> S -> S) (s : S) : S :=
  match n with
  | O => s
  | Datatypes.S k => for_loop k (i + step)%Z step body (body i s)
  end.

Definition trip_count (lo hi step : Z) : nat :=
  Z.to_nat ((hi - lo + step - 1) / step).

(** [for (int i = lo; i < hi; i += step)] *)
Definition for_lt {S : Type} (lo hi step : Z) (body : Z -> S -> S) (s : S) : S :=
  for_loop (trip_count lo hi step) lo step body s.

(** [for (int i = lo; i <= hi; i += step)] *)
Definition for_le {S : Type} (lo hi step : Z) (body : Z -> S -> S) (s : S) : S :=
  for_lt lo (hi + 1)%Z step body s.

(** ** EngineMath.h *)

Module EngineMath.

(** [inline float square(float number)] *)
Definition square (number : Q) : Q := number * number.

(** [inline float sqrt(float number)] *)
Definition sqrt (number : Q) : Q :=
  if Qle_bool number 0 then 0
  else
    let xi := number / 2 in
    for_lt 0 10 1
      (fun _ xi => xi - (square xi - number) / (2 * xi)) xi.

(** The loop of [power]: [for (int i = 0; i < exponent; i++) result *= base;]
    The test converts the counter to [float] and compares it with
    [exponent]; [i++] at [INT_MAX] is undefined, and [None] stands for
    that.  The number of rounds depends on the data, so the loop is
    defined by well-founded recursion: a counter that passes the test is
    at most twice its [float], hence below [2 * |exponent|]. *)
Equations? power_loop (base exponent : Q) (i : Z) (result : Q) : option Q
  by wf (Z.to_nat (Qceiling (2 * Qabs exponent) + 1 - i)) lt :=
power_loop base exponent i result with Qlt_le_dec (float_of_int i) exponent := {
  | left _ with Z_lt_le_dec i INT_MAX := {
    | left _ => power_loop base exponent (i + 1)%Z (result * base)
    | right _ => None }
  | right _ => Some result }.
Proof.
  assert (H : (i < Qceiling (2 * Qabs exponent) + 1)%Z); [|lia].
  destruct (Z_lt_le_dec i 0) as [Hneg | Hpos].
  - assert (H0 : 0 <= 2 * Qabs exponent)
      by (pose proof (Qabs_nonneg exponent); lra).
    pose proof (Qle_ceiling (2 * Qabs exponent)) as Hc.
    assert (H1 : (0 <= Qceiling (2 * Qabs exponent))%Z).
    { rewrite Zle_Qle. change (inject_Z 0) with 0. lra. }
    lia.
  - assert (Hf : inject_Z i <= 2 * float_of_int i).
    { unfold float_of_int.
      rewrite (Z.abs_eq i Hpos).
      set (k := Z.max 0 (Z.log2 i - 23)).
      assert (Hk : (0 <= k)%Z) by (unfold k; lia).
      assert (Hp : (0 < 2 ^ k)%Z) by (apply Z.pow_pos_nonneg; lia).
      pose proof (Z.div_mod i (2 ^ k) ltac:(lia)) as Hdm.
      pose proof (Z.mod_pos_bound i (2 ^ k) Hp) as Hm.
      assert (Hr : (2 * (i mod 2 ^ k) <= i)%Z).
      { destruct (Z.eq_dec k 0) as [E | E].
        - rewrite E in *. change (2 ^ 0)%Z with 1%Z in *.
          rewrite Z.mod_1_r. lia.
        - assert (Hi : (0 < i)%Z).
          { destruct (Z.eq_dec i 0) as [Ei | Ei]; [|lia].
            exfalso. apply E. unfold k. rewrite Ei. reflexivity. }
          pose proof (Z.log2_spec i Hi) as [Hl _].
          assert (El : Z.log2 i = (k + 23)%Z) by (unfold k in *; lia).
          rewrite El in Hl.
          rewrite Z.pow_add_r in Hl by lia.
          change (2 ^ 23)%Z with 8388608%Z in Hl. lia. }
      assert (Hq : (i / 2 ^ k * 2 ^ k <=
                    match (2 * (i mod 2 ^ k) ?= 2 ^ k)%Z with
                    | Lt => i / 2 ^ k
                    | Eq => if Z.even (i / 2 ^ k) then i / 2 ^ k
                            else i / 2 ^ k + 1
                    | Gt => i / 2 ^ k + 1
                    end * 2 ^ k)%Z).
      { apply Z.mul_le_mono_nonneg_r; [lia|].
        destruct (2 * (i mod 2 ^ k) ?= 2 ^ k)%Z; [|lia|lia].
        destruct (Z.even (i / 2 ^ k)); lia. }
      set (q' := match (2 * (i mod 2 ^ k) ?= 2 ^ k)%Z with
                 | Lt => _ | Eq => _ | Gt => _ end) in *.
      assert (Hs : (i <= 2 * (Z.sgn i * (q' * 2 ^ k)))%Z).
      { destruct (Z.eq_dec i 0) as [Ei | Ei].
        - rewrite Ei. cbn. lia.
        - rewrite Z.sgn_pos by lia. lia. }
      rewrite Zle_Qle in Hs. rewrite inject_Z_mult in Hs. exact Hs. }
    assert (Hlt : inject_Z i < 2 * Qabs exponent).
    { pose proof (Qle_Qabs exponent). lra. }
    pose proof (Qle_ceiling (2 * Qabs exponent)) as Hc.
    assert (H1 : (i < Qceiling (2 * Qabs exponent))%Z).
    { rewrite Zlt_Qlt. lra. }
    lia.
Qed.

(** [inline float power(float base, float exponent)] *)
Definition power (base exponent : Q) : option Q :=
  let result := 1 in
  power_loop base exponent 0%Z result.

(** [inline float mod(float a, float b)].  The [int] converts back to
    [float] for the subtraction; that conversion is exact here, since a
    [float] of magnitude [2^24] or more has no fractional part and is its
    own integer part. *)
Definition mod_ (a b : Q) : option Q :=
  if Qeq_bool b 0 then Some 0
  else
    match static_cast_int (a / b) with
    | Some n => Some ((a / b) - inject_Z n)
    | None => None
    end.

(** The two literals of [cos], [3.14159265f] and [6.28318530f]: the
    values of the [float]s they denote, [13176795 * 2^-22]
    (3.1415927410125732421875) and [13176795 * 2^-21]. *)
Definition cos_PI : Q := 13176795 # 4194304.
Definition cos_TWO_PI : Q := 13176795 # 2097152.

(** [while (radians > 3.14159265f) radians -= 6.28318530f;]
    In exact arithmetic every round lowers the angle by the same amount,
    and the loop ends for every angle.  The loop on [float], where the
    subtraction rounds and the loop need not end, is
    [Binary32.cos_reduce_down]. *)
Equations? cos_reduce_down (radians : Q) : Q
  by wf (Z.to_nat (Qceiling ((radians - cos_PI) / cos_TWO_PI))) lt :=
cos_reduce_down radians with Qlt_le_dec cos_PI radians := {
  | left _ => cos_reduce_down (radians - cos_TWO_PI)
  | right _ => radians }.
Proof.
  set (u := (radians - cos_PI) / cos_TWO_PI).
  assert (Hu : 0 < u).
  { unfold u, cos_PI, cos_TWO_PI in *.
    apply Qlt_shift_div_l; [reflexivity | lra]. }
  assert (E : (radians - cos_TWO_PI - cos_PI) / cos_TWO_PI == u - 1).
  { unfold u, cos_TWO_PI. field. }
  rewrite E. clearbody u.
  assert (H1 : (0 < Qceiling u)%Z).
  { apply Z.lt_nge. intro Hc.
    apply (Qlt_not_le _ _ Hu).
    eapply Qle_trans; [apply Qle_ceiling|].
    change 0 with (inject_Z 0). rewrite <- Zle_Qle. exact Hc. }
  assert (H2 : (Qceiling (u - 1) < Qceiling u)%Z).
  { apply Z.lt_nge. intro Hc. rewrite Zle_Qle in Hc.
    pose proof (Qle_ceiling u) as Hl.
    pose proof (Qceiling_lt (u - 1)) as Hr.
    unfold Z.sub in Hr. rewrite inject_Z_plus in Hr.
    change (inject_Z (- (1))%Z) with (- (1)) in Hr. lra. }
  lia.
Qed.

(** [while (radians < -3.14159265f) radians += 6.28318530f;]
    in exact arithmetic; the loop on [float] is
    [Binary32.cos_reduce_up]. *)
Equations? cos_reduce_up (radians : Q) : Q
  by wf (Z.to_nat (Qceiling ((- cos_PI - radians) / cos_TWO_PI))) lt :=
cos_reduce_up radians with Qlt_le_dec radians (- cos_PI) := {
  | left _ => cos_reduce_up (radians + cos_TWO_PI)
  | right _ => radians }.
Proof.
  set (u := (- cos_PI - radians) / cos_TWO_PI).
  assert (Hu : 0 < u).
  { unfold u, cos_PI, cos_TWO_PI in *.
    apply Qlt_shift_div_l; [reflexivity | lra]. }
  assert (E : (- cos_PI - (radians + cos_TWO_PI)) / cos_TWO_PI == u - 1).
  { unfold u, cos_TWO_PI. field. }
  rewrite E. clearbody u.
  assert (H1 : (0 < Qceiling u)%Z).
  { apply Z.lt_nge. intro Hc.
    apply (Qlt_not_le _ _ Hu).
    eapply Qle_trans; [apply Qle_ceiling|].
    change 0 with (inject_Z 0). rewrite <- Zle_Qle. exact Hc. }
  assert (H2 : (Qceiling (u - 1) < Qceiling u)%Z).
  { apply Z.lt_nge. intro Hc. rewrite Zle_Qle in Hc.
    pose proof (Qle_ceiling u) as Hl.
    pose proof (Qceiling_lt (u - 1)) as Hr.
    unfold Z.sub in Hr. rewrite inject_Z_plus in Hr.
    change (inject_Z (- (1))%Z) with (- (1)) in Hr. lra. }
  lia.
Qed.

(** The locals [term], [result] and [sign] that the series loop of [cos]
    updates. *)
Record cos_locals : Type := mk_cos_locals
  { term : Q; result : Q; sign : Z }.

(** The body of [for (int i = 2; i <= 10; i += 2)]:
    [term *= x2 / (i * (i - 1)); result += sign * term; sign *= -1;] *)
Definition cos_body (x2 : Q) (i : Z) (l : cos_locals) : cos_locals :=
  let term' := term l * (x2 / inject_Z (i * (i - 1))) in
  let result' := result l + inject_Z (sign l) * term' in
  let sign' := (sign l * -1)%Z in
  mk_cos_locals term' result' sign'.

(** The part of [cos] after the two [while] loops. *)
Definition cos_series (radians : Q) : Q :=
  let x2 := radians * radians in
  result (for_le 2 10 2 (cos_body x2) (mk_cos_locals 1 1 (-1))).

(** [inline float cos(float radians)] *)
Definition cos (radians : Q) : Q :=
  let radians := cos_reduce_down radians in
  let radians := cos_reduce_up radians in
  cos_series radians.

(** [inline float lerp(float start, float end, float t)] *)
Definition lerp (start end_ t : Q) : Q :=
  start + (end_ - start) * t.

(** [float pi = 3.14159265358979323846f;] and
    [float e = 2.71828182845904523536f;]: the values of the [float]s the
    two literals denote, [13176795 * 2^-22] (3.1415927410125732421875)
    and [2850325 * 2^-20] (2.7182817459106445). *)
Definition pi : Q := 13176795 # 4194304.
Definition e : Q := 2850325 # 1048576.

(** [inline float cube(float number)] *)
Definition cube (number : Q) : Q := number * number * number.

(** [inline float eMax(float a, float b)] *)
Definition eMax (a b : Q) : Q := if Qltb b a then a else b.

(** [inline float eMin(float a, float b)] *)
Definition eMin (a b : Q) : Q := if Qltb a b then a else b.

(** [inline int round(float number)].  As in [mod], the conversion of
    [intPart] back to [float] is exact. *)
Definition round (number : Q) : option Z :=
  match static_cast_int number with
  | Some intPart =>
      let fPart := number - inject_Z intPart in
      if Qle_bool (1 # 2) fPart then int_add intPart 1 else Some intPart
  | None => None
  end.

(** [inline int floor(float number)] *)
Definition floor (number : Q) : option Z := static_cast_int number.

(** [inline int ceil(float number)] *)
Definition ceil (number : Q) : option Z :=
  match static_cast_int number with
  | Some n => int_add n 1
  | None => None
  end.

(** [inline float fabs(float number)] *)
Definition fabs (number : Q) : Q :=
  if Qltb number 0 then number * -1 else number.

(** [inline float exp(float exponent)] *)
Definition exp (exponent : Q) : option Q := power e exponent.

(** The locals [n], [result] and [currentTerm] of [sin]. *)
Record sin_locals : Type := mk_sin_locals
  { sin_n : Z; sin_result : Q; sin_currentTerm : Q }.

(** The literal [0.0000001] of [sin], a [double]: the value of the
    [double] it denotes, [944473296573929 * 2^-73]
    (0.000000099999999999999995...). *)
Definition sin_EPSILON : Q := 944473296573929 # 9444732965739290427392.

(** The test of the loop of [sin]:
    [fabs(currentTerm) >= 0.0000001 || n == 0] *)
Definition sin_test (l : sin_locals) : bool :=
  orb (Qle_bool sin_EPSILON (fabs (sin_currentTerm l))) (sin_n l =? 0)%Z.

(** The body of the loop of [sin]:
    [result += currentTerm; n++;
     currentTerm *= (-1.0 * angle * angle) / ((2.0 * n) * (2.0 * n + 1.0));] *)
Definition sin_body (angle : Q) (l : sin_locals) : sin_locals :=
  let result := sin_result l + sin_currentTerm l in
  let n := (sin_n l + 1)%Z in
  let currentTerm :=
    sin_currentTerm l
    * ((-1 * angle * angle) / ((2 * inject_Z n) * (2 * inject_Z n + 1))) in
  mk_sin_locals n result currentTerm.

(** The [while] loop of [sin], in exact arithmetic.  The number of rounds
    depends on the size of the terms; [fuel] bounds it, and [None] is the
    answer when the bound is reached with the test still true.  [n++] at
    [INT_MAX] is undefined, and [None] stands for that as well.  The loop
    on [float], where the terms can overflow, is [Binary32.sin_loop]. *)
Fixpoint sin_loop (fuel : nat) (angle : Q) (l : sin_locals) : option sin_locals :=
  if sin_test l then
    match fuel with
    | O => None
    | Datatypes.S fuel' =>
        if (sin_n l <? INT_MAX)%Z then sin_loop fuel' angle (sin_body angle l)
        else None
    end
  else Some l.

(** [inline float sin(float angle)], with a bound on the rounds of its
    loop. *)
Definition sin (fuel : nat) (angle : Q) : option Q :=
  let n := 0%Z in
  let result := 0 in
  let currentTerm := angle in
  match sin_loop fuel angle (mk_sin_locals n result currentTerm) with
  | Some l => Some (sin_result l)
  | None => None
  end.

(** [inline float radians(float degrees)] *)
Definition radians (degrees : Q) : Q := (degrees * pi) / 180.

(** [inline float degrees(float radian)] *)
Definition degrees (radian : Q) : Q := (radian * 180) / pi.

(** [inline float circleArea(float radius)] *)
Definition circleArea (radius : Q) : Q := pi * radius * radius.

(** [inline float circleCircumference(float radius)] *)
Definition circleCircumference (radius : Q) : Q := 2 * pi * radius.

(** [inline float distance(float x1, float y1, float x2, float y2)] *)
Definition distance (x1 y1 x2 y2 : Q) : Q :=
  let dx := x2 - x1 in
  let dy := y2 - y1 in
  sqrt (dx * dx + dy * dy).

(** The loop of [factorial]: [for (int i = number; i > 0; i--) result *= i;]
    on unbounded integers. *)
Equations? factorial_loop (i result : Z) : Z by wf (Z.to_nat i) lt :=
factorial_loop i result with Z_lt_le_dec 0 i := {
  | left _ => factorial_loop (i - 1)%Z (result * i)%Z
  | right _ => result }.
Proof. lia. Qed.

(** [inline long factorial(int number)], on unbounded integers: the value
    of the C++ function as long as the [int] accumulator does not
    overflow. *)
Definition factorial (number : Z) : Z :=
  let result := 1%Z in
  factorial_loop number result.

End EngineMath.

(** ** IEEE 754 arithmetic

    [double] and [float] are the formats binary64 and binary32; their
    operations are those of [SpecFloat], rounding to nearest, ties to
    even. *)

Module Binary64.

Definition prec : Z := 53.
Definition emax : Z := 1024.

Definition add : spec_float -> spec_float -> spec_float := SFadd prec emax.
Definition mul : spec_float -> spec_float -> spec_float := SFmul prec emax.
Definition div : spec_float -> spec_float -> spec_float := SFdiv prec emax.

(** The conversion of an [int] to [double], which is exact. *)
Definition of_int (i : Z) : spec_float := binary_normalize prec emax i 0 false.

(** The conversion of a [float] to [double], which is exact. *)
Definition of_float (x : spec_float) : spec_float :=
  match x with
  | S754_finite s m e => binary_normalize prec emax (cond_Zopp s (Zpos m)) e s
  | _ => x
  end.

End Binary64.

(** ** EngineMath.h in binary32 arithmetic

    The functions of [EngineMath] whose loops depend on how the
    operations round, read with the arithmetic of the machine. *)

Module Binary32.

Definition prec : Z := 24.
Definition emax : Z := 128.

Definition add : spec_float -> spec_float -> spec_float := SFadd prec emax.
Definition sub : spec_float -> spec_float -> spec_float := SFsub prec emax.
Definition mul : spec_float -> spec_float -> spec_float := SFmul prec emax.
Definition div : spec_float -> spec_float -> spec_float := SFdiv prec emax.

(** The conversion of an [int] to [float]. *)
Definition of_int (i : Z) : spec_float := binary_normalize prec emax i 0 false.

(** The conversion of a [double] to [float]. *)
Definition of_double (x : spec_float) : spec_float :=
  match x with
  | S754_finite s m e => binary_normalize prec emax (cond_Zopp s (Zpos m)) e s
  | _ => x
  end.

(** The rational value of a finite [float]. *)
Definition value (x : spec_float) : option Q :=
  match x with
  | S754_zero _ => Some 0
  | S754_finite s m e => Some (inject_Z (cond_Zopp s (Zpos m)) * 2 ^ e)
  | _ => None
  end.

(** The loop of [power]:
    [for (int i = 0; i < exponent; i++) result *= base;]
    with a bound on its rounds; [i++] at [INT_MAX] is undefined, and
    [None] stands for that as well. *)
Fixpoint power_loop (fuel : nat) (base exponent : spec_float) (i : Z)
    (result : spec_float) : option spec_float :=
  if SFltb (of_int i) exponent then
    match fuel with
    | O => None
    | Datatypes.S fuel' =>
        if (i <? INT_MAX)%Z
        then power_loop fuel' base exponent (i + 1)%Z (mul result base)
        else None
    end
  else Some result.

(** [inline float power(float base, float exponent)], with a bound on
    the rounds of its loop. *)
Definition power (fuel : nat) (base exponent : spec_float) : option spec_float :=
  power_loop fuel base exponent 0 (of_int 1).

(** The two literals of [cos]: [3.14159265f] and [6.28318530f]. *)
Definition cos_PI : spec_float := S754_finite false 13176795 (-22).
Definition cos_TWO_PI : spec_float := S754_finite false 13176795 (-21).

(** [while (radians > 3.14159265f) radians -= 6.28318530f;]  The number
    of rounds depends on the data and on the rounding; [fuel] bounds it,
    and [None] is the answer when the bound is reached with the test
    still true. *)
Fixpoint cos_reduce_down (fuel : nat) (radians : spec_float) : option spec_float :=
  if SFltb cos_PI radians then
    match fuel with
    | O => None
    | Datatypes.S fuel' => cos_reduce_down fuel' (sub radians cos_TWO_PI)
    end
  else Some radians.

(** [while (radians < -3.14159265f) radians += 6.28318530f;] *)
Fixpoint cos_reduce_up (fuel : nat) (radians : spec_float) : option spec_float :=
  if SFltb radians (SFopp cos_PI) then
    match fuel with
    | O => None
    | Datatypes.S fuel' => cos_reduce_up fuel' (add radians cos_TWO_PI)
    end
  else Some radians.

(** The locals [term], [result] and [sign] that the series loop of [cos]
    updates. *)
Record cos_locals : Type := mk_cos_locals
  { term : spec_float; result : spec_float; sign : Z }.

(** The body of [for (int i = 2; i <= 10; i += 2)]:
    [term *= x2 / (i * (i - 1)); result += sign * term; sign *= -1;] *)
Definition cos_body (x2 : spec_float) (i : Z) (l : cos_locals) : cos_locals :=
  let term' := mul (term l) (div x2 (of_int (i * (i - 1)))) in
  let result' := add (result l) (mul (of_int (sign l)) term') in
  let sign' := (sign l * -1)%Z in
  mk_cos_locals term' result' sign'.

(** The part of [cos] after the two [while] loops. *)
Definition cos_series (radians : spec_float) : spec_float :=
  let x2 := mul radians radians in
  result (for_le 2 10 2 (cos_body x2)
            (mk_cos_locals (of_int 1) (of_int 1) (-1))).

(** [inline float cos(float radians)], with a bound on the rounds of each
    of its two [while] loops. *)
Definition cos (fuel : nat) (radians : spec_float) : option spec_float :=
  match cos_reduce_down fuel radians with
  | Some radians =>
      match cos_reduce_up fuel radians with
      | Some radians => Some (cos_series radians)
      | None => None
      end
  | None => None
  end.

(** [inline float fabs(float number)] *)
Definition fabs (number : spec_float) : spec_float :=
  if SFltb number (of_int 0) then mul number (of_int (-1)) else number.

(** The literal [0.0000001] of [sin], a [double]. *)
Definition sin_EPSILON : spec_float :=
  S754_finite false 7555786372591432 (-76).

(** The locals [n], [result] and [currentTerm] of [sin]. *)
Record sin_locals : Type := mk_sin_locals
  { sin_n : Z; sin_result : spec_float; sin_currentTerm : spec_float }.

(** The test of the loop of [sin]:
    [fabs(currentTerm) >= 0.0000001 || n == 0], a comparison of
    [double]s. *)
Definition sin_test (l : sin_locals) : bool :=
  orb (SFleb sin_EPSILON (Binary64.of_float (fabs (sin_currentTerm l))))
      (sin_n l =? 0)%Z.

(** The body of the loop of [sin]:
    [result += currentTerm; n++;
     currentTerm *= (-1.0 * angle * angle) / ((2.0 * n) * (2.0 * n + 1.0));]
    The factor is computed on [double], and so is its product with
    [currentTerm], which then converts to [float]. *)
Definition sin_body (angle : spec_float) (l : sin_locals) : sin_locals :=
  let result := add (sin_result l) (sin_currentTerm l) in
  let n := (sin_n l + 1)%Z in
  let currentTerm :=
    of_double
      (Binary64.mul (Binary64.of_float (sin_currentTerm l))
         (Binary64.div
            (Binary64.mul
               (Binary64.mul (Binary64.of_int (-1)) (Binary64.of_float angle))
               (Binary64.of_float angle))
            (Binary64.mul
               (Binary64.mul (Binary64.of_int 2) (Binary64.of_int n))
               (Binary64.add
                  (Binary64.mul (Binary64.of_int 2) (Binary64.of_int n))
                  (Binary64.of_int 1))))) in
  mk_sin_locals n result currentTerm.

(** The [while] loop of [sin], with a bound on its rounds; [n++] at
    [INT_MAX] is undefined, and [None] stands for that as well. *)
Fixpoint sin_loop (fuel : nat) (angle : spec_float) (l : sin_locals)
    : option sin_locals :=
  if sin_test l then
    match fuel with
    | O => None
    | Datatypes.S fuel' =>
        if (sin_n l <? INT_MAX)%Z then sin_loop fuel' angle (sin_body angle l)
        else None
    end
  else Some l.

(** [inline float sin(float angle)], with a bound on the rounds of its
    loop. *)
Definition sin (fuel : nat) (angle : spec_float) : option spec_float :=
  match sin_loop fuel angle (mk_sin_locals 0 (of_int 0) angle) with
  | Some l => Some (sin_result l)
  | None => None
  end.

End Binary32.

(** ** Vectors/Vector2.h *)

Module CVector2.

Record t : Type := mk { x : Q; y : Q }.

(** [CVector2 operator+(const CVector2& otro) const] *)
Definition add (this otro : t) : t := mk (x this + x otro) (y this + y otro).

(** [CVector2 operator-(const CVector2& otro) const] *)
Definition sub (this otro : t) : t := mk (x this - x otro) (y this - y otro).

(** [CVector2 operator*(float fac) const] *)
Definition mul (this : t) (fac : Q) : t := mk (x this * fac) (y this * fac).

(** [const float& operator[](int index) const]: [index == 0 ? x : y] *)
Definition index (this : t) (index : Z) : Q :=
  if (index =? 0)%Z then x this else y this.

(** [static CVector2 lerp(const CVector2& a, const CVector2& b, float t)] *)
Definition lerp (a b : t) (t : Q) : CVector2.t :=
  let t := if Qltb t 0 then 0 else t in
  let t := if Qltb 1 t then 1 else t in
  add a (mul (sub b a) t).

(** Componentwise equality (the Prop form of
    [bool operator==(const CVector2& otro) const]). *)
Definition eq (a b : t) : Prop :=
  x a == x b /\ y a == y b.

(** [CVector2 operator/(float fac) const] *)
Definition div (this : t) (fac : Q) : t := mk (x this / fac) (y this / fac).

(** [float length() const] *)
Definition length (this : t) : Q :=
  EngineMath.sqrt (x this * x this + y this * y this).

(** [float lengthSquared() const] *)
Definition lengthSquared (this : t) : Q := x this * x this + y this * y this.

(** [float dot(const CVector2& otro) const] *)
Definition dot (this otro : t) : Q := x this * x otro + y this * y otro.

(** [float cross(const CVector2& otro) const] *)
Definition cross (this otro : t) : Q := x this * y otro - y this * x otro.

(** [CVector2 normalized() const] *)
Definition normalized (this : t) : t :=
  let len := length this in
  if Qeq_bool len 0 then mk 0 0
  else mk (x this / len) (y this / len).

(** [void normalize()] *)
Definition normalize (this : t) : t :=
  let len := length this in
  if negb (Qeq_bool len 0) then mk (x this / len) (y this / len)
  else this.

(** [static float distance(const CVector2& a, const CVector2& b)] *)
Definition distance (a b : t) : Q := length (sub a b).

(** [static CVector2 zero()] *)
Definition zero : t := mk 0 0.

End CVector2.

(** ** Vectors/Vector3.h *)

Module CVector3.

Record t : Type := mk { x : Q; y : Q; z : Q }.

(** [CVector3 operator+(const CVector3& otro) const] *)
Definition add (this otro : t) : t :=
  mk (x this + x otro) (y this + y otro) (z this + z otro).

(** [CVector3 operator-(const CVector3& otro) const] *)
Definition sub (this otro : t) : t :=
  mk (x this - x otro) (y this - y otro) (z this - z otro).

(** [CVector3 operator*(float sca) const] *)
Definition mul (this : t) (sca : Q) : t :=
  mk (x this * sca) (y this * sca) (z this * sca).

(** [const float& operator[](int index) const]:
    [if (index == 0) return x; if (index == 1) return y; return z;] *)
Definition index (this : t) (index : Z) : Q :=
  if (index =? 0)%Z then x this
  else if (index =? 1)%Z then y this
  else z this.

(** [static CVector3 lerp(const CVector3& a, const CVector3& b, float t)] *)
Definition lerp (a b : t) (t : Q) : CVector3.t :=
  let t := if Qltb t 0 then 0 else t in
  let t := if Qltb 1 t then 1 else t in
  add a (mul (sub b a) t).

(** Componentwise equality (the Prop form of
    [bool operator==(const CVector3& otro) const]). *)
Definition eq (a b : t) : Prop :=
  x a == x b /\ y a == y b /\ z a == z b.

(** [CVector3 operator/(float sca) const] *)
Definition div (this : t) (sca : Q) : t :=
  mk (x this / sca) (y this / sca) (z this / sca).

(** [float length() const] *)
Definition length (this : t) : Q :=
  EngineMath.sqrt (x this * x this + y this * y this + z this * z this).

(** [float lengthSquared() const] *)
Definition lengthSquared (this : t) : Q :=
  x this * x this + y this * y this + z this * z this.

(** [float dot(const CVector3& other) const] *)
Definition dot (this other : t) : Q :=
  x this * x other + y this * y other + z this * z other.

(** [CVector3 cross(const CVector3& otro) const] *)
Definition cross (this otro : t) : t :=
  mk (y this * z otro - z this * y otro)
     (z this * x otro - x this * z otro)
     (x this * y otro - y this * x otro).

(** [CVector3 normalized() const] *)
Definition normalized (this : t) : t :=
  let len := length this in
  if Qeq_bool len 0 then mk 0 0 0
  else mk (x this / len) (y this / len) (z this / len).

(** [void normalize()] *)
Definition normalize (this : t) : t :=
  let len := length this in
  if negb (Qeq_bool len 0)
  then mk (x this / len) (y this / len) (z this / len)
  else this.

(** [static float distance(const CVector3& a, const CVector3& b)] *)
Definition distance (a b : t) : Q := length (sub a b).

(** [static CVector3 zero()] *)
Definition zero : t := mk 0 0 0.

End CVector3.

(** ** Vectors/Vector4.h *)

Module CVector4.

Record t : Type := mk { x : Q; y : Q; z : Q; w : Q }.

(** [CVector4 operator+(const CVector4& otro) const] *)
Definition add (this otro : t) : t :=
  mk (x this + x otro) (y this + y otro) (z this + z otro) (w this + w otro).

(** [CVector4 operator-(const CVector4& otro) const] *)
Definition sub (this otro : t) : t :=
  mk (x this - x otro) (y this - y otro) (z this - z otro) (w this - w otro).

(** [CVector4 operator*(float fac) const] *)
Definition mul (this : t) (fac : Q) : t :=
  mk (x this * fac) (y this * fac) (z this * fac) (w this * fac).

(** [static CVector4 lerp(const CVector4& a, const CVector4& b, float t)] *)
Definition lerp (a b : t) (t : Q) : CVector4.t :=
  let t := if Qltb t 0 then 0 else t in
  let t := if Qltb 1 t then 1 else t in
  add a (mul (sub b a) t).

(** Componentwise equality (the Prop form of
    [bool operator==(const CVector4& otro) const]). *)
Definition eq (a b : t) : Prop :=
  x a == x b /\ y a == y b /\ z a == z b /\ w a == w b.

(** [CVector4 operator/(float fac) const] *)
Definition div (this : t) (fac : Q) : t :=
  mk (x this / fac) (y this / fac) (z this / fac) (w this / fac).

(** [const float& operator[](int i) const]:
    [switch (i) { case 0: return x; case 1: return y; case 2: return z;
                  default: return w; }] *)
Definition index (this : t) (i : Z) : Q :=
  match i with
  | 0%Z => x this
  | 1%Z => y this
  | 2%Z => z this
  | _ => w this
  end.

(** [float length() const] *)
Definition length (this : t) : Q :=
  EngineMath.sqrt (x this * x this + y this * y this
                   + z this * z this + w this * w this).

(** [float lengthSquared() const] *)
Definition lengthSquared (this : t) : Q :=
  x this * x this + y this * y this + z this * z this + w this * w this.

(** [float dot(const CVector4& other) const] *)
Definition dot (this other : t) : Q :=
  x this * x other + y this * y other + z this * z other + w this * w other.

(** [CVector4 normalized() const] *)
Definition normalized (this : t) : t :=
  let len := length this in
  if Qeq_bool len 0 then mk 0 0 0 0
  else mk (x this / len) (y this / len) (z this / len) (w this / len).

(** [void normalize()] *)
Definition normalize (this : t) : t :=
  let len := length this in
  if negb (Qeq_bool len 0)
  then mk (x this / len) (y this / len) (z this / len) (w this / len)
  else this.

(** [static float distance(const CVector4& a, const CVector4& b)] *)
Definition distance (a b : t) : Q := length (sub a b).

(** [static CVector4 zero()] *)
Definition zero : t := mk 0 0 0 0.

End CVector4.

(** ** Two-dimensional arrays

    [float m[N][N]] is embedded as a function from a row and a column to
    the scalar stored there; [aset a i j v] is the array after the
    assignment [a[i][j] = v].  A constructor that assigns every entry
    starts from [indeterminate] storage, whose contents no result depends
    on. *)

Definition array2 : Type := Z -> Z -> Q.

Definition aset (a : array2) (i j : Z) (v : Q) : array2 :=
  fun i' j' => if andb (i' =? i)%Z (j' =? j)%Z then v else a i' j'.

Definition indeterminate : array2 := fun _ _ => 0.

(** ** Matrices/Matrix2x2.h *)

Module Matrix2x2.

Record t : Type := mk { m : array2 }.
Arguments m _ (_ _)%_Z : extra scopes.

(** [void setIdentity()] *)
Definition setIdentity (this : t) : t :=
  let a := m this in
  let a := aset a 0 0 1 in let a := aset a 0 1 0 in
  let a := aset a 1 0 0 in let a := aset a 1 1 1 in
  mk a.

(** [Matrix2x2() { setIdentity(); }] *)
Definition default : t := setIdentity (mk indeterminate).

(** [Matrix2x2(float m00, float m01, float m10, float m11)] *)
Definition make (m00 m01 m10 m11 : Q) : t :=
  let a := indeterminate in
  let a := aset a 0 0 m00 in let a := aset a 0 1 m01 in
  let a := aset a 1 0 m10 in let a := aset a 1 1 m11 in
  mk a.

(** [static Matrix2x2 zero()] *)
Definition zero : t := make 0 0 0 0.

(** [static Matrix2x2 identity() { return Matrix2x2(); }] *)
Definition identity : t := default.

(** [Matrix2x2 operator*(const Matrix2x2& other) const] *)
Definition mul (this other : t) : t :=
  let r := m zero in
  mk (for_lt 0 2 1 (fun i r =>
        for_lt 0 2 1 (fun j r =>
          for_lt 0 2 1 (fun k r =>
            aset r i j (r i j + m this i k * m other k j)) r) r) r).

(** [float determinant() const] *)
Definition determinant (this : t) : Q :=
  m this 0 0 * m this 1 1 - m this 0 1 * m this 1 0.

(** [Matrix2x2 inverse() const] *)
Definition inverse (this : t) : t :=
  let det := determinant this in
  if Qeq_bool det 0 then default
  else
    let invDet := 1 / det in
    make (m this 1 1 * invDet) (- m this 0 1 * invDet)
         (- m this 1 0 * invDet) (m this 0 0 * invDet).

(** Equality of the four stored entries. *)
Definition eq (a b : t) : Prop :=
  forall i j, (0 <= i < 2)%Z -> (0 <= j < 2)%Z -> m a i j == m b i j.

(** [Matrix2x2 operator+(const Matrix2x2& other) const] *)
Definition add (this other : t) : t :=
  let r := m default in
  mk (for_lt 0 2 1 (fun i r =>
        for_lt 0 2 1 (fun j r =>
          aset r i j (m this i j + m other i j)) r) r).

(** [Matrix2x2 operator-(const Matrix2x2& other) const] *)
Definition sub (this other : t) : t :=
  let r := m default in
  mk (for_lt 0 2 1 (fun i r =>
        for_lt 0 2 1 (fun j r =>
          aset r i j (m this i j - m other i j)) r) r).

(** [Matrix2x2 operator*(float sca) const] *)
Definition mul_scalar (this : t) (sca : Q) : t :=
  let r := m default in
  mk (for_lt 0 2 1 (fun i r =>
        for_lt 0 2 1 (fun j r =>
          aset r i j (m this i j * sca)) r) r).

(** [CVector2 operator*(const CVector2& vec) const] *)
Definition mul_v2 (this : t) (vec : CVector2.t) : CVector2.t :=
  let x := m this 0 0 * CVector2.x vec + m this 0 1 * CVector2.y vec in
  let y := m this 1 0 * CVector2.x vec + m this 1 1 * CVector2.y vec in
  CVector2.mk x y.

(** [Matrix2x2 transpose() const] *)
Definition transpose (this : t) : t :=
  make (m this 0 0) (m this 1 0)
       (m this 0 1) (m this 1 1).

(** [void setScale(float scaleX, float scaleY)] *)
Definition setScale (this : t) (scaleX scaleY : Q) : t :=
  let a := m this in
  let a := aset a 0 0 scaleX in let a := aset a 0 1 0 in
  let a := aset a 1 0 0 in let a := aset a 1 1 scaleY in
  mk a.

End Matrix2x2.

(** ** Matrices/Matrix3x3.h *)

Module Matrix3x3.

Record t : Type := mk { m : array2 }.
Arguments m _ (_ _)%_Z : extra scopes.

(** [void setIdentity()] *)
Definition setIdentity (this : t) : t :=
  let a := m this in
  let a := aset a 0 0 1 in let a := aset a 0 1 0 in let a := aset a 0 2 0 in
  let a := aset a 1 0 0 in let a := aset a 1 1 1 in let a := aset a 1 2 0 in
  let a := aset a 2 0 0 in let a := aset a 2 1 0 in let a := aset a 2 2 1 in
  mk a.

(** [Matrix3x3() { setIdentity(); }] *)
Definition default : t := setIdentity (mk indeterminate).

(** [Matrix3x3(float m00, ..., float m22)] *)
Definition make (m00 m01 m02 m10 m11 m12 m20 m21 m22 : Q) : t :=
  let a := indeterminate in
  let a := aset a 0 0 m00 in let a := aset a 0 1 m01 in let a := aset a 0 2 m02 in
  let a := aset a 1 0 m10 in let a := aset a 1 1 m11 in let a := aset a 1 2 m12 in
  let a := aset a 2 0 m20 in let a := aset a 2 1 m21 in let a := aset a 2 2 m22 in
  mk a.

(** [static Matrix3x3 identity()] *)
Definition identity : t := make 1 0 0  0 1 0  0 0 1.

(** [static Matrix3x3 zero()] *)
Definition zero : t := make 0 0 0  0 0 0  0 0 0.

(** [Matrix3x3 operator*(float sca) const] *)
Definition mul_scalar (this : t) (sca : Q) : t :=
  let r := m default in
  mk (for_lt 0 3 1 (fun i r =>
        for_lt 0 3 1 (fun j r =>
          aset r i j (m this i j * sca)) r) r).

(** [Matrix3x3 operator*(const Matrix3x3& otro) const] *)
Definition mul (this otro : t) : t :=
  let r := m zero in
  mk (for_lt 0 3 1 (fun fil r =>
        for_lt 0 3 1 (fun col r =>
          for_lt 0 3 1 (fun k r =>
            aset r fil col (r fil col + m this fil k * m otro k col)) r) r) r).

(** [CVector2 operator*(const CVector2& vec) const] *)
Definition mul_v2 (this : t) (vec : CVector2.t) : CVector2.t :=
  let x := m this 0 0 * CVector2.x vec + m this 0 1 * CVector2.y vec + m this 0 2 * 1 in
  let y := m this 1 0 * CVector2.x vec + m this 1 1 * CVector2.y vec + m this 1 2 * 1 in
  let w := m this 2 0 * CVector2.x vec + m this 2 1 * CVector2.y vec + m this 2 2 * 1 in
  if negb (Qeq_bool w 0) then
    let x := x / w in
    let y := y / w in
    CVector2.mk x y
  else CVector2.mk x y.

(** [CVector3 operator*(const CVector3& vec) const] *)
Definition mul_v3 (this : t) (vec : CVector3.t) : CVector3.t :=
  CVector3.mk
    (m this 0 0 * CVector3.x vec + m this 0 1 * CVector3.y vec + m this 0 2 * CVector3.z vec)
    (m this 1 0 * CVector3.x vec + m this 1 1 * CVector3.y vec + m this 1 2 * CVector3.z vec)
    (m this 2 0 * CVector3.x vec + m this 2 1 * CVector3.y vec + m this 2 2 * CVector3.z vec).

(** [float determinant() const] *)
Definition determinant (this : t) : Q :=
  m this 0 0 * (m this 1 1 * m this 2 2 - m this 1 2 * m this 2 1) -
  m this 0 1 * (m this 1 0 * m this 2 2 - m this 1 2 * m this 2 0) +
  m this 0 2 * (m this 1 0 * m this 2 1 - m this 1 1 * m this 2 0).

(** [Matrix3x3 transpose() const] *)
Definition transpose (this : t) : t :=
  make (m this 0 0) (m this 1 0) (m this 2 0)
       (m this 0 1) (m this 1 1) (m this 2 1)
       (m this 0 2) (m this 1 2) (m this 2 2).

(** [float cofactor(int fil, int col) const] *)
Definition cofactor (this : t) (fil col : Z) : Q :=
  let r1 := Z.rem (fil + 1) 3 in let r2 := Z.rem (fil + 2) 3 in
  let c1 := Z.rem (col + 1) 3 in let c2 := Z.rem (col + 2) 3 in
  let minor := m this r1 c1 * m this r2 c2 - m this r1 c2 * m this r2 c1 in
  if (Z.rem (fil + col) 2 =? 0)%Z then minor else - minor.

(** [Matrix3x3 cofactorMatrix() const] *)
Definition cofactorMatrix (this : t) : t :=
  make (cofactor this 0 0) (cofactor this 0 1) (cofactor this 0 2)
       (cofactor this 1 0) (cofactor this 1 1) (cofactor this 1 2)
       (cofactor this 2 0) (cofactor this 2 1) (cofactor this 2 2).

(** [Matrix3x3 adjugate() const] *)
Definition adjugate (this : t) : t := transpose (cofactorMatrix this).

(** [Matrix3x3 inverse() const] *)
Definition inverse (this : t) : t :=
  let det := determinant this in
  if Qeq_bool det 0 then identity
  else mul_scalar (adjugate this) (1 / det).

(** Equality of the nine stored entries (the Prop form of
    [bool operator==(const Matrix3x3& otro) const]). *)
Definition eq (a b : t) : Prop :=
  forall i j, (0 <= i < 3)%Z -> (0 <= j < 3)%Z -> m a i j == m b i j.

(** [Matrix3x3 operator+(const Matrix3x3& otro) const] *)
Definition add (this otro : t) : t :=
  let r := m default in
  mk (for_lt 0 3 1 (fun i r =>
        for_lt 0 3 1 (fun j r =>
          aset r i j (m this i j + m otro i j)) r) r).

(** [Matrix3x3 operator-(const Matrix3x3& otro) const] *)
Definition sub (this otro : t) : t :=
  let r := m default in
  mk (for_lt 0 3 1 (fun i r =>
        for_lt 0 3 1 (fun j r =>
          aset r i j (m this i j - m otro i j)) r) r).

(** [bool operator==(const Matrix3x3& otro) const]: the loops leave with
    [false] at the first pair of entries that differ ([Some false]), and
    the function returns [true] when they run to their end ([None]). *)
Definition eqb (this otro : t) : bool :=
  let ret : option bool :=
    for_lt 0 3 1 (fun i ret =>
      for_lt 0 3 1 (fun j ret =>
        match ret with
        | Some b => Some b
        | None =>
            if negb (Qeq_bool (m this i j) (m otro i j)) then Some false
            else None
        end) ret) None in
  match ret with
  | Some b => b
  | None => true
  end.

End Matrix3x3.

(** ** Matrices/Matrix4x4.h *)

Module Matrix4x4.

Record t : Type := mk { m : array2 }.
Arguments m _ (_ _)%_Z : extra scopes.

(** [void setIdentity()], with the sixteen assignments in the order and
    with the values of the source. *)
Definition setIdentity (this : t) : t :=
  let a := m this in
  let a := aset a 0 0 1 in let a := aset a 0 1 0 in let a := aset a 0 2 0 in let a := aset a 0 3 0 in
  let a := aset a 1 0 0 in let a := aset a 1 1 1 in let a := aset a 1 2 0 in let a := aset a 1 3 0 in
  let a := aset a 2 0 0 in let a := aset a 2 1 0 in let a := aset a 2 2 1 in let a := aset a 2 3 0 in
  let a := aset a 3 0 0 in let a := aset a 3 1 0 in let a := aset a 3 2 1 in let a := aset a 3 3 0 in
  mk a.

(** [Matrix4x4() { setIdentity(); }] *)
Definition default : t := setIdentity (mk indeterminate).

(** [Matrix4x4(float m00, ..., float m33)] *)
Definition make (m00 m01 m02 m03 m10 m11 m12 m13
                 m20 m21 m22 m23 m30 m31 m32 m33 : Q) : t :=
  let a := indeterminate in
  let a := aset a 0 0 m00 in let a := aset a 0 1 m01 in let a := aset a 0 2 m02 in let a := aset a 0 3 m03 in
  let a := aset a 1 0 m10 in let a := aset a 1 1 m11 in let a := aset a 1 2 m12 in let a := aset a 1 3 m13 in
  let a := aset a 2 0 m20 in let a := aset a 2 1 m21 in let a := aset a 2 2 m22 in let a := aset a 2 3 m23 in
  let a := aset a 3 0 m30 in let a := aset a 3 1 m31 in let a := aset a 3 2 m32 in let a := aset a 3 3 m33 in
  mk a.

(** [static Matrix4x4 identity()] *)
Definition identity : t :=
  make 1 0 0 0  0 1 0 0  0 0 1 0  0 0 0 1.

(** [CVector4 operator*(const CVector4& vec) const] *)
Definition mul_v4 (this : t) (vec : CVector4.t) : CVector4.t :=
  CVector4.mk
    (m this 0 0 * CVector4.x vec + m this 0 1 * CVector4.y vec
     + m this 0 2 * CVector4.z vec + m this 0 3 * CVector4.w vec)
    (m this 1 0 * CVector4.x vec + m this 1 1 * CVector4.y vec
     + m this 1 2 * CVector4.z vec + m this 1 3 * CVector4.w vec)
    (m this 2 0 * CVector4.x vec + m this 2 1 * CVector4.y vec
     + m this 2 2 * CVector4.z vec + m this 2 3 * CVector4.w vec)
    (m this 3 0 * CVector4.x vec + m this 3 1 * CVector4.y vec
     + m this 3 2 * CVector4.z vec + m this 3 3 * CVector4.w vec).

(** [CVector3 operator*(const CVector3& vec) const] *)
Definition mul_v3 (this : t) (vec : CVector3.t) : CVector3.t :=
  let x := m this 0 0 * CVector3.x vec + m this 0 1 * CVector3.y vec
           + m this 0 2 * CVector3.z vec + m this 0 3 in
  let y := m this 1 0 * CVector3.x vec + m this 1 1 * CVector3.y vec
           + m this 1 2 * CVector3.z vec + m this 1 3 in
  let z := m this 2 0 * CVector3.x vec + m this 2 1 * CVector3.y vec
           + m this 2 2 * CVector3.z vec + m this 2 3 in
  let w := m this 3 0 * CVector3.x vec + m this 3 1 * CVector3.y vec
           + m this 3 2 * CVector3.z vec + m this 3 3 in
  if negb (Qeq_bool w 0) then
    let x := x / w in
    let y := y / w in
    let z := z / w in
    CVector3.mk x y z
  else CVector3.mk x y z.

(** [static Matrix4x4 zero()] *)
Definition zero : t :=
  make 0 0 0 0  0 0 0 0  0 0 0 0  0 0 0 0.

(** [Matrix4x4 operator+(const Matrix4x4& otro) const] *)
Definition add (this otro : t) : t :=
  let r := m default in
  mk (for_lt 0 4 1 (fun i r =>
        for_lt 0 4 1 (fun j r =>
          aset r i j (m this i j + m otro i j)) r) r).

(** [Matrix4x4 operator-(const Matrix4x4& otro) const] *)
Definition sub (this otro : t) : t :=
  let r := m default in
  mk (for_lt 0 4 1 (fun i r =>
        for_lt 0 4 1 (fun j r =>
          aset r i j (m this i j - m otro i j)) r) r).

(** [Matrix4x4 operator*(float sca) const] *)
Definition mul_scalar (this : t) (sca : Q) : t :=
  let r := m default in
  mk (for_lt 0 4 1 (fun i r =>
        for_lt 0 4 1 (fun j r =>
          aset r i j (m this i j * sca)) r) r).

(** [Matrix4x4 operator*(const Matrix4x4& otro) const] *)
Definition mul (this otro : t) : t :=
  let r := m zero in
  mk (for_lt 0 4 1 (fun fil r =>
        for_lt 0 4 1 (fun col r =>
          for_lt 0 4 1 (fun k r =>
            aset r fil col (r fil col + m this fil k * m otro k col)) r) r) r).

(** [Matrix4x4 transpose() const] *)
Definition transpose (this : t) : t :=
  make (m this 0 0) (m this 1 0) (m this 2 0) (m this 3 0)
       (m this 0 1) (m this 1 1) (m this 2 1) (m this 3 1)
       (m this 0 2) (m this 1 2) (m this 2 2) (m this 3 2)
       (m this 0 3) (m this 1 3) (m this 2 3) (m this 3 3).

(** [void setScale(float scaX, float scaY, float scaZ)] *)
Definition setScale (this : t) (scaX scaY scaZ : Q) : t :=
  let a := m this in
  let a := for_lt 0 4 1 (fun i a =>
             for_lt 0 4 1 (fun j a => aset a i j 0) a) a in
  let a := aset a 0 0 scaX in
  let a := aset a 1 1 scaY in
  let a := aset a 2 2 scaZ in
  let a := aset a 3 3 1 in
  mk a.

(** [void setTranslation(float tx, float ty, float tz)] *)
Definition setTranslation (this : t) (tx ty tz : Q) : t :=
  let a := m this in
  let a := for_lt 0 4 1 (fun i a =>
             for_lt 0 4 1 (fun j a => aset a i j 0) a) a in
  let a := aset a 0 0 1 in
  let a := aset a 1 1 1 in
  let a := aset a 2 2 1 in
  let a := aset a 3 3 1 in
  let a := aset a 0 3 tx in
  let a := aset a 1 3 ty in
  let a := aset a 2 3 tz in
  mk a.

(** Equality of the sixteen stored entries. *)
Definition eq (a b : t) : Prop :=
  forall i j, (0 <= i < 4)%Z -> (0 <= j < 4)%Z -> m a i j == m b i j.

End Matrix4x4.

(** ** Rotations/Quaternion.h *)

Module Quaternion.

Record t : Type := mk { x : Q; y : Q; z : Q; w : Q }.

(** [Quaternion() : x(0.f), y(0.f), z(0.f), w(1.f) {}] *)
Definition default : t := mk 0 0 0 1.

(** [Quaternion operator*(const Quaternion& otro) const] *)
Definition mul (this otro : t) : t :=
  mk (w this * x otro + x this * w otro + y this * z otro - z this * y otro)
     (w this * y otro - x this * z otro + y this * w otro + z this * x otro)
     (w this * z otro + x this * y otro - y this * x otro + z this * w otro)
     (w this * w otro - x this * x otro - y this * y otro - z this * z otro).

(** [float length() const] *)
Definition length (this : t) : Q :=
  EngineMath.sqrt (x this * x this + y this * y this
                   + z this * z this + w this * w this).

(** [Quaternion normalized() const] *)
Definition normalized (this : t) : t :=
  let len := length this in
  if Qeq_bool len 0 then mk 0 0 0 1
  else mk (x this / len) (y this / len) (z this / len) (w this / len).

(** [Quaternion inverse() const] *)
Definition inverse (this : t) : t :=
  let lenSq := x this * x this + y this * y this
               + z this * z this + w this * w this in
  if Qeq_bool lenSq 0 then default
  else mk (- x this / lenSq) (- y this / lenSq) (- z this / lenSq)
          (w this / lenSq).

(** [static Quaternion lerp(const Quaternion& a, const Quaternion& b, float t)] *)
Definition lerp (a b : t) (t : Q) : Quaternion.t :=
  let t := if Qltb t 0 then 0 else (if Qltb 1 t then 1 else t) in
  normalized
    (mk (x a + (x b - x a) * t)
        (y a + (y b - y a) * t)
        (z a + (z b - z a) * t)
        (w a + (w b - w a) * t)).

(** [static Quaternion identity()] *)
Definition identity : t := mk 0 0 0 1.

(** Componentwise equality (the Prop form of
    [bool operator==(const Quaternion& otro) const]). *)
Definition eq (a b : t) : Prop :=
  x a == x b /\ y a == y b /\ z a == z b /\ w a == w b.

(** [void normalize()] *)
Definition normalize (this : t) : t :=
  let len := length this in
  if Qeq_bool len 0 then this
  else mk (x this / len) (y this / len) (z this / len) (w this / len).

(** [static Quaternion fromAxisAngle(const CVector3& axis, float angle)],
    with the bound on the rounds of the loop of [sin]. *)
Definition fromAxisAngle (fuel : nat) (axis : CVector3.t) (angle : Q) : option t :=
  let halfAngle := angle * (1 # 2) in
  match EngineMath.sin fuel halfAngle with
  | Some s =>
      let c := EngineMath.cos halfAngle in
      Some (mk (CVector3.x axis * s) (CVector3.y axis * s)
               (CVector3.z axis * s) c)
  | None => None
  end.

(** [CVector3 rotate(const CVector3& v) const] *)
Definition rotate (this : t) (v : CVector3.t) : CVector3.t :=
  let qv := mk (CVector3.x v) (CVector3.y v) (CVector3.z v) 0 in
  let result := mul (mul this qv) (inverse this) in
  CVector3.mk (x result) (y result) (z result).

End Quaternion.

(** * Vocabulary of the specification

    The definitions of this part follow the words of the specification;
    the properties below compare them with the embedded code. *)

(** The entry of the identity matrix at row [i], column [j]. *)
Definition kronecker (i j : Z) : Q := if (i =? j)%Z then 1 else 0.

(** Clamping an interpolation factor to [[0, 1]]. *)
Definition clamp01 (t : Q) : Q := Qmax 0 (Qmin 1 t).

(** A vector promoted to homogeneous coordinates, last component [1]. *)
Definition homogeneous2 (v : CVector2.t) : CVector3.t :=
  CVector3.mk (CVector2.x v) (CVector2.y v) 1.

Definition homogeneous3 (v : CVector3.t) : CVector4.t :=
  CVector4.mk (CVector3.x v) (CVector3.y v) (CVector3.z v) 1.

(** Sample inputs used to instantiate the properties. *)
Definition sample_affine3 : Matrix3x3.t := Matrix3x3.make 1 0 2  0 1 3  0 0 2.
Definition sample_flat3 : Matrix3x3.t := Matrix3x3.make 1 0 0  0 1 0  0 0 0.
Definition sample_affine4 : Matrix4x4.t :=
  Matrix4x4.make 1 0 0 2  0 1 0 3  0 0 1 4  0 0 0 2.
Definition sample_flat4 : Matrix4x4.t :=
  Matrix4x4.make 1 0 0 0  0 1 0 0  0 0 1 0  0 0 0 0.
Definition sample_shear3 : Matrix3x3.t := Matrix3x3.make 1 1 0  0 1 0  0 0 1.
Definition sample_move3 : Matrix3x3.t := Matrix3x3.make 1 0 2  0 1 3  0 0 1.
Definition sample_move4 : Matrix4x4.t :=
  Matrix4x4.make 1 0 0 2  0 1 0 3  0 0 1 4  0 0 0 1.
Definition sample_turn2 : Matrix2x2.t := Matrix2x2.make 0 (-1) 1 0.
Definition sample_unshear3 : Matrix3x3.t := Matrix3x3.make 1 (-1) 0  0 1 0  0 0 1.

(** The squared length of a quaternion, its conjugate, and a quaternion
    scaled by a factor. *)
Definition quat_lengthSquared (q : Quaternion.t) : Q :=
  Quaternion.x q * Quaternion.x q + Quaternion.y q * Quaternion.y q
  + Quaternion.z q * Quaternion.z q + Quaternion.w q * Quaternion.w q.

Definition quat_conjugate (q : Quaternion.t) : Quaternion.t :=
  Quaternion.mk (- Quaternion.x q) (- Quaternion.y q) (- Quaternion.z q)
                (Quaternion.w q).

Definition quat_scale (q : Quaternion.t) (k : Q) : Quaternion.t :=
  Quaternion.mk (Quaternion.x q * k) (Quaternion.y q * k)
                (Quaternion.z q * k) (Quaternion.w q * k).

(** The quaternion [(0, 0, 0, 0)]. *)
Definition quat_zero : Quaternion.t := Quaternion.mk 0 0 0 0.

(** The minor that [Matrix3x3::cofactor] computes before it chooses a sign,
    with the remaining rows and columns taken cyclically, and the transposed
    matrix of these minors. *)
Definition cyclic_minor (M : Matrix3x3.t) (fil col : Z) : Q :=
  let r1 := Z.rem (fil + 1) 3 in let r2 := Z.rem (fil + 2) 3 in
  let c1 := Z.rem (col + 1) 3 in let c2 := Z.rem (col + 2) 3 in
  Matrix3x3.m M r1 c1 * Matrix3x3.m M r2 c2
  - Matrix3x3.m M r1 c2 * Matrix3x3.m M r2 c1.

Definition cyclic_adjugate (M : Matrix3x3.t) : Matrix3x3.t :=
  Matrix3x3.transpose
    (Matrix3x3.make
       (cyclic_minor M 0 0) (cyclic_minor M 0 1) (cyclic_minor M 0 2)
       (cyclic_minor M 1 0) (cyclic_minor M 1 1) (cyclic_minor M 1 2)
       (cyclic_minor M 2 0) (cyclic_minor M 2 1) (cyclic_minor M 2 2)).

(** [trunc(q)], the integer next to [q] on the side of zero: the floor of
    a non-negative [q], the ceiling of a negative one. *)
Definition truncation (q : Q) : Z :=
  if Qle_bool 0 q then Qfloor q else Qceiling q.


(** The conventional remainder of a division that truncates its quotient,
    [a - b*trunc(a/b)]. *)
Definition conventional_remainder (a b : Q) : Q :=
  a - b * inject_Z (truncation (a / b)).

(** The integers that fit an [int]. *)
Definition fits_int (z : Z) : Prop := (INT_MIN <= z <= INT_MAX)%Z.

(** A computation with a defined result, and that result is [v]. *)
Definition returns (o : option Q) (v : Q) : Prop :=
  match o with
  | Some r => r == v
  | None => False
  end.

(** One Newton-Raphson step for the square root of [x]:
    [xi := xi - (xi^2 - x) / (2 * xi)]. *)
Definition newton_step (x xi : Q) : Q := xi - (xi ^ 2 - x) / (2 * xi).

(** Polynomials in one variable, as the list of their coefficients from
    the constant term up. *)
Fixpoint peval (cs : list Q) (x : Q) : Q :=
  match cs with
  | [] => 0
  | c :: cs' => c + x * peval cs' x
  end.

(** The number of nonzero terms of a polynomial. *)
Definition nonzero_terms (cs : list Q) : nat :=
  length (filter (fun c => negb (Qeq_bool c 0)) cs).

(** A polynomial of degree [n]: coefficients up to [x^n], that of [x^n]
    not zero. *)
Definition has_degree (cs : list Q) (n : nat) : Prop :=
  length cs = Datatypes.S n /\ ~ nth n cs 0 == 0.

(** The factorial [k!]. *)
Fixpoint Zfact (k : nat) : Z :=
  match k with
  | O => 1
  | Datatypes.S k' => Z.of_nat k * Zfact k'
  end.

(** The coefficient of [x^k] in the Taylor series of the cosine at [0]:
    [(-1)^(k/2) / k!] for even [k], and [0] for odd [k]. *)
Definition taylor_cos_coeff (k : nat) : Q :=
  if Nat.even k
  then inject_Z ((-1) ^ Z.of_nat (k / 2)) / inject_Z (Zfact k)
  else 0.

(** The Taylor polynomial of the cosine of degree [n]. *)
Definition taylor_cos (n : nat) : list Q :=
  map taylor_cos_coeff (seq 0 (Datatypes.S n)).

(** A scalar with an integer value. *)
Definition integer_valued (x : Q) : Prop := inject_Z (Qfloor x) == x.

(** The locals of [sin] on entry to its loop, and after [k] rounds. *)
Definition sin_start (angle : Q) : EngineMath.sin_locals :=
  EngineMath.mk_sin_locals 0 0 angle.

Definition sin_after (angle : Q) (k : nat) : EngineMath.sin_locals :=
  Nat.iter k (EngineMath.sin_body angle) (sin_start angle).

(** Term [k] of the Taylor series of the sine at [0],
    [(-1)^k x^(2k+1) / (2k+1)!], and the sum of the terms before
    term [k]. *)
Definition taylor_sin_term (x : Q) (k : nat) : Q :=
  inject_Z ((-1) ^ Z.of_nat k) * x ^ Z.of_nat (2 * k + 1)
  / inject_Z (Zfact (2 * k + 1)).

Fixpoint taylor_sin_sum (x : Q) (k : nat) : Q :=
  match k with
  | O => 0
  | Datatypes.S k' => taylor_sin_sum x k' + taylor_sin_term x k'
  end.

(** Two states of the loop of [sin] that mirror each other: the same round
    number, opposite sums and opposite terms. *)
Definition sin_mirror (l l' : EngineMath.sin_locals) : Prop :=
  EngineMath.sin_n l' = EngineMath.sin_n l /\
  EngineMath.sin_result l' == - EngineMath.sin_result l /\
  EngineMath.sin_currentTerm l' == - EngineMath.sin_currentTerm l.

(** An affine matrix: last row [(0, 0, 1)], respectively [(0, 0, 0, 1)]. *)
Definition affine3 (M : Matrix3x3.t) : Prop :=
  Matrix3x3.m M 2 0 == 0 /\ Matrix3x3.m M 2 1 == 0 /\ Matrix3x3.m M 2 2 == 1.

Definition affine4 (M : Matrix4x4.t) : Prop :=
  Matrix4x4.m M 3 0 == 0 /\ Matrix4x4.m M 3 1 == 0 /\
  Matrix4x4.m M 3 2 == 0 /\ Matrix4x4.m M 3 3 == 1.

(** A vector as a quaternion with real part [0]. *)
Definition quat_of_vector (v : CVector3.t) : Quaternion.t :=
  Quaternion.mk (CVector3.x v) (CVector3.y v) (CVector3.z v) 0.

(** * Properties *)

(** ** Tests on scalars *)

Lemma Qltb_true (a b : Q) : Qltb a b = true <-> a < b.
Proof.
  unfold Qltb. rewrite negb_true_iff.
  split; intro H.
  - apply Qnot_le_lt. intro Hle. apply Qle_bool_iff in Hle. congruence.
  - destruct (Qle_bool b a) eqn:E; [|reflexivity].
    apply Qle_bool_iff in E. exfalso. apply (Qlt_not_le _ _ H E).
Qed.

Lemma Qltb_false (a b : Q) : Qltb a b = false <-> b <= a.
Proof.
  unfold Qltb. rewrite negb_false_iff. apply Qle_bool_iff.
Qed.

Lemma Qle_bool_false (a b : Q) : Qle_bool a b = false <-> b < a.
Proof.
  split; intro H.
  - apply Qnot_le_lt. intro Hle. apply Qle_bool_iff in Hle. congruence.
  - destruct (Qle_bool a b) eqn:E; [|reflexivity].
    apply Qle_bool_iff in E. exfalso. apply (Qlt_not_le _ _ H E).
Qed.

Lemma Qeq_bool_false (a b : Q) : Qeq_bool a b = false <-> ~ a == b.
Proof.
  split; intro H.
  - apply Qeq_bool_neq. exact H.
  - destruct (Qeq_bool a b) eqn:E; [|reflexivity].
    apply Qeq_bool_iff in E. contradiction.
Qed.

(** ** Default-constructed matrices *)

(** The indices of an [N]-element dimension, one case each. *)
Ltac index_cases i :=
  match goal with
  | H : (0 <= i < 2)%Z |- _ =>
      assert (i = 0 \/ i = 1)%Z as [-> | ->] by lia; clear H
  | H : (0 <= i < 3)%Z |- _ =>
      assert (i = 0 \/ i = 1 \/ i = 2)%Z as [-> | [-> | ->]] by lia; clear H
  | H : (0 <= i < 4)%Z |- _ =>
      assert (i = 0 \/ i = 1 \/ i = 2 \/ i = 3)%Z
        as [-> | [-> | [-> | ->]]] by lia; clear H
  end.

Lemma Matrix2x2_default_is_identity (i j : Z) :
  (0 <= i < 2)%Z -> (0 <= j < 2)%Z ->
  Matrix2x2.m Matrix2x2.default i j = kronecker i j.
Proof.
  intros Hi Hj. index_cases i; index_cases j; reflexivity.
Qed.

Lemma Matrix3x3_default_is_identity (i j : Z) :
  (0 <= i < 3)%Z -> (0 <= j < 3)%Z ->
  Matrix3x3.m Matrix3x3.default i j = kronecker i j.
Proof.
  intros Hi Hj. index_cases i; index_cases j; reflexivity.
Qed.

Lemma Matrix4x4_identity_is_identity (i j : Z) :
  (0 <= i < 4)%Z -> (0 <= j < 4)%Z ->
  Matrix4x4.m Matrix4x4.identity i j = kronecker i j.
Proof.
  intros Hi Hj. index_cases i; index_cases j; reflexivity.
Qed.

Lemma Matrix4x4_default_first_rows (i j : Z) :
  (0 <= i < 3)%Z -> (0 <= j < 4)%Z ->
  Matrix4x4.m Matrix4x4.default i j = kronecker i j.
Proof.
  intros Hi Hj. index_cases i; index_cases j; reflexivity.
Qed.

(** C1 (the code departs from the claim): the default-constructed
    [Matrix4x4] is not the identity matrix.  Its last row is [0 0 1 0]:
    the diagonal entry [m[3][3]] is [0] and the off-diagonal entry
    [m[3][2]] is [1], whereas [Matrix4x4::identity()] has [0] and [1]
    there the other way round. *)
Theorem Matrix4x4_default_last_row :
  Matrix4x4.m Matrix4x4.default 3 0 = 0 /\
  Matrix4x4.m Matrix4x4.default 3 1 = 0 /\
  Matrix4x4.m Matrix4x4.default 3 2 = 1 /\
  Matrix4x4.m Matrix4x4.default 3 3 = 0 /\
  ~ Matrix4x4.m Matrix4x4.default 3 3 == kronecker 3 3 /\
  ~ Matrix4x4.m Matrix4x4.default 3 2 == kronecker 3 2 /\
  ~ Matrix4x4.m Matrix4x4.default 3 3 == Matrix4x4.m Matrix4x4.identity 3 3.
Proof.
  repeat split; try reflexivity; intro H; discriminate H.
Qed.

(** ** Indexed component access *)

(** C9: for every index outside [0..N-1], negative ones included,
    [CVector2::operator[]] returns [y] and [CVector3::operator[]] returns
    [z]; the accessors are total functions of the index, and inside the
    range they return the component of that position. *)
Theorem index_out_of_range_is_last_component :
  (forall (v : CVector2.t) (i : Z),
      ~ (0 <= i <= 1)%Z -> CVector2.index v i = CVector2.y v) /\
  (forall (v : CVector3.t) (i : Z),
      ~ (0 <= i <= 2)%Z -> CVector3.index v i = CVector3.z v) /\
  (forall v : CVector2.t,
      CVector2.index v 0 = CVector2.x v /\ CVector2.index v 1 = CVector2.y v) /\
  (forall v : CVector3.t,
      CVector3.index v 0 = CVector3.x v /\ CVector3.index v 1 = CVector3.y v /\
      CVector3.index v 2 = CVector3.z v).
Proof.
  split; [|split; [|split]].
  - intros v i Hi. unfold CVector2.index.
    destruct (Z.eqb_spec i 0) as [-> | _]; [lia | reflexivity].
  - intros v i Hi. unfold CVector3.index.
    destruct (Z.eqb_spec i 0) as [-> | _]; [lia |].
    destruct (Z.eqb_spec i 1) as [-> | _]; [lia | reflexivity].
  - intros v. split; reflexivity.
  - intros v. repeat split; reflexivity.
Qed.

Lemma index_out_of_range_witness :
  CVector2.index (CVector2.mk 5 7) (-3) = 7 /\
  CVector2.index (CVector2.mk 5 7) 2 = 7 /\
  CVector3.index (CVector3.mk 5 7 9) (-1) = 9 /\
  CVector3.index (CVector3.mk 5 7 9) 3 = 9.
Proof.
  destruct index_out_of_range_is_last_component as [H2 [H3 _]].
  split; [|split; [|split]].
  - apply (H2 (CVector2.mk 5 7) (-3)%Z). lia.
  - apply (H2 (CVector2.mk 5 7) 2%Z). lia.
  - apply (H3 (CVector3.mk 5 7 9) (-1)%Z). lia.
  - apply (H3 (CVector3.mk 5 7 9) 3%Z). lia.
Defined.

(** ** Interpolation *)

Lemma clamp_steps (t : Q) :
  (if Qltb 1 (if Qltb t 0 then 0 else t) then 1
   else if Qltb t 0 then 0 else t) == clamp01 t.
Proof.
  unfold clamp01.
  destruct (Qltb t 0) eqn:E0.
  - apply Qltb_true in E0.
    replace (Qltb 1 0) with false by reflexivity.
    rewrite Q.max_l; [reflexivity|].
    apply Q.min_le_iff. right. lra.
  - apply Qltb_false in E0.
    destruct (Qltb 1 t) eqn:E1.
    + apply Qltb_true in E1.
      rewrite Q.min_l by lra. rewrite Q.max_r by lra. reflexivity.
    + apply Qltb_false in E1.
      rewrite Q.min_r by lra. rewrite Q.max_r by lra. reflexivity.
Qed.

Lemma CVector2_lerp_clamps (a b : CVector2.t) (t : Q) :
  CVector2.x (CVector2.lerp a b t)
    == CVector2.x a + (CVector2.x b - CVector2.x a) * clamp01 t /\
  CVector2.y (CVector2.lerp a b t)
    == CVector2.y a + (CVector2.y b - CVector2.y a) * clamp01 t.
Proof.
  unfold CVector2.lerp, CVector2.add, CVector2.mul, CVector2.sub; cbn.
  rewrite clamp_steps. split; reflexivity.
Qed.

Lemma CVector3_lerp_clamps (a b : CVector3.t) (t : Q) :
  CVector3.x (CVector3.lerp a b t)
    == CVector3.x a + (CVector3.x b - CVector3.x a) * clamp01 t /\
  CVector3.y (CVector3.lerp a b t)
    == CVector3.y a + (CVector3.y b - CVector3.y a) * clamp01 t /\
  CVector3.z (CVector3.lerp a b t)
    == CVector3.z a + (CVector3.z b - CVector3.z a) * clamp01 t.
Proof.
  unfold CVector3.lerp, CVector3.add, CVector3.mul, CVector3.sub; cbn.
  rewrite clamp_steps. repeat split; reflexivity.
Qed.

Lemma CVector4_lerp_clamps (a b : CVector4.t) (t : Q) :
  CVector4.x (CVector4.lerp a b t)
    == CVector4.x a + (CVector4.x b - CVector4.x a) * clamp01 t /\
  CVector4.y (CVector4.lerp a b t)
    == CVector4.y a + (CVector4.y b - CVector4.y a) * clamp01 t /\
  CVector4.z (CVector4.lerp a b t)
    == CVector4.z a + (CVector4.z b - CVector4.z a) * clamp01 t /\
  CVector4.w (CVector4.lerp a b t)
    == CVector4.w a + (CVector4.w b - CVector4.w a) * clamp01 t.
Proof.
  unfold CVector4.lerp, CVector4.add, CVector4.mul, CVector4.sub; cbn.
  rewrite clamp_steps. repeat split; reflexivity.
Qed.

(** [Quaternion::lerp] interpolates at a factor equal to [clamp01 t] and
    normalizes the outcome. *)
Lemma Quaternion_lerp_clamps (a b : Quaternion.t) (t : Q) :
  exists t' : Q,
    t' == clamp01 t /\
    Quaternion.lerp a b t =
    Quaternion.normalized
      (Quaternion.mk
         (Quaternion.x a + (Quaternion.x b - Quaternion.x a) * t')
         (Quaternion.y a + (Quaternion.y b - Quaternion.y a) * t')
         (Quaternion.z a + (Quaternion.z b - Quaternion.z a) * t')
         (Quaternion.w a + (Quaternion.w b - Quaternion.w a) * t')).
Proof.
  exists (if Qltb t 0 then 0 else if Qltb 1 t then 1 else t).
  split; [|reflexivity].
  rewrite <- clamp_steps.
  destruct (Qltb t 0) eqn:E0; [reflexivity|].
  destruct (Qltb 1 t); reflexivity.
Qed.

(** C10: the scalar [EngineMath::lerp] applies no clamping: for every [t]
    it returns [start + (end - start) * t], so that it leaves the interval
    of its endpoints when [t > 1] or [t < 0] (strictly so before any
    rounding); the vector and quaternion
    interpolations clamp [t] to [[0, 1]] first and then interpolate: each
    component of a vector [lerp] is the scalar [lerp] of the components
    at the clamped factor, and [Quaternion::lerp] is the normalized
    quaternion of the scalar [lerp]s at the clamped factor.  So outside
    [[0, 1]] they return what they return at the nearer end. *)
Theorem scalar_lerp_extrapolates :
  (forall start end_ t : Q,
      EngineMath.lerp start end_ t = start + (end_ - start) * t) /\
  (forall start end_ t : Q,
      start < end_ -> 1 < t -> end_ < EngineMath.lerp start end_ t) /\
  (forall start end_ t : Q,
      start < end_ -> t < 0 -> EngineMath.lerp start end_ t < start) /\
  (forall (a b : CVector2.t) (t : Q),
      CVector2.x (CVector2.lerp a b t)
        == EngineMath.lerp (CVector2.x a) (CVector2.x b) (clamp01 t) /\
      CVector2.y (CVector2.lerp a b t)
        == EngineMath.lerp (CVector2.y a) (CVector2.y b) (clamp01 t)) /\
  (forall (a b : CVector2.t) (t : Q),
      (1 < t -> CVector2.lerp a b t = CVector2.lerp a b 1) /\
      (t < 0 -> CVector2.lerp a b t = CVector2.lerp a b 0)) /\
  (forall (a b : Quaternion.t) (t : Q),
      (1 < t -> Quaternion.lerp a b t = Quaternion.lerp a b 1) /\
      (t < 0 -> Quaternion.lerp a b t = Quaternion.lerp a b 0)) /\
  (forall (a b : Quaternion.t) (t : Q),
      exists t' : Q,
        t' == clamp01 t /\
        Quaternion.lerp a b t
        = Quaternion.normalized
            (Quaternion.mk
               (EngineMath.lerp (Quaternion.x a) (Quaternion.x b) t')
               (EngineMath.lerp (Quaternion.y a) (Quaternion.y b) t')
               (EngineMath.lerp (Quaternion.z a) (Quaternion.z b) t')
               (EngineMath.lerp (Quaternion.w a) (Quaternion.w b) t'))) /\
  (forall (a b : CVector3.t) (t : Q),
      CVector3.x (CVector3.lerp a b t)
        == EngineMath.lerp (CVector3.x a) (CVector3.x b) (clamp01 t) /\
      CVector3.y (CVector3.lerp a b t)
        == EngineMath.lerp (CVector3.y a) (CVector3.y b) (clamp01 t) /\
      CVector3.z (CVector3.lerp a b t)
        == EngineMath.lerp (CVector3.z a) (CVector3.z b) (clamp01 t)) /\
  (forall (a b : CVector4.t) (t : Q),
      CVector4.x (CVector4.lerp a b t)
        == EngineMath.lerp (CVector4.x a) (CVector4.x b) (clamp01 t) /\
      CVector4.y (CVector4.lerp a b t)
        == EngineMath.lerp (CVector4.y a) (CVector4.y b) (clamp01 t) /\
      CVector4.z (CVector4.lerp a b t)
        == EngineMath.lerp (CVector4.z a) (CVector4.z b) (clamp01 t) /\
      CVector4.w (CVector4.lerp a b t)
        == EngineMath.lerp (CVector4.w a) (CVector4.w b) (clamp01 t)).
Proof.
  split; [reflexivity|].
  split; [intros s e t Hse Ht; unfold EngineMath.lerp; nra|].
  split; [intros s e t Hse Ht; unfold EngineMath.lerp; nra|].
  split; [intros a b t; apply CVector2_lerp_clamps|].
  rewrite <- !and_assoc.
  split; [|intros a b t; apply CVector4_lerp_clamps].
  split; [|intros a b t; apply CVector3_lerp_clamps].
  split; [|intros a b t; apply Quaternion_lerp_clamps].
  split; intros a b t; split; intro Ht.
  - unfold CVector2.lerp.
    assert (E0 : Qltb t 0 = false) by (apply Qltb_false; lra).
    assert (E1 : Qltb 1 t = true) by (apply Qltb_true; lra).
    rewrite E0, E1. reflexivity.
  - unfold CVector2.lerp.
    assert (E0 : Qltb t 0 = true) by (apply Qltb_true; lra).
    rewrite E0. reflexivity.
  - unfold Quaternion.lerp.
    assert (E0 : Qltb t 0 = false) by (apply Qltb_false; lra).
    assert (E1 : Qltb 1 t = true) by (apply Qltb_true; lra).
    rewrite E0, E1. reflexivity.
  - unfold Quaternion.lerp.
    assert (E0 : Qltb t 0 = true) by (apply Qltb_true; lra).
    rewrite E0. reflexivity.
Qed.

Lemma scalar_lerp_extrapolates_witness :
  10 < EngineMath.lerp 0 10 2 /\
  EngineMath.lerp 0 10 (-1) < 0 /\
  CVector2.lerp (CVector2.mk 0 0) (CVector2.mk 10 10) 2
    = CVector2.lerp (CVector2.mk 0 0) (CVector2.mk 10 10) 1 /\
  Quaternion.lerp Quaternion.identity (Quaternion.mk 1 0 0 0) (-1)
    = Quaternion.lerp Quaternion.identity (Quaternion.mk 1 0 0 0) 0.
Proof.
  destruct scalar_lerp_extrapolates as [_ [Hhi [Hlo [_ [Hv [Hq _]]]]]].
  split; [|split; [|split]].
  - apply (Hhi 0 10 2); reflexivity.
  - apply (Hlo 0 10 (-1)); reflexivity.
  - apply (Hv (CVector2.mk 0 0) (CVector2.mk 10 10) 2). reflexivity.
  - apply (Hq Quaternion.identity (Quaternion.mk 1 0 0 0) (-1)). reflexivity.
Defined.

(** ** Matrix times vector in homogeneous coordinates *)

(** C8: [Matrix3x3 * CVector2] and [Matrix4x4 * CVector3] apply the matrix
    to the vector promoted to homogeneous coordinates with last component
    [1] (the linear maps [Matrix3x3 * CVector3] and [Matrix4x4 * CVector4]
    at the promoted vector); when the last coordinate [w] of that product
    is nonzero every returned component is the corresponding coordinate
    divided by [w], and when [w] is [0] the coordinates are returned as
    they are. *)
Theorem homogeneous_product_dehomogenizes :
  (forall (M : Matrix3x3.t) (v : CVector2.t),
      let h := Matrix3x3.mul_v3 M (homogeneous2 v) in
      (~ CVector3.z h == 0 ->
       CVector2.eq (Matrix3x3.mul_v2 M v)
         (CVector2.mk (CVector3.x h / CVector3.z h)
                      (CVector3.y h / CVector3.z h))) /\
      (CVector3.z h == 0 ->
       CVector2.eq (Matrix3x3.mul_v2 M v)
         (CVector2.mk (CVector3.x h) (CVector3.y h)))) /\
  (forall (M : Matrix4x4.t) (v : CVector3.t),
      let h := Matrix4x4.mul_v4 M (homogeneous3 v) in
      (~ CVector4.w h == 0 ->
       CVector3.eq (Matrix4x4.mul_v3 M v)
         (CVector3.mk (CVector4.x h / CVector4.w h)
                      (CVector4.y h / CVector4.w h)
                      (CVector4.z h / CVector4.w h))) /\
      (CVector4.w h == 0 ->
       CVector3.eq (Matrix4x4.mul_v3 M v)
         (CVector3.mk (CVector4.x h) (CVector4.y h) (CVector4.z h)))).
Proof.
  split.
  - intros M v h. subst h.
    unfold Matrix3x3.mul_v2, Matrix3x3.mul_v3, homogeneous2, CVector2.eq.
    cbn [CVector3.x CVector3.y CVector3.z].
    set (w := Matrix3x3.m M 2 0 * CVector2.x v
              + Matrix3x3.m M 2 1 * CVector2.y v + Matrix3x3.m M 2 2 * 1).
    split; intro Hw.
    + apply Qeq_bool_false in Hw. rewrite Hw.
      cbn. split; reflexivity.
    + apply Qeq_bool_iff in Hw. rewrite Hw.
      cbn. split; reflexivity.
  - intros M v h. subst h.
    unfold Matrix4x4.mul_v3, Matrix4x4.mul_v4, homogeneous3, CVector3.eq.
    cbn [CVector4.x CVector4.y CVector4.z CVector4.w].
    set (w := Matrix4x4.m M 3 0 * CVector3.x v + Matrix4x4.m M 3 1 * CVector3.y v
              + Matrix4x4.m M 3 2 * CVector3.z v + Matrix4x4.m M 3 3).
    set (w1 := Matrix4x4.m M 3 0 * CVector3.x v + Matrix4x4.m M 3 1 * CVector3.y v
              + Matrix4x4.m M 3 2 * CVector3.z v + Matrix4x4.m M 3 3 * 1).
    assert (Ew : w1 == w) by (unfold w, w1; ring).
    split; intro Hw.
    + assert (Hw' : ~ w == 0) by (rewrite <- Ew; exact Hw).
      apply Qeq_bool_false in Hw'. rewrite Hw'.
      apply Qeq_bool_false in Hw'.
      cbn. rewrite Ew. repeat split; field; exact Hw'.
    + assert (Hw' : w == 0) by (rewrite <- Ew; exact Hw).
      apply Qeq_bool_iff in Hw'. rewrite Hw'.
      cbn. repeat split; ring.
Qed.

Lemma homogeneous_product_witness :
  CVector2.eq (Matrix3x3.mul_v2 sample_affine3 (CVector2.mk 1 1))
    (CVector2.mk
       (CVector3.x (Matrix3x3.mul_v3 sample_affine3 (homogeneous2 (CVector2.mk 1 1)))
        / CVector3.z (Matrix3x3.mul_v3 sample_affine3 (homogeneous2 (CVector2.mk 1 1))))
       (CVector3.y (Matrix3x3.mul_v3 sample_affine3 (homogeneous2 (CVector2.mk 1 1)))
        / CVector3.z (Matrix3x3.mul_v3 sample_affine3 (homogeneous2 (CVector2.mk 1 1))))) /\
  CVector2.eq (Matrix3x3.mul_v2 sample_flat3 (CVector2.mk 5 7))
    (CVector2.mk
       (CVector3.x (Matrix3x3.mul_v3 sample_flat3 (homogeneous2 (CVector2.mk 5 7))))
       (CVector3.y (Matrix3x3.mul_v3 sample_flat3 (homogeneous2 (CVector2.mk 5 7))))) /\
  CVector3.eq (Matrix4x4.mul_v3 sample_affine4 (CVector3.mk 1 1 1))
    (CVector3.mk
       (CVector4.x (Matrix4x4.mul_v4 sample_affine4 (homogeneous3 (CVector3.mk 1 1 1)))
        / CVector4.w (Matrix4x4.mul_v4 sample_affine4 (homogeneous3 (CVector3.mk 1 1 1))))
       (CVector4.y (Matrix4x4.mul_v4 sample_affine4 (homogeneous3 (CVector3.mk 1 1 1)))
        / CVector4.w (Matrix4x4.mul_v4 sample_affine4 (homogeneous3 (CVector3.mk 1 1 1))))
       (CVector4.z (Matrix4x4.mul_v4 sample_affine4 (homogeneous3 (CVector3.mk 1 1 1)))
        / CVector4.w (Matrix4x4.mul_v4 sample_affine4 (homogeneous3 (CVector3.mk 1 1 1))))) /\
  CVector3.eq (Matrix4x4.mul_v3 sample_flat4 (CVector3.mk 5 7 9))
    (CVector3.mk
       (CVector4.x (Matrix4x4.mul_v4 sample_flat4 (homogeneous3 (CVector3.mk 5 7 9))))
       (CVector4.y (Matrix4x4.mul_v4 sample_flat4 (homogeneous3 (CVector3.mk 5 7 9))))
       (CVector4.z (Matrix4x4.mul_v4 sample_flat4 (homogeneous3 (CVector3.mk 5 7 9))))).
Proof.
  destruct homogeneous_product_dehomogenizes as [H3 H4].
  split; [|split; [|split]].
  - apply (proj1 (H3 sample_affine3 (CVector2.mk 1 1))).
    vm_compute. discriminate.
  - apply (proj2 (H3 sample_flat3 (CVector2.mk 5 7))).
    vm_compute. reflexivity.
  - apply (proj1 (H4 sample_affine4 (CVector3.mk 1 1 1))).
    vm_compute. discriminate.
  - apply (proj2 (H4 sample_flat4 (CVector3.mk 5 7 9))).
    vm_compute. reflexivity.
Defined.

(** The values behind the instances above: the affine samples divide by
    [w = 2], the flat samples have [w = 0] and return the coordinates
    undivided. *)
Example homogeneous_product_values :
  CVector2.eq (Matrix3x3.mul_v2 sample_affine3 (CVector2.mk 1 1))
              (CVector2.mk (3 # 2) 2) /\
  CVector2.eq (Matrix3x3.mul_v2 sample_flat3 (CVector2.mk 5 7))
              (CVector2.mk 5 7) /\
  CVector3.eq (Matrix4x4.mul_v3 sample_affine4 (CVector3.mk 1 1 1))
              (CVector3.mk (3 # 2) 2 (5 # 2)) /\
  CVector3.eq (Matrix4x4.mul_v3 sample_flat4 (CVector3.mk 5 7 9))
              (CVector3.mk 5 7 9).
Proof.
  unfold CVector2.eq, CVector3.eq.
  repeat match goal with |- _ /\ _ => split end; vm_compute; reflexivity.
Qed.

(** ** Quaternion inverse *)

Lemma sum_of_squares_zero (a b c d : Q) :
  a * a + b * b + c * c + d * d == 0 ->
  a == 0 /\ b == 0 /\ c == 0 /\ d == 0.
Proof.
  intro H.
  assert (Ha : 0 <= a * a) by nra.
  assert (Hb : 0 <= b * b) by nra.
  assert (Hc : 0 <= c * c) by nra.
  assert (Hd : 0 <= d * d) by nra.
  assert (Za : a * a == 0) by lra.
  assert (Zb : b * b == 0) by lra.
  assert (Zc : c * c == 0) by lra.
  assert (Zd : d * d == 0) by lra.
  repeat split.
  - destruct (Qmult_integral _ _ Za); assumption.
  - destruct (Qmult_integral _ _ Zb); assumption.
  - destruct (Qmult_integral _ _ Zc); assumption.
  - destruct (Qmult_integral _ _ Zd); assumption.
Qed.

Lemma quat_lengthSquared_nonzero (q : Quaternion.t) :
  ~ Quaternion.eq q quat_zero -> ~ quat_lengthSquared q == 0.
Proof.
  intros Hq H. apply Hq.
  apply sum_of_squares_zero in H. exact H.
Qed.

(** C5: for every quaternion [q] other than [(0, 0, 0, 0)] the Hamilton
    product [q * q.inverse()] is the identity quaternion [(0, 0, 0, 1)],
    [q.inverse()] being the conjugate of [q] scaled by
    [1 / lengthSquared]; and when [lengthSquared] is [0], [inverse()]
    returns the identity quaternion. *)
Theorem quaternion_mul_inverse_is_identity (q : Quaternion.t) :
  (~ Quaternion.eq q quat_zero ->
   Quaternion.eq (Quaternion.mul q (Quaternion.inverse q)) Quaternion.identity /\
   Quaternion.eq (Quaternion.inverse q)
                 (quat_scale (quat_conjugate q) (1 / quat_lengthSquared q))) /\
  (quat_lengthSquared q == 0 ->
   Quaternion.inverse q = Quaternion.identity).
Proof.
  split.
  - intro Hq. apply quat_lengthSquared_nonzero in Hq.
    unfold Quaternion.inverse.
    fold (quat_lengthSquared q).
    pose proof Hq as Hb. apply Qeq_bool_false in Hb. rewrite Hb.
    destruct q as [x y z w].
    unfold quat_lengthSquared in *.
    unfold Quaternion.eq, Quaternion.mul, Quaternion.identity,
      quat_scale, quat_conjugate.
    cbn [Quaternion.x Quaternion.y Quaternion.z Quaternion.w] in *.
    repeat split; field; exact Hq.
  - intro H0. unfold Quaternion.inverse.
    fold (quat_lengthSquared q).
    apply Qeq_bool_iff in H0. rewrite H0. reflexivity.
Qed.

Lemma quaternion_mul_inverse_witness :
  Quaternion.eq
    (Quaternion.mul (Quaternion.mk 1 2 3 4)
                    (Quaternion.inverse (Quaternion.mk 1 2 3 4)))
    Quaternion.identity /\
  Quaternion.inverse quat_zero = Quaternion.identity.
Proof.
  split.
  - apply (proj1 (quaternion_mul_inverse_is_identity (Quaternion.mk 1 2 3 4))).
    intros [H _]. discriminate H.
  - apply (proj2 (quaternion_mul_inverse_is_identity quat_zero)).
    reflexivity.
Defined.

(** ** Matrix inverses *)

(** Unfolds the matrix operations and runs their loops, leaving scalar
    arithmetic in place. *)
Ltac run_matrix :=
  cbv -[Qplus Qmult Qminus Qdiv Qopp Qinv Qeq Qeq_bool Qle Qlt].
Ltac run_matrix_in H :=
  cbv -[Qplus Qmult Qminus Qdiv Qopp Qinv Qeq Qeq_bool Qle Qlt] in H.

Lemma Matrix2x2_inverse_singular (M : Matrix2x2.t) :
  Matrix2x2.determinant M == 0 -> Matrix2x2.inverse M = Matrix2x2.identity.
Proof.
  intro H. unfold Matrix2x2.inverse.
  apply Qeq_bool_iff in H. rewrite H. reflexivity.
Qed.

Lemma Matrix2x2_mul_inverse (M : Matrix2x2.t) :
  ~ Matrix2x2.determinant M == 0 ->
  Matrix2x2.eq (Matrix2x2.mul M (Matrix2x2.inverse M)) Matrix2x2.identity.
Proof.
  intros Hdet i j Hi Hj.
  unfold Matrix2x2.inverse.
  pose proof Hdet as Hb. apply Qeq_bool_false in Hb. rewrite Hb.
  destruct M as [a]. run_matrix_in Hdet.
  index_cases i; index_cases j; run_matrix; field; exact Hdet.
Qed.

Lemma Matrix2x2_inverse_mul (M : Matrix2x2.t) :
  ~ Matrix2x2.determinant M == 0 ->
  Matrix2x2.eq (Matrix2x2.mul (Matrix2x2.inverse M) M) Matrix2x2.identity.
Proof.
  intros Hdet i j Hi Hj.
  unfold Matrix2x2.inverse.
  pose proof Hdet as Hb. apply Qeq_bool_false in Hb. rewrite Hb.
  destruct M as [a]. run_matrix_in Hdet.
  index_cases i; index_cases j; run_matrix; field; exact Hdet.
Qed.

Lemma Matrix3x3_inverse_singular (M : Matrix3x3.t) :
  Matrix3x3.determinant M == 0 -> Matrix3x3.inverse M = Matrix3x3.identity.
Proof.
  intro H. unfold Matrix3x3.inverse.
  apply Qeq_bool_iff in H. rewrite H. reflexivity.
Qed.

(** At the positions where [fil + col] is even, [Matrix3x3::cofactor] is the
    cofactor of the matrix: the minor of the remaining rows and columns in
    increasing order, with sign [+]. *)
Lemma Matrix3x3_cofactor_even (M : Matrix3x3.t) :
  Matrix3x3.cofactor M 0 0
    == Matrix3x3.m M 1 1 * Matrix3x3.m M 2 2 - Matrix3x3.m M 1 2 * Matrix3x3.m M 2 1 /\
  Matrix3x3.cofactor M 0 2
    == Matrix3x3.m M 1 0 * Matrix3x3.m M 2 1 - Matrix3x3.m M 1 1 * Matrix3x3.m M 2 0 /\
  Matrix3x3.cofactor M 1 1
    == Matrix3x3.m M 0 0 * Matrix3x3.m M 2 2 - Matrix3x3.m M 0 2 * Matrix3x3.m M 2 0 /\
  Matrix3x3.cofactor M 2 0
    == Matrix3x3.m M 0 1 * Matrix3x3.m M 1 2 - Matrix3x3.m M 0 2 * Matrix3x3.m M 1 1 /\
  Matrix3x3.cofactor M 2 2
    == Matrix3x3.m M 0 0 * Matrix3x3.m M 1 1 - Matrix3x3.m M 0 1 * Matrix3x3.m M 1 0.
Proof.
  destruct M as [a]. repeat split; run_matrix; ring.
Qed.

(** At the positions where [fil + col] is odd, [Matrix3x3::cofactor] has the
    sign of the cofactor reversed: the rows and columns taken cyclically
    ([(fil + 1) % 3], [(fil + 2) % 3]) already carry the sign [(-1)^(fil+col)],
    and the function negates the minor once more.  The value returned is
    the plain minor, where the cofactor is its negation. *)
Lemma Matrix3x3_cofactor_odd (M : Matrix3x3.t) :
  Matrix3x3.cofactor M 0 1
    == Matrix3x3.m M 1 0 * Matrix3x3.m M 2 2 - Matrix3x3.m M 1 2 * Matrix3x3.m M 2 0 /\
  Matrix3x3.cofactor M 1 0
    == Matrix3x3.m M 0 1 * Matrix3x3.m M 2 2 - Matrix3x3.m M 0 2 * Matrix3x3.m M 2 1 /\
  Matrix3x3.cofactor M 1 2
    == Matrix3x3.m M 0 0 * Matrix3x3.m M 2 1 - Matrix3x3.m M 0 1 * Matrix3x3.m M 2 0 /\
  Matrix3x3.cofactor M 2 1
    == Matrix3x3.m M 0 0 * Matrix3x3.m M 1 2 - Matrix3x3.m M 0 2 * Matrix3x3.m M 1 0.
Proof.
  destruct M as [a]. repeat split; run_matrix; ring.
Qed.

(** Without the second sign the construction of [inverse()] is right: the
    transposed matrix of cyclic minors, scaled by [1 / determinant], is an
    inverse of every matrix of nonzero determinant. *)
Lemma Matrix3x3_cyclic_adjugate_inverts (M : Matrix3x3.t) :
  ~ Matrix3x3.determinant M == 0 ->
  Matrix3x3.eq
    (Matrix3x3.mul M (Matrix3x3.mul_scalar (cyclic_adjugate M)
                                           (1 / Matrix3x3.determinant M)))
    Matrix3x3.identity.
Proof.
  intros Hdet i j Hi Hj.
  destruct M as [a]. run_matrix_in Hdet.
  index_cases i; index_cases j; run_matrix; field; exact Hdet.
Qed.

(** [Matrix3x3::inverse] is right on diagonal matrices, whose cofactors at
    the odd positions are all [0]. *)
Lemma Matrix3x3_mul_inverse_diagonal (a b c : Q) :
  ~ a == 0 -> ~ b == 0 -> ~ c == 0 ->
  Matrix3x3.eq
    (Matrix3x3.mul (Matrix3x3.make a 0 0  0 b 0  0 0 c)
                   (Matrix3x3.inverse (Matrix3x3.make a 0 0  0 b 0  0 0 c)))
    Matrix3x3.identity.
Proof.
  intros Ha Hb Hc i j Hi Hj.
  unfold Matrix3x3.inverse.
  assert (Hdet : ~ Matrix3x3.determinant (Matrix3x3.make a 0 0  0 b 0  0 0 c) == 0).
  { run_matrix. intro H.
    assert (E : a * b * c == 0) by (rewrite <- H; ring).
    apply Qmult_integral in E. destruct E as [E | E]; [|contradiction].
    apply Qmult_integral in E. destruct E; contradiction. }
  apply Qeq_bool_false in Hdet. rewrite Hdet.
  index_cases i; index_cases j; run_matrix; field; repeat split; assumption.
Qed.

(** The matrix that undoes the shear [sample_shear3]: their product is the
    identity matrix. *)
Example sample_unshear3_inverts :
  Matrix3x3.eq (Matrix3x3.mul sample_shear3 sample_unshear3) Matrix3x3.identity.
Proof.
  intros i j Hi Hj. index_cases i; index_cases j; vm_compute; reflexivity.
Qed.

(** C4 (the code departs from the claim): the shear matrix
    [Matrix3x3(1,1,0, 0,1,0, 0,0,1)] has determinant [1], yet
    [inverse()] returns the shear itself instead of
    [Matrix3x3(1,-1,0, 0,1,0, 0,0,1)], so that [m * m.inverse()] has [2] at
    row 0, column 1 and is not the identity matrix. *)
Theorem Matrix3x3_inverse_of_shear :
  Matrix3x3.determinant sample_shear3 == 1 /\
  Matrix3x3.eq (Matrix3x3.inverse sample_shear3) sample_shear3 /\
  Matrix3x3.m (Matrix3x3.mul sample_shear3 (Matrix3x3.inverse sample_shear3)) 0 1
    == 2 /\
  ~ Matrix3x3.eq (Matrix3x3.mul sample_shear3 (Matrix3x3.inverse sample_shear3))
                 Matrix3x3.identity.
Proof.
  split; [vm_compute; reflexivity|].
  split; [intros i j Hi Hj; index_cases i; index_cases j; vm_compute; reflexivity|].
  split; [vm_compute; reflexivity|].
  intro H.
  assert (H01 := H 0%Z 1%Z ltac:(lia) ltac:(lia)).
  vm_compute in H01. discriminate H01.
Qed.

(** ** Conversion to [int] and [mod] *)

Lemma Qtrunc_nonneg (q : Q) : 0 <= q -> Qtrunc q = Qfloor q.
Proof.
  destruct q as [n d]. unfold Qle, Qtrunc, Qfloor. cbn. intro H.
  apply Z.quot_div_nonneg; lia.
Qed.

Lemma Qtrunc_nonpos (q : Q) : q <= 0 -> Qtrunc q = Qceiling q.
Proof.
  destruct q as [n d]. unfold Qle, Qtrunc, Qceiling, Qfloor. cbn. intro H.
  rewrite <- (Z.opp_involutive n) at 1.
  rewrite Z.quot_opp_l by lia.
  f_equal. apply Z.quot_div_nonneg; lia.
Qed.


(** The conversion to [int] is the truncation of the specification. *)
Lemma Qtrunc_truncation (q : Q) : Qtrunc q = truncation q.
Proof.
  unfold truncation. destruct (Qle_bool 0 q) eqn:E.
  - apply Qle_bool_iff in E. apply Qtrunc_nonneg. exact E.
  - apply Qle_bool_false in E. apply Qtrunc_nonpos. lra.
Qed.

Lemma in_int_fits (z : Z) : in_int z = true <-> fits_int z.
Proof.
  unfold in_int, fits_int. rewrite andb_true_iff, !Z.leb_le. reflexivity.
Qed.

Lemma static_cast_int_fits (q : Q) :
  fits_int (truncation q) -> static_cast_int q = Some (truncation q).
Proof.
  intro H. unfold static_cast_int. rewrite Qtrunc_truncation.
  apply in_int_fits in H. rewrite H. reflexivity.
Qed.

Lemma static_cast_int_undefined (q : Q) :
  ~ fits_int (truncation q) -> static_cast_int q = None.
Proof.
  intro H. unfold static_cast_int. rewrite Qtrunc_truncation.
  destruct (in_int (truncation q)) eqn:E; [|reflexivity].
  apply in_int_fits in E. contradiction.
Qed.

(** The integer part fits an [int] for the numbers strictly between
    [-2147483649] and [2147483648]. *)
Lemma fits_int_range (q : Q) :
  fits_int (truncation q) <-> - 2147483649 < q < 2147483648.
Proof.
  unfold fits_int, INT_MIN, INT_MAX, truncation.
  pose proof (Qfloor_le q) as F1. pose proof (Qlt_floor q) as F2.
  pose proof (Qle_ceiling q) as C1. pose proof (Qceiling_lt q) as C2.
  rewrite inject_Z_plus in F2. change (inject_Z 1) with 1 in F2.
  unfold Z.sub in C2. rewrite inject_Z_plus in C2.
  change (inject_Z (- (1))%Z) with (- (1)) in C2.
  destruct (Qle_bool 0 q) eqn:E.
  - apply Qle_bool_iff in E.
    assert (H0 : (0 <= Qfloor q)%Z)
      by (change 0%Z with (Qfloor 0); apply Qfloor_resp_le; exact E).
    split.
    + intros [_ Hhi]. rewrite Zle_Qle in Hhi.
      change (inject_Z 2147483647) with 2147483647 in Hhi. split; lra.
    + intros [_ Hhi]. split; [lia|].
      assert (H : (Qfloor q < 2147483648)%Z).
      { rewrite Zlt_Qlt. change (inject_Z 2147483648) with 2147483648. lra. }
      lia.
  - apply Qle_bool_false in E.
    assert (H0 : (Qceiling q <= 0)%Z)
      by (change 0%Z with (Qceiling 0); apply Qceiling_resp_le; lra).
    split.
    + intros [Hlo _]. rewrite Zle_Qle in Hlo.
      change (inject_Z (-2147483648)) with (-2147483648) in Hlo. split; lra.
    + intros [Hlo _]. split; [|lia].
      assert (H : (-2147483649 < Qceiling q)%Z).
      { rewrite Zlt_Qlt. change (inject_Z (-2147483649)) with (-2147483649). lra. }
      lia.
Qed.

Lemma int_add_fits (a b : Z) : fits_int (a + b) -> int_add a b = Some (a + b)%Z.
Proof.
  intro H. unfold int_add. apply in_int_fits in H. rewrite H. reflexivity.
Qed.





(** [mod(7, 2)] is [1/2], where the conventional remainder is [1]; the
    sign follows the quotient. *)
Example mod_values :
  returns (EngineMath.mod_ 7 2) (1 # 2) /\
  conventional_remainder 7 2 == 1 /\
  returns (EngineMath.mod_ (-7) 2) (- (1 # 2)) /\
  returns (EngineMath.mod_ 6 3) 0.
Proof.
  repeat match goal with |- _ /\ _ => split end; vm_compute; reflexivity.
Qed.

(** ** Counted loops *)

(** A counted loop runs while the counter is below the bound, and stops
    at the first counter value that is not. *)
Lemma trip_count_spec (lo hi step : Z) :
  (0 < step)%Z ->
  (forall k : nat, (k < trip_count lo hi step)%nat ->
                   (lo + Z.of_nat k * step < hi)%Z) /\
  (hi <= lo + Z.of_nat (trip_count lo hi step) * step)%Z.
Proof.
  intro Hs. unfold trip_count.
  set (q := ((hi - lo + step - 1) / step)%Z).
  assert (Hq : (q * step <= hi - lo + step - 1 < (q + 1) * step)%Z).
  { unfold q.
    pose proof (Z.div_mod (hi - lo + step - 1) step ltac:(lia)) as Hd.
    pose proof (Z.mod_pos_bound (hi - lo + step - 1) step Hs) as Hm.
    nia. }
  split.
  - intros k Hk.
    assert (Hkq : (Z.of_nat k < q)%Z) by lia.
    nia.
  - destruct (Z.le_gt_cases 0 q) as [Hq0 | Hq0].
    + rewrite Z2Nat.id by exact Hq0. nia.
    + assert (Hn : Z.to_nat q = 0%nat) by lia.
      rewrite Hn. change (Z.of_nat 0) with 0%Z. nia.
Qed.

Lemma for_loop_iter {S : Type} (n : nat) (i step : Z) (f : S -> S) (s : S) :
  for_loop n i step (fun _ => f) s = Nat.iter n f s.
Proof.
  revert i s. induction n as [|n IH]; intros i s; [reflexivity|].
  cbn [for_loop]. rewrite IH.
  symmetry. apply Nat.iter_succ_r.
Qed.

(** Round [k] of a counted loop sees the counter [lo + k * step]. *)
Lemma for_loop_counters_from {S : Type} (n j : nat) (lo step : Z)
    (body : Z -> S -> S) (s : S) :
  for_loop n (lo + Z.of_nat j * step)%Z step body s
  = fold_left (fun acc k => body (lo + Z.of_nat k * step)%Z acc) (seq j n) s.
Proof.
  revert j s. induction n as [|n IH]; intros j s; [reflexivity|].
  cbn [for_loop seq fold_left].
  replace (lo + Z.of_nat j * step + step)%Z
    with (lo + Z.of_nat (Datatypes.S j) * step)%Z by lia.
  apply IH.
Qed.

Lemma for_loop_counters {S : Type} (n : nat) (lo step : Z)
    (body : Z -> S -> S) (s : S) :
  for_loop n lo step body s
  = fold_left (fun acc k => body (lo + Z.of_nat k * step)%Z acc) (seq 0 n) s.
Proof.
  rewrite <- for_loop_counters_from. f_equal. lia.
Qed.

(** ** Square root *)

Section Newton.

Variable x : Q.
Hypothesis x_positive : 0 < x.

Lemma newton_step_positive (xi : Q) : 0 < xi -> 0 < newton_step x xi.
Proof.
  intro Hxi. unfold newton_step.
  assert (E : xi - (xi ^ 2 - x) / (2 * xi) == (xi * xi + x) / (2 * xi)).
  { field. lra. }
  rewrite E. apply Qlt_shift_div_l; nra.
Qed.

Lemma newton_iterates_positive (k : nat) :
  0 < Nat.iter k (newton_step x) (x / 2).
Proof.
  induction k as [|k IH].
  - cbn. apply Qlt_shift_div_l; lra.
  - cbn [Nat.iter]. apply newton_step_positive. exact IH.
Qed.

(** From the first step on the iterates are not below the root: their
    squares are at least [x]. *)
Lemma newton_step_above_root (xi : Q) :
  0 < xi -> x <= newton_step x xi * newton_step x xi.
Proof.
  intro Hxi. unfold newton_step.
  assert (E : (xi - (xi ^ 2 - x) / (2 * xi)) * (xi - (xi ^ 2 - x) / (2 * xi)) - x
              == ((xi * xi - x) / (2 * xi)) * ((xi * xi - x) / (2 * xi))).
  { field. lra. }
  assert (Hsq : 0 <= ((xi * xi - x) / (2 * xi)) * ((xi * xi - x) / (2 * xi)))
    by nra.
  lra.
Qed.

End Newton.

(** C6: [sqrt(x)] returns [0] for every [x <= 0]; for every [x > 0] it
    returns the outcome of exactly 10 Newton-Raphson steps
    [xi := xi - (xi^2 - x)/(2*xi)] from the seed [x/2].  It is a total
    function, and every iterate is positive, so that no step divides by
    zero. *)
Theorem sqrt_is_ten_newton_steps (x : Q) :
  (x <= 0 -> EngineMath.sqrt x = 0) /\
  (0 < x ->
   EngineMath.sqrt x = Nat.iter 10 (newton_step x) (x / 2) /\
   (forall k : nat, 0 < Nat.iter k (newton_step x) (x / 2)) /\
   0 < EngineMath.sqrt x).
Proof.
  split.
  - intro Hx. unfold EngineMath.sqrt.
    apply Qle_bool_iff in Hx. rewrite Hx. reflexivity.
  - intro Hx.
    assert (E : EngineMath.sqrt x = Nat.iter 10 (newton_step x) (x / 2)).
    { unfold EngineMath.sqrt.
      pose proof Hx as Hb. apply Qle_bool_false in Hb. rewrite Hb.
      unfold for_lt.
      change (trip_count 0 10 1) with 10%nat.
      apply (for_loop_iter 10 0 1 (newton_step x) (x / 2)). }
    split; [exact E|].
    split; [intro k; apply newton_iterates_positive; exact Hx|].
    rewrite E. apply newton_iterates_positive. exact Hx.
Qed.

Lemma sqrt_is_ten_newton_steps_witness :
  EngineMath.sqrt 0 = 0 /\
  EngineMath.sqrt (-1) = 0 /\
  EngineMath.sqrt 2 = Nat.iter 10 (newton_step 2) (2 / 2).
Proof.
  split; [|split].
  - apply (proj1 (sqrt_is_ten_newton_steps 0)). discriminate.
  - apply (proj1 (sqrt_is_ten_newton_steps (-1))). discriminate.
  - apply (proj2 (sqrt_is_ten_newton_steps 2)). reflexivity.
Defined.

(** ** Power *)

Lemma Qpower_succ_nonneg (a : Q) (n : Z) :
  (0 <= n)%Z -> a ^ (n + 1) == a ^ n * a.
Proof.
  intro Hn. rewrite Qpower_plus' by lia.
  rewrite Qpower_1_r. reflexivity.
Qed.

(** An integer counter is below a scalar exactly when it is below the
    scalar rounded up. *)
Lemma lt_Qceiling (i : Z) (e : Q) : inject_Z i < e <-> (i < Qceiling e)%Z.
Proof.
  split; intro H.
  - apply Z.lt_nge. intro Hc. rewrite Zle_Qle in Hc.
    pose proof (Qle_ceiling e). lra.
  - pose proof (Qceiling_lt e) as Hl.
    assert (Hi : (i <= Qceiling e - 1)%Z) by lia.
    rewrite Zle_Qle in Hi. lra.
Qed.

Lemma returns_Qeq (o : option Q) (v v' : Q) :
  v == v' -> returns o v -> returns o v'.
Proof.
  intros E H. destruct o as [r|]; [|exact H].
  cbn in *. rewrite H. exact E.
Qed.

(** The conversion agrees with that of [SpecFloat], here at counters on
    both sides of [2^24], at ties, and at the ends of the range of
    [int]. *)
Example float_of_int_values :
  Forall (fun i => returns (Binary32.value (Binary32.of_int i)) (float_of_int i))
         [0; 1; -5; 16777215; 16777216; 16777217; 16777218; 16777219;
          16777220; -16777217; -16777219; 33554434; 33554438; 1000000007;
          2147483583; 2147483584; INT_MAX; INT_MIN]%Z /\
  float_of_int 16777217 == 16777216 /\
  float_of_int 16777219 == 16777220 /\
  float_of_int INT_MAX == 2147483648.
Proof.
  split; [repeat constructor; vm_compute; reflexivity|].
  repeat split; vm_compute; reflexivity.
Qed.

(** An [int] of magnitude up to [2^24] converts to [float] without
    rounding. *)
Lemma float_of_int_exact (i : Z) :
  (Z.abs i <= 16777216)%Z -> float_of_int i = inject_Z i.
Proof.
  intro Hi.
  destruct (Z.eq_dec (Z.abs i) 16777216) as [E | E].
  - destruct (Z.abs_eq_or_opp i) as [A | A]; rewrite A in E.
    + subst i. reflexivity.
    + assert (Ei : i = (-16777216)%Z) by lia. subst i. reflexivity.
  - unfold float_of_int.
    assert (Hk : Z.max 0 (Z.log2 (Z.abs i) - 23) = 0%Z).
    { destruct (Z.eq_dec (Z.abs i) 0) as [E0 | E0].
      - rewrite E0. reflexivity.
      - assert (Hl : (Z.log2 (Z.abs i) < 24)%Z).
        { apply Z.log2_lt_pow2; [lia|].
          change (2 ^ 24)%Z with 16777216%Z. lia. }
        lia. }
    rewrite Hk. change (2 ^ 0)%Z with 1%Z.
    rewrite Z.mod_1_r, Z.div_1_r. cbn [Z.mul Z.compare].
    f_equal. rewrite Z.mul_1_r. rewrite Z.mul_comm. apply Z.abs_sgn.
Qed.

(** The loop of [power] multiplies once for every counter from [i] up to,
    and excluding, the first counter [n] whose [float] is not below the
    exponent. *)
Lemma power_loop_counts (base exponent : Q) (n i : Z) (result : Q) :
  (0 <= i <= n)%Z -> (n <= INT_MAX)%Z ->
  (forall j : Z, (0 <= j < n)%Z -> float_of_int j < exponent) ->
  exponent <= float_of_int n ->
  returns (EngineMath.power_loop base exponent i result)
          (result * base ^ (n - i)).
Proof.
  intros Hi Hn Hbelow Hstop. revert n Hn Hbelow Hstop Hi.
  apply (EngineMath.power_loop_elim
           (fun base exponent i result out =>
              forall n : Z,
                (n <= INT_MAX)%Z ->
                (forall j : Z, (0 <= j < n)%Z -> float_of_int j < exponent) ->
                exponent <= float_of_int n ->
                (0 <= i <= n)%Z ->
                returns out (result * base ^ (n - i)))); clear.
  - intros base exponent i Hge result _ n Hn Hbelow Hstop Hi.
    assert (E : i = n).
    { destruct (Z.eq_dec i n) as [E | E]; [exact E|].
      exfalso. assert (Hj : (0 <= i < n)%Z) by lia.
      specialize (Hbelow i Hj). lra. }
    subst i. rewrite Z.sub_diag. cbn. ring.
  - intros base exponent i Hmax Hlt result IH _ _ n Hn Hbelow Hstop Hi.
    assert (Hin : (i < n)%Z).
    { destruct (Z.eq_dec i n) as [E | E]; [|lia].
      subst i. exfalso. lra. }
    apply (returns_Qeq _ (result * base * base ^ (n - (i + 1)))).
    + replace (n - i)%Z with (n - (i + 1) + 1)%Z by lia.
      rewrite Qpower_succ_nonneg by lia. ring.
    + apply IH; [exact Hn | exact Hbelow | exact Hstop | lia].
  - intros base exponent i Hmax Hlt result _ _ n Hn Hbelow Hstop Hi.
    exfalso.
    assert (Hin : (i < n)%Z).
    { destruct (Z.eq_dec i n) as [E | E]; [|lia].
      subst i. exfalso. lra. }
    lia.
Qed.

(** For an exponent up to [2^24] the counters convert without rounding,
    and the loop leaves at the exponent rounded up. *)
Lemma power_loop_spec (base exponent : Q) :
  exponent <= 16777216 ->
  returns (EngineMath.power base exponent)
          (base ^ (Z.max 0 (Qceiling exponent))).
Proof.
  intro He. unfold EngineMath.power.
  set (n := Z.max 0 (Qceiling exponent)).
  assert (Hc : (Qceiling exponent <= 16777216)%Z).
  { apply Z.le_ngt. intro Hc.
    assert (H : (16777216 < Qceiling exponent)%Z) by lia.
    apply lt_Qceiling in H.
    change (inject_Z 16777216) with 16777216 in H. lra. }
  assert (Hn : (0 <= n <= 16777216)%Z) by (unfold n; lia).
  apply (returns_Qeq _ (1 * base ^ (n - 0))).
  { rewrite Z.sub_0_r. apply Qmult_1_l. }
  apply power_loop_counts.
  - lia.
  - unfold INT_MAX. lia.
  - intros j Hj. rewrite float_of_int_exact by lia.
    apply lt_Qceiling. unfold n in Hj. lia.
  - rewrite float_of_int_exact by lia.
    pose proof (Qle_ceiling exponent) as Hl.
    assert (Hle : inject_Z (Qceiling exponent) <= inject_Z n)
      by (rewrite <- Zle_Qle; unfold n; lia).
    lra.
Qed.

(** The product that [n] rounds of the loop compute is the power. *)
Lemma iterated_product (base : Q) (n : nat) :
  Nat.iter n (fun result => result * base) 1 == base ^ Z.of_nat n.
Proof.
  induction n as [|n IH]; [reflexivity|].
  rewrite Nat.iter_succ, Nat2Z.inj_succ. unfold Z.succ.
  rewrite Qpower_succ_nonneg by lia.
  apply Qmult_comp; [exact IH | reflexivity].
Qed.

(** C3, as amended: for every base and every non-negative exponent up to
    [2^24 = 16777216], [power(base, exponent)] multiplies once for every
    integer counter below the exponent, that is [ceil(exponent)] times,
    and returns the product, [base ^ ceil(exponent)].  For an
    integer-valued exponent this is [base ^ floor(exponent)]; for any
    other it is one multiplication more,
    [base ^ (floor(exponent) + 1)]. *)
Theorem power_multiplies_ceiling_times (base exponent : Q) :
  0 <= exponent -> exponent <= 16777216 ->
  returns (EngineMath.power base exponent)
          (Nat.iter (Z.to_nat (Qceiling exponent))
                    (fun result => result * base) 1) /\
  returns (EngineMath.power base exponent) (base ^ Qceiling exponent) /\
  (inject_Z (Qfloor exponent) == exponent ->
   returns (EngineMath.power base exponent) (base ^ Qfloor exponent)) /\
  (~ inject_Z (Qfloor exponent) == exponent ->
   returns (EngineMath.power base exponent) (base ^ (Qfloor exponent + 1))).
Proof.
  intros He Hmax.
  assert (Hc : (0 <= Qceiling exponent)%Z).
  { rewrite Zle_Qle. pose proof (Qle_ceiling exponent).
    change (inject_Z 0) with 0. lra. }
  assert (E : returns (EngineMath.power base exponent)
                      (base ^ Qceiling exponent)).
  { pose proof (power_loop_spec base exponent Hmax) as H.
    replace (Z.max 0 (Qceiling exponent)) with (Qceiling exponent) in H by lia.
    exact H. }
  split.
  { apply (returns_Qeq _ (base ^ Qceiling exponent)); [|exact E].
    rewrite iterated_product. rewrite Z2Nat.id by exact Hc. reflexivity. }
  split; [exact E|]. split; intro Hint.
  - apply (returns_Qeq _ (base ^ Qceiling exponent)); [|exact E].
    rewrite <- Hint at 1. rewrite Qceiling_Z. reflexivity.
  - apply (returns_Qeq _ (base ^ Qceiling exponent)); [|exact E].
    assert (Hf : (Qceiling exponent = Qfloor exponent + 1)%Z).
    { pose proof (Qfloor_le exponent) as H1.
      pose proof (Qlt_floor exponent) as H2.
      pose proof (Qle_ceiling exponent) as H3.
      pose proof (Qceiling_lt exponent) as H4.
      assert (Hlt : inject_Z (Qfloor exponent) < exponent).
      { apply Qle_lteq in H1. destruct H1 as [H1 | H1]; [exact H1 | contradiction]. }
      assert (Ha : (Qfloor exponent < Qceiling exponent)%Z) by (rewrite Zlt_Qlt; lra).
      assert (Hb : (Qceiling exponent - 1 < Qfloor exponent + 1)%Z) by (rewrite Zlt_Qlt; lra).
      lia. }
    rewrite Hf. reflexivity.
Qed.

Lemma power_multiplies_ceiling_times_witness :
  returns (EngineMath.power 2 (5 # 2)) (2 ^ Qceiling (5 # 2)) /\
  returns (EngineMath.power 3 4) (3 ^ Qfloor 4) /\
  returns (EngineMath.power (1 # 2) 100) ((1 # 2) ^ Qceiling 100).
Proof.
  split; [|split].
  - refine (proj1 (proj2 (power_multiplies_ceiling_times 2 (5 # 2) _ _)));
      discriminate.
  - refine (proj1 (proj2 (proj2 (power_multiplies_ceiling_times 3 4 _ _))) _).
    + discriminate.
    + discriminate.
    + reflexivity.
  - refine (proj1 (proj2 (power_multiplies_ceiling_times (1 # 2) 100 _ _)));
      discriminate.
Defined.

(** Beyond [2^24] the counter rounds when it converts to [float]:
    [16777219] converts to [16777220], so that for the exponent
    [16777220] the loop leaves after [16777219] rounds. *)
Lemma power_leaves_a_round_early (base : Q) :
  returns (EngineMath.power base 16777220) (base ^ 16777219).
Proof.
  unfold EngineMath.power.
  apply (returns_Qeq _ (1 * base ^ (16777219 - 0))).
  { rewrite Z.sub_0_r. apply Qmult_1_l. }
  apply power_loop_counts.
  - lia.
  - unfold INT_MAX. lia.
  - intros j Hj.
    destruct (Z_le_gt_dec j 16777216) as [Hs | Hl].
    + rewrite float_of_int_exact by lia.
      change 16777220 with (inject_Z 16777220). rewrite <- Zlt_Qlt. lia.
    + assert (E : j = 16777217%Z \/ j = 16777218%Z) by lia.
      destruct E as [E | E]; subst j; vm_compute; reflexivity.
  - vm_compute. discriminate.
Qed.

(** On [float] every product of the loop is rounded: [power(0.1f, 2)]
    is [10737419 * 2^-30], which is not the square of the value of
    [0.1f], [13421773 * 2^-27]; and [power(2, 2.5)] is [8] there too. *)
Lemma Binary32_power_rounds :
  Binary32.power 2 (S754_finite false 13421773 (-27)) (Binary32.of_int 2)
  = Some (S754_finite false 10737419 (-30)) /\
  returns (Binary32.value (S754_finite false 13421773 (-27)))
          (13421773 # 134217728) /\
  returns (Binary32.value (S754_finite false 10737419 (-30)))
          (10737419 # 1073741824) /\
  returns (EngineMath.power (13421773 # 134217728) 2)
          ((13421773 # 134217728) ^ 2) /\
  ~ 10737419 # 1073741824 == (13421773 # 134217728) ^ 2 /\
  Binary32.power 3 (Binary32.of_int 2) (S754_finite false 10485760 (-22))
  = Some (Binary32.of_int 8).
Proof.
  repeat match goal with |- _ /\ _ => split end;
    try (vm_compute; reflexivity).
  intro H. vm_compute in H. discriminate H.
Qed.

(** C3, as stated, fails at [power(2, 2.5)]: three counters, [0], [1] and
    [2], are below [2.5], so the result is [8], not [2 ^ 2 = 4].  And the
    count is [ceil(exponent)] only while the counter converts to [float]
    without rounding: [power(-1, 16777220)] multiplies [16777219] times
    and returns [-1], not [(-1) ^ 16777220 = 1].  And the product is the
    power in exact arithmetic only: on [float], [power(0.1f, 2)] is not
    the square of the value of [0.1f]. *)
Lemma power_truncated_count_counterexample :
  (returns (EngineMath.power 2 (5 # 2)) 8 /\
   2 ^ truncation (5 # 2) == 4 /\
   ~ returns (EngineMath.power 2 (5 # 2)) (2 ^ truncation (5 # 2)) /\
   ~ returns (EngineMath.power 2 (5 # 2)) (2 ^ Qfloor (5 # 2))) /\
  (returns (EngineMath.power (-1) 16777220) (-1) /\
   (-1) ^ Qfloor 16777220 == 1 /\
   (-1) ^ Qceiling 16777220 == 1 /\
   ~ returns (EngineMath.power (-1) 16777220) ((-1) ^ Qfloor 16777220) /\
   ~ returns (EngineMath.power (-1) 16777220) ((-1) ^ Qceiling 16777220)) /\
  (Binary32.power 2 (S754_finite false 13421773 (-27)) (Binary32.of_int 2)
   = Some (S754_finite false 10737419 (-30)) /\
   returns (Binary32.value (S754_finite false 13421773 (-27)))
           (13421773 # 134217728) /\
   returns (Binary32.value (S754_finite false 10737419 (-30)))
           (10737419 # 1073741824) /\
   ~ 10737419 # 1073741824 == (13421773 # 134217728) ^ 2).
Proof.
  split; [|split; [|repeat split; apply Binary32_power_rounds]].
  - split; [vm_compute; reflexivity|].
    split; [vm_compute; reflexivity|].
    split; intro H; vm_compute in H; discriminate H.
  - assert (E : returns (EngineMath.power (-1) 16777220) (-1)).
    { apply (returns_Qeq _ ((-1) ^ 16777219)); [vm_compute; reflexivity|].
      apply power_leaves_a_round_early. }
    assert (F : (-1) ^ Qfloor 16777220 == 1) by (vm_compute; reflexivity).
    assert (C : (-1) ^ Qceiling 16777220 == 1) by (vm_compute; reflexivity).
    split; [exact E|]. split; [exact F|]. split; [exact C|].
    destruct (EngineMath.power (-1) 16777220) as [r|]; [|contradiction].
    cbn [returns] in *.
    split; intro H; rewrite E in H.
    + rewrite F in H. discriminate H.
    + rewrite C in H. discriminate H.
Qed.

(** A negative exponent leaves the loop at once: the result is [1]. *)
Lemma power_negative_exponent (base exponent : Q) :
  exponent <= 0 -> returns (EngineMath.power base exponent) 1.
Proof.
  intro He.
  assert (Hmax : exponent <= 16777216) by lra.
  pose proof (power_loop_spec base exponent Hmax) as H.
  assert (Hc : (Qceiling exponent <= 0)%Z).
  { apply Z.le_ngt. intro Hc. apply lt_Qceiling in Hc.
    change (inject_Z 0) with 0 in Hc. lra. }
  replace (Z.max 0 (Qceiling exponent)) with 0%Z in H by lia.
  exact H.
Qed.

(** ** Cosine *)

Lemma cos_TWO_PI_is_twice_cos_PI :
  EngineMath.cos_TWO_PI == 2 * EngineMath.cos_PI.
Proof. reflexivity. Qed.

(** The first [while] loop of [cos] subtracts [6.28318530] some number
    [n] of times and leaves a value that is at most [3.14159265]; it
    subtracts at all only above that bound, and then stops above
    [-3.14159265]. *)
Lemma cos_reduce_down_spec (radians : Q) :
  exists n : nat,
    EngineMath.cos_reduce_down radians
      == radians - inject_Z (Z.of_nat n) * EngineMath.cos_TWO_PI /\
    EngineMath.cos_reduce_down radians <= EngineMath.cos_PI /\
    ((radians <= EngineMath.cos_PI /\ n = 0%nat /\
      EngineMath.cos_reduce_down radians = radians) \/
     (EngineMath.cos_PI < radians /\ (0 < n)%nat /\
      - EngineMath.cos_PI < EngineMath.cos_reduce_down radians)).
Proof.
  apply (EngineMath.cos_reduce_down_elim
           (fun radians out =>
              exists n : nat,
                out == radians - inject_Z (Z.of_nat n) * EngineMath.cos_TWO_PI /\
                out <= EngineMath.cos_PI /\
                ((radians <= EngineMath.cos_PI /\ n = 0%nat /\ out = radians) \/
                 (EngineMath.cos_PI < radians /\ (0 < n)%nat /\
                  - EngineMath.cos_PI < out)))).
  - clear. intros radians Hgt [n [E [Hle Hcase]]] _.
    exists (Datatypes.S n).
    split; [|split; [exact Hle|right]].
    + rewrite E, Nat2Z.inj_succ. unfold Z.succ.
      rewrite inject_Z_plus. change (inject_Z 1) with 1. ring.
    + split; [exact Hgt|]. split; [lia|].
      destruct Hcase as [[_ [_ ->]] | [_ [_ H]]]; [|exact H].
      unfold EngineMath.cos_PI, EngineMath.cos_TWO_PI in *. lra.
  - clear. intros radians Hle _.
    exists 0%nat. split; [cbn; ring|]. split; [exact Hle|].
    left. repeat split. exact Hle.
Qed.

(** The second [while] loop of [cos] adds [6.28318530] some number [n] of
    times and leaves a value that is at least [-3.14159265]; it adds at
    all only below that bound, and then stops below [3.14159265]. *)
Lemma cos_reduce_up_spec (radians : Q) :
  exists n : nat,
    EngineMath.cos_reduce_up radians
      == radians + inject_Z (Z.of_nat n) * EngineMath.cos_TWO_PI /\
    - EngineMath.cos_PI <= EngineMath.cos_reduce_up radians /\
    ((- EngineMath.cos_PI <= radians /\ n = 0%nat /\
      EngineMath.cos_reduce_up radians = radians) \/
     (radians < - EngineMath.cos_PI /\ (0 < n)%nat /\
      EngineMath.cos_reduce_up radians < EngineMath.cos_PI)).
Proof.
  apply (EngineMath.cos_reduce_up_elim
           (fun radians out =>
              exists n : nat,
                out == radians + inject_Z (Z.of_nat n) * EngineMath.cos_TWO_PI /\
                - EngineMath.cos_PI <= out /\
                ((- EngineMath.cos_PI <= radians /\ n = 0%nat /\ out = radians) \/
                 (radians < - EngineMath.cos_PI /\ (0 < n)%nat /\
                  out < EngineMath.cos_PI)))).
  - clear. intros radians Hlt [n [E [Hle Hcase]]] _.
    exists (Datatypes.S n).
    split; [|split; [exact Hle|right]].
    + rewrite E, Nat2Z.inj_succ. unfold Z.succ.
      rewrite inject_Z_plus. change (inject_Z 1) with 1. ring.
    + split; [exact Hlt|]. split; [lia|].
      destruct Hcase as [[_ [_ ->]] | [_ [_ H]]]; [|exact H].
      unfold EngineMath.cos_PI, EngineMath.cos_TWO_PI in *. lra.
  - clear. intros radians Hle _.
    exists 0%nat. split; [cbn; ring|]. split; [exact Hle|].
    left. repeat split. exact Hle.
Qed.

(** The series loop of [cos] evaluates the Taylor polynomial of the cosine
    of degree 10. *)
Lemma cos_series_is_taylor (r : Q) :
  EngineMath.cos_series r == peval (taylor_cos 10) r.
Proof.
  cbv -[Qplus Qmult Qminus Qdiv Qopp Qinv Qeq].
  field.
Qed.

(** The Taylor polynomial of degree 10, coefficient by coefficient. *)
Example taylor_cos_10_coefficients :
  Forall2 Qeq (taylor_cos 10)
    [1; 0; - (1 # 2); 0; 1 # 24; 0; - (1 # 720); 0; 1 # 40320; 0;
     - (1 # 3628800)].
Proof.
  repeat constructor; vm_compute; reflexivity.
Qed.

Lemma taylor_cos_10_shape :
  has_degree (taylor_cos 10) 10 /\ nonzero_terms (taylor_cos 10) = 6%nat.
Proof.
  split; [split|].
  - reflexivity.
  - intro H. vm_compute in H. discriminate H.
  - vm_compute. reflexivity.
Qed.

(** Inside [[-3.14159265, 3.14159265]] neither [while] loop runs. *)
Lemma cos_in_range (r : Q) :
  - EngineMath.cos_PI <= r <= EngineMath.cos_PI ->
  EngineMath.cos r = EngineMath.cos_series r.
Proof.
  intros [Hlo Hhi]. unfold EngineMath.cos.
  destruct (cos_reduce_down_spec r) as [n [_ [_ [[_ [_ E]] | [Hgt _]]]]];
    [|exfalso; apply (Qlt_not_le _ _ Hgt Hhi)].
  rewrite E.
  destruct (cos_reduce_up_spec r) as [n' [_ [_ [[_ [_ E']] | [Hlt _]]]]];
    [|exfalso; apply (Qlt_not_le _ _ Hlt Hlo)].
  rewrite E'. reflexivity.
Qed.

(** C2, as amended: in exact arithmetic, [cos(angle)] first brings the
    angle into [[-pi, pi]] by subtracting [2 pi] repeatedly (angles above
    the interval) or adding it repeatedly (angles below), where [pi] and
    [2 pi] are the values of the literals [3.14159265f] and
    [6.28318530f], and then returns the value at the reduced angle of the
    Taylor polynomial of the cosine of degree 10, which has exactly 6
    nonzero terms: the constant [1] and the five terms the loop adds. *)
Theorem cos_reduces_then_sums_taylor (angle : Q) :
  exists (down up : nat) (r : Q),
    r == angle - inject_Z (Z.of_nat down) * EngineMath.cos_TWO_PI
         + inject_Z (Z.of_nat up) * EngineMath.cos_TWO_PI /\
    - EngineMath.cos_PI <= r <= EngineMath.cos_PI /\
    ((EngineMath.cos_PI < angle /\ (0 < down)%nat /\ up = 0%nat /\
      - EngineMath.cos_PI < r) \/
     (angle < - EngineMath.cos_PI /\ down = 0%nat /\ (0 < up)%nat /\
      r < EngineMath.cos_PI) \/
     (- EngineMath.cos_PI <= angle <= EngineMath.cos_PI /\
      down = 0%nat /\ up = 0%nat /\ r = angle)) /\
    EngineMath.cos angle == peval (taylor_cos 10) r /\
    has_degree (taylor_cos 10) 10 /\
    nonzero_terms (taylor_cos 10) = 6%nat.
Proof.
  destruct (cos_reduce_down_spec angle) as [n [E1 [Hle1 Hcase1]]].
  destruct (cos_reduce_up_spec (EngineMath.cos_reduce_down angle))
    as [n' [E2 [Hle2 Hcase2]]].
  exists n, n', (EngineMath.cos_reduce_up (EngineMath.cos_reduce_down angle)).
  set (r1 := EngineMath.cos_reduce_down angle) in *.
  set (r := EngineMath.cos_reduce_up r1) in *.
  split; [rewrite E2, E1; ring|].
  assert (Hshape := taylor_cos_10_shape).
  assert (Hcos : EngineMath.cos angle == peval (taylor_cos 10) r)
    by apply cos_series_is_taylor.
  destruct Hcase1 as [[Ha [Hn Er1]] | [Ha [Hn Hr1]]].
  - destruct Hcase2 as [[Hb [Hn' Er]] | [Hb [Hn' Hr]]].
    + split; [split; [exact Hle2 | rewrite Er; exact Hle1]|].
      split; [|split; [exact Hcos | exact Hshape]].
      right. right. rewrite Er1 in Hb.
      repeat split; try assumption.
      rewrite Er. exact Er1.
    + split; [split; [exact Hle2 | apply Qlt_le_weak; exact Hr]|].
      split; [|split; [exact Hcos | exact Hshape]].
      right. left. rewrite Er1 in Hb.
      repeat split; assumption.
  - destruct Hcase2 as [[Hb [Hn' Er]] | [Hb [Hn' Hr]]].
    + split; [split; [exact Hle2 | rewrite Er; exact Hle1]|].
      split; [|split; [exact Hcos | exact Hshape]].
      left. repeat split; try assumption.
      rewrite Er. exact Hr1.
    + exfalso. apply (Qlt_irrefl (- EngineMath.cos_PI)).
      eapply Qlt_trans; [exact Hr1 | exact Hb].
Qed.

(** ** No polynomial of degree 10 with five terms computes [cos] *)

Lemma nonzero_terms_Qeq (cs ds : list Q) :
  Forall2 Qeq cs ds -> nonzero_terms cs = nonzero_terms ds.
Proof.
  unfold nonzero_terms.
  induction 1 as [|c d cs ds Hcd _ IH]; [reflexivity|].
  cbn [filter].
  assert (Eb : Qeq_bool c 0 = Qeq_bool d 0).
  { destruct (Qeq_bool d 0) eqn:Ed.
    - apply Qeq_bool_iff. apply Qeq_bool_iff in Ed. rewrite Hcd. exact Ed.
    - apply Qeq_bool_false. apply Qeq_bool_false in Ed. rewrite Hcd. exact Ed. }
  rewrite Eb. destruct (Qeq_bool d 0); cbn [negb length]; congruence.
Qed.

(** A polynomial with coefficients up to [x^10] that agrees with [cos] on
    [[-3.14159265, 3.14159265]] is the Taylor polynomial of degree 10:
    agreement at eleven points fixes the eleven coefficients. *)
Lemma cos_polynomial_unique (c0 c1 c2 c3 c4 c5 c6 c7 c8 c9 c10 : Q) :
  (forall r, - EngineMath.cos_PI <= r <= EngineMath.cos_PI ->
     EngineMath.cos r == peval [c0; c1; c2; c3; c4; c5; c6; c7; c8; c9; c10] r) ->
  Forall2 Qeq [c0; c1; c2; c3; c4; c5; c6; c7; c8; c9; c10] (taylor_cos 10).
Proof.
  intro H.
  assert (P : forall r,
             Qle_bool (- EngineMath.cos_PI) r && Qle_bool r EngineMath.cos_PI = true ->
             peval (taylor_cos 10) r
             == peval [c0; c1; c2; c3; c4; c5; c6; c7; c8; c9; c10] r).
  { intros r Hr. apply andb_true_iff in Hr. destruct Hr as [A B].
    apply Qle_bool_iff in A, B.
    rewrite <- cos_series_is_taylor, <- (cos_in_range r (conj A B)).
    apply H. split; assumption. }
  clear H.
  pose proof (P 0 eq_refl) as H0.
  pose proof (P (1 # 2) eq_refl) as H1.
  pose proof (P (- (1 # 2)) eq_refl) as H2.
  pose proof (P 1 eq_refl) as H3.
  pose proof (P (- (1)) eq_refl) as H4.
  pose proof (P (3 # 2) eq_refl) as H5.
  pose proof (P (- (3 # 2)) eq_refl) as H6.
  pose proof (P 2 eq_refl) as H7.
  pose proof (P (- (2)) eq_refl) as H8.
  pose proof (P 3 eq_refl) as H9.
  pose proof (P (- (3)) eq_refl) as H10.
  clear P.
  cbv -[Qplus Qmult Qminus Qdiv Qopp Qinv Qeq]
    in H0, H1, H2, H3, H4, H5, H6, H7, H8, H9, H10.
  cbv -[Qplus Qmult Qminus Qdiv Qopp Qinv Qeq].
  repeat constructor; lra.
Qed.

(** ** Cosine in binary32 arithmetic *)

(** The constants of the two readings agree: the rationals are the
    values of the [float]s, and these are the [float]s next to the
    decimal literals, which they miss by less than half a unit in the
    last place ([2^-23] and [2^-22]). *)
Lemma cos_literals :
  returns (Binary32.value Binary32.cos_PI) EngineMath.cos_PI /\
  returns (Binary32.value Binary32.cos_TWO_PI) EngineMath.cos_TWO_PI /\
  Qabs (EngineMath.cos_PI - 3.14159265) < 1 # 8388608 /\
  Qabs (EngineMath.cos_TWO_PI - 6.28318530) < 1 # 4194304.
Proof.
  repeat match goal with |- _ /\ _ => split end; vm_compute; reflexivity.
Qed.

(** At [2^28] a [float] has a unit in the last place of [32], so that
    subtracting [6.2831855] rounds back to [2^28]: the first loop of
    [cos] never leaves. *)
Lemma Binary32_cos_never_returns (fuel : nat) :
  Binary32.cos fuel (Binary32.of_int 268435456) = None.
Proof.
  assert (H : forall fuel,
             Binary32.cos_reduce_down fuel (Binary32.of_int 268435456) = None).
  { clear. induction fuel as [|fuel IH]; [reflexivity|].
    cbn [Binary32.cos_reduce_down].
    replace (SFltb Binary32.cos_PI (Binary32.of_int 268435456))
      with true by (vm_compute; reflexivity).
    replace (Binary32.sub (Binary32.of_int 268435456) Binary32.cos_TWO_PI)
      with (Binary32.of_int 268435456) by (vm_compute; reflexivity).
    exact IH. }
  unfold Binary32.cos. rewrite H. reflexivity.
Qed.

(** At the angle [1/2], which needs no reduction, [cos] on [float]
    returns [14723393 * 2^-24], one unit in the last place above the
    [float] next to the value of the polynomial. *)
Lemma Binary32_cos_half :
  Binary32.cos 0 (S754_finite false 8388608 (-24))
  = Some (S754_finite false 14723393 (-24)) /\
  returns (Binary32.value (S754_finite false 8388608 (-24))) (1 # 2) /\
  returns (Binary32.value (S754_finite false 14723393 (-24)))
          (14723393 # 16777216) /\
  EngineMath.cos (1 # 2) == 3261001319 # 3715891200 /\
  1 # 33554432 < (14723393 # 16777216) - EngineMath.cos (1 # 2).
Proof.
  repeat match goal with |- _ /\ _ => split end; vm_compute; reflexivity.
Qed.

(** C2, as stated, fails.  No polynomial of degree 10 with exactly 5
    nonzero terms gives the value of [cos] on [[-pi, pi]], where the
    reduced angle is the angle itself: the polynomial that the code
    evaluates has 6 nonzero terms, and it differs at the angle [1] from
    the Taylor polynomial with 5 nonzero terms (degree 8).  The bound of
    the reduction is the value of the literal [3.14159265f], which is
    above [3.1415926536] and so above the number pi: the angle
    [3.14159274f] is left as it is.  And the claim describes the
    program in exact arithmetic only: on [float] the reduction of the
    angle [2^28] never ends, and at the angle [1/2] the result is not the
    value of the polynomial, nor the [float] next to it. *)
Lemma cos_five_terms_counterexample :
  ((~ exists cs : list Q,
        has_degree cs 10 /\ nonzero_terms cs = 5%nat /\
        forall r, - EngineMath.cos_PI <= r <= EngineMath.cos_PI ->
                  EngineMath.cos r == peval cs r) /\
   nonzero_terms (taylor_cos 8) = 5%nat /\
   ~ EngineMath.cos 1 == peval (taylor_cos 8) 1) /\
  (3.1415926536 < EngineMath.cos_PI /\
   EngineMath.cos_reduce_up (EngineMath.cos_reduce_down EngineMath.cos_PI)
   = EngineMath.cos_PI) /\
  (forall fuel : nat,
      Binary32.cos fuel (Binary32.of_int 268435456) = None) /\
  (Binary32.cos 0 (S754_finite false 8388608 (-24))
   = Some (S754_finite false 14723393 (-24)) /\
   1 # 33554432 < (14723393 # 16777216) - EngineMath.cos (1 # 2)).
Proof.
  split; [split; [|split] | split; [split | split; [|split]]].
  - intros [cs [[Hlen _] [H5 Hcos]]].
    do 11 (destruct cs as [|? cs]; [discriminate Hlen|]).
    destruct cs; [|discriminate Hlen].
    apply cos_polynomial_unique in Hcos.
    apply nonzero_terms_Qeq in Hcos.
    rewrite H5 in Hcos.
    rewrite (proj2 taylor_cos_10_shape) in Hcos. discriminate Hcos.
  - vm_compute. reflexivity.
  - intro H. vm_compute in H. discriminate H.
  - reflexivity.
  - vm_compute. reflexivity.
  - exact Binary32_cos_never_returns.
  - apply Binary32_cos_half.
  - apply Binary32_cos_half.
Qed.

(** * Further properties of the kernel *)

(** ** Accuracy of the square root *)

Section NewtonAccuracy.

Variable x : Q.
Hypothesis x_positive : 0 < x.

(** The error of the square after a step, from the error before it. *)
Lemma newton_step_error (xi : Q) :
  0 < xi ->
  newton_step x xi * newton_step x xi - x
  == ((xi * xi - x) * (xi * xi - x)) / (4 * (xi * xi)).
Proof.
  intro Hxi. unfold newton_step. field. lra.
Qed.

Lemma newton_step_error_quarters (xi : Q) :
  0 < xi -> 0 <= xi * xi - x ->
  0 <= newton_step x xi * newton_step x xi - x <= (xi * xi - x) / 4.
Proof.
  intros Hxi He.
  rewrite (newton_step_error xi Hxi).
  set (e := xi * xi - x) in *.
  assert (Hsq : 0 < xi * xi) by nra.
  split.
  - apply Qle_shift_div_l; [lra | nra].
  - apply Qle_shift_div_r; [lra|].
    assert (Hex : e <= xi * xi) by (unfold e; lra).
    assert (E : e / 4 * (4 * (xi * xi)) == e * (xi * xi)) by field.
    rewrite E. nra.
Qed.

Lemma newton_first_error :
  newton_step x (x / 2) * newton_step x (x / 2) - x
  == (x / 4 - 1) * (x / 4 - 1).
Proof.
  unfold newton_step. field. lra.
Qed.

Lemma newton_iterates_error (k : nat) :
  0 <= Nat.iter (Datatypes.S k) (newton_step x) (x / 2)
       * Nat.iter (Datatypes.S k) (newton_step x) (x / 2) - x
    <= (x / 4 - 1) * (x / 4 - 1) / 4 ^ Z.of_nat k.
Proof.
  induction k as [|k IH].
  - cbn [Nat.iter]. rewrite newton_first_error.
    change (4 ^ Z.of_nat 0) with 1.
    generalize (x / 4 - 1). intro d.
    split; [nra|]. apply Qle_shift_div_l; lra.
  - set (y := Nat.iter (Datatypes.S k) (newton_step x) (x / 2)) in *.
    change (Nat.iter (Datatypes.S (Datatypes.S k)) (newton_step x) (x / 2))
      with (newton_step x y).
    assert (Hy : 0 < y) by (apply newton_iterates_positive; exact x_positive).
    destruct IH as [IH0 IH1].
    destruct (newton_step_error_quarters y Hy IH0) as [H0 H1].
    split; [exact H0|].
    eapply Qle_trans; [exact H1|].
    rewrite Nat2Z.inj_succ. unfold Z.succ.
    rewrite Qpower_succ_nonneg by lia.
    assert (Hp : 0 < 4 ^ Z.of_nat k) by (apply Qpower_0_lt; reflexivity).
    assert (E : (x / 4 - 1) * (x / 4 - 1) / (4 ^ Z.of_nat k * 4)
                == ((x / 4 - 1) * (x / 4 - 1) / 4 ^ Z.of_nat k) / 4).
    { field. lra. }
    rewrite E.
    set (B := (x / 4 - 1) * (x / 4 - 1) / 4 ^ Z.of_nat k) in *.
    set (e := y * y - x) in *.
    unfold Qdiv. apply Qmult_le_compat_r; [exact IH1 | discriminate].
Qed.

End NewtonAccuracy.

Lemma sqrt_unfold_positive (x : Q) :
  0 < x -> EngineMath.sqrt x = Nat.iter 10 (newton_step x) (x / 2).
Proof.
  intro Hx. unfold EngineMath.sqrt.
  pose proof Hx as Hb. apply Qle_bool_false in Hb. rewrite Hb.
  unfold for_lt. change (trip_count 0 10 1) with 10%nat.
  apply (for_loop_iter 10 0 1 (newton_step x) (x / 2)).
Qed.

(** X1: in exact arithmetic, for every [x > 0], [sqrt(x)] is not below the
    root, and its square exceeds [x] by at most [(x/4 - 1)^2 / 4^9]: the
    first step leaves the error [(x/4 - 1)^2] and each of the nine others
    at most a quarter of the error before it.  This is the error of the
    ten Newton steps themselves, before any rounding. *)
Theorem sqrt_square_error (x : Q) :
  0 < x ->
  x <= EngineMath.sqrt x * EngineMath.sqrt x /\
  EngineMath.sqrt x * EngineMath.sqrt x
    <= x + (x / 4 - 1) * (x / 4 - 1) / 262144.
Proof.
  intro Hx. rewrite (sqrt_unfold_positive x Hx).
  destruct (newton_iterates_error x Hx 9) as [H0 H1].
  change (4 ^ Z.of_nat 9) with (4 ^ 9) in H1.
  assert (E : 4 ^ 9 == 262144) by reflexivity.
  rewrite E in H1.
  split; lra.
Qed.

Lemma sqrt_square_error_witness :
  2 <= EngineMath.sqrt 2 * EngineMath.sqrt 2 /\
  EngineMath.sqrt 2 * EngineMath.sqrt 2
    <= 2 + (2 / 4 - 1) * (2 / 4 - 1) / 262144.
Proof.
  apply (sqrt_square_error 2). reflexivity.
Defined.

(** ** Rounding to [int] *)

Lemma Qfloor_unique (q : Q) (n : Z) :
  inject_Z n <= q -> q < inject_Z (n + 1) -> Qfloor q = n.
Proof.
  intros Hlo Hhi.
  pose proof (Qfloor_le q) as H1. pose proof (Qlt_floor q) as H2.
  assert (Ha : (n < Qfloor q + 1)%Z) by (rewrite Zlt_Qlt; lra).
  assert (Hb : (Qfloor q < n + 1)%Z) by (rewrite Zlt_Qlt; lra).
  lia.
Qed.

Lemma Qceiling_integer (x : Q) :
  integer_valued x -> Qceiling x = Qfloor x.
Proof.
  unfold integer_valued. intro H.
  rewrite <- H at 1. apply Qceiling_Z.
Qed.

Lemma Qceiling_fractional (x : Q) :
  ~ integer_valued x -> Qceiling x = (Qfloor x + 1)%Z.
Proof.
  unfold integer_valued. intro Hn.
  pose proof (Qfloor_le x) as H1. pose proof (Qlt_floor x) as H2.
  pose proof (Qle_ceiling x) as H3. pose proof (Qceiling_lt x) as H4.
  assert (Hlt : inject_Z (Qfloor x) < x).
  { apply Qle_lteq in H1. destruct H1 as [H1 | H1]; [exact H1 | contradiction]. }
  assert (Ha : (Qfloor x < Qceiling x)%Z) by (rewrite Zlt_Qlt; lra).
  assert (Hb : (Qceiling x - 1 < Qfloor x + 1)%Z) by (rewrite Zlt_Qlt; lra).
  lia.
Qed.

(** X2: within the range of [int], [floor] rounds toward zero: it is the
    floor of a non-negative number and of an integer value, and one above
    the floor of every other negative number.  [ceil] is always
    [floor + 1]: it is the ceiling of a positive number that is not an
    integer, and one above the ceiling of every integer value and of
    every negative number.  The integer part fits an [int] for the
    numbers strictly between [-2147483649] and [2147483648]; for every
    other number the conversion is undefined. *)
Theorem floor_ceil_round_toward_zero (x : Q) :
  (fits_int (truncation x) <-> - 2147483649 < x < 2147483648) /\
  (fits_int (truncation x) ->
   (0 <= x -> EngineMath.floor x = Some (Qfloor x)) /\
   (integer_valued x -> EngineMath.floor x = Some (Qfloor x)) /\
   (x < 0 -> ~ integer_valued x ->
    EngineMath.floor x = Some (Qfloor x + 1)%Z)) /\
  (fits_int (truncation x) -> fits_int (truncation x + 1) ->
   (integer_valued x -> EngineMath.ceil x = Some (Qceiling x + 1)%Z) /\
   (0 < x -> ~ integer_valued x -> EngineMath.ceil x = Some (Qceiling x)) /\
   (x < 0 -> EngineMath.ceil x = Some (Qceiling x + 1)%Z)) /\
  (~ fits_int (truncation x) ->
   EngineMath.floor x = None /\ EngineMath.ceil x = None).
Proof.
  split; [apply fits_int_range|].
  split; [|split].
  - intro Hfit. unfold EngineMath.floor.
    rewrite (static_cast_int_fits x Hfit). rewrite <- Qtrunc_truncation.
    split; [intro H; f_equal; apply Qtrunc_nonneg; exact H|].
    split.
    + intro Hi. f_equal.
      destruct (Qlt_le_dec x 0) as [Hx | Hx].
      * rewrite Qtrunc_nonpos by lra. apply Qceiling_integer. exact Hi.
      * apply Qtrunc_nonneg. exact Hx.
    + intros Hx Hn. f_equal. rewrite Qtrunc_nonpos by lra.
      apply Qceiling_fractional. exact Hn.
  - intros Hfit Hfit1. unfold EngineMath.ceil.
    rewrite (static_cast_int_fits x Hfit), (int_add_fits _ _ Hfit1).
    rewrite <- Qtrunc_truncation.
    split.
    + intro Hi. f_equal. rewrite (Qceiling_integer x Hi).
      destruct (Qlt_le_dec x 0) as [Hx | Hx].
      * rewrite Qtrunc_nonpos by lra. rewrite (Qceiling_integer x Hi).
        reflexivity.
      * rewrite Qtrunc_nonneg by exact Hx. reflexivity.
    + split.
      * intros Hx Hn. f_equal. rewrite Qtrunc_nonneg by lra.
        symmetry. apply Qceiling_fractional. exact Hn.
      * intro Hx. f_equal. rewrite Qtrunc_nonpos by lra. reflexivity.
  - intro Hfit. unfold EngineMath.floor, EngineMath.ceil.
    rewrite (static_cast_int_undefined x Hfit). split; reflexivity.
Qed.

Lemma floor_ceil_round_toward_zero_witness :
  EngineMath.floor (5 # 2) = Some (Qfloor (5 # 2)) /\
  EngineMath.ceil 2 = Some (Qceiling 2 + 1)%Z /\
  EngineMath.floor (- (5 # 2)) = Some (Qfloor (- (5 # 2)) + 1)%Z /\
  EngineMath.ceil (5 # 2) = Some (Qceiling (5 # 2)) /\
  EngineMath.ceil (- (5 # 2)) = Some (Qceiling (- (5 # 2)) + 1)%Z /\
  EngineMath.floor 3000000000 = None.
Proof.
  assert (Fa : fits_int (truncation (5 # 2))) by (vm_compute; split; discriminate).
  assert (Fa1 : fits_int (truncation (5 # 2) + 1)) by (vm_compute; split; discriminate).
  assert (Fb : fits_int (truncation 2)) by (vm_compute; split; discriminate).
  assert (Fb1 : fits_int (truncation 2 + 1)) by (vm_compute; split; discriminate).
  assert (Fc : fits_int (truncation (- (5 # 2)))) by (vm_compute; split; discriminate).
  assert (Fc1 : fits_int (truncation (- (5 # 2)) + 1)) by (vm_compute; split; discriminate).
  assert (Fd : ~ fits_int (truncation 3000000000)).
  { intros [_ H]. vm_compute in H. apply H. reflexivity. }
  split; [|split; [|split; [|split; [|split]]]].
  - refine (proj1 (proj1 (proj2 (floor_ceil_round_toward_zero (5 # 2))) Fa) _).
    discriminate.
  - refine (proj1 (proj1 (proj2 (proj2 (floor_ceil_round_toward_zero 2))) Fb Fb1) _).
    reflexivity.
  - refine (proj2 (proj2 (proj1 (proj2 (floor_ceil_round_toward_zero (- (5 # 2)))) Fc)) _ _).
    + reflexivity.
    + intro H. discriminate H.
  - refine (proj1 (proj2 (proj1 (proj2 (proj2 (floor_ceil_round_toward_zero (5 # 2)))) Fa Fa1)) _ _).
    + reflexivity.
    + intro H. discriminate H.
  - refine (proj2 (proj2 (proj1 (proj2 (proj2 (floor_ceil_round_toward_zero (- (5 # 2))))) Fc Fc1)) _).
    reflexivity.
  - exact (proj1 (proj2 (proj2 (proj2 (floor_ceil_round_toward_zero 3000000000))) Fd)).
Defined.

(** X3: [round] rounds a non-negative number below [2147483647.5] to the
    nearest integer, halves upward; a negative number above
    [-2147483649] it rounds toward zero, whatever its fractional part.
    Outside these bounds the conversion to [int] or the addition of [1]
    is undefined. *)
Theorem round_half_up_or_toward_zero (x : Q) :
  (0 <= x -> x < 2147483647 + (1 # 2) ->
   EngineMath.round x = Some (Qfloor (x + (1 # 2)))) /\
  (x <= 0 -> - 2147483649 < x -> EngineMath.round x = Some (Qceiling x)) /\
  (2147483647 + (1 # 2) <= x \/ x <= - 2147483649 ->
   EngineMath.round x = None).
Proof.
  unfold EngineMath.round. split; [|split].
  - intros Hx Hmax.
    assert (Hfit : fits_int (truncation x)) by (apply fits_int_range; lra).
    rewrite (static_cast_int_fits x Hfit).
    rewrite <- Qtrunc_truncation, (Qtrunc_nonneg x Hx).
    pose proof (Qfloor_le x) as H1. pose proof (Qlt_floor x) as H2.
    rewrite inject_Z_plus in H2. change (inject_Z 1) with 1 in H2.
    destruct (Qle_bool (1 # 2) (x - inject_Z (Qfloor x))) eqn:E.
    + apply Qle_bool_iff in E.
      assert (Hf : (0 <= Qfloor x < INT_MAX)%Z).
      { split.
        - rewrite Zle_Qle. change (inject_Z 0) with 0.
          assert (H0 : (0 <= Qfloor x)%Z)
            by (change 0%Z with (Qfloor 0); apply Qfloor_resp_le; exact Hx).
          rewrite Zle_Qle in H0. exact H0.
        - rewrite Zlt_Qlt. unfold INT_MAX.
          change (inject_Z 2147483647) with 2147483647. lra. }
      rewrite int_add_fits by (unfold fits_int, INT_MIN, INT_MAX in *; lia).
      f_equal. symmetry. apply Qfloor_unique.
      * rewrite inject_Z_plus. change (inject_Z 1) with 1. lra.
      * rewrite !inject_Z_plus. change (inject_Z 1) with 1. lra.
    + apply Qle_bool_false in E. f_equal. symmetry. apply Qfloor_unique.
      * lra.
      * rewrite inject_Z_plus. change (inject_Z 1) with 1. lra.
  - intros Hx Hmin.
    assert (Hfit : fits_int (truncation x)) by (apply fits_int_range; lra).
    rewrite (static_cast_int_fits x Hfit).
    rewrite <- Qtrunc_truncation, (Qtrunc_nonpos x Hx).
    pose proof (Qle_ceiling x) as H1.
    assert (E : Qle_bool (1 # 2) (x - inject_Z (Qceiling x)) = false)
      by (apply Qle_bool_false; lra).
    rewrite E. reflexivity.
  - intro Hout.
    destruct (Qlt_le_dec x 2147483648) as [Hin | Hbig].
    + destruct Hout as [Hhi | Hlo].
      * assert (Hfit : fits_int (truncation x)) by (apply fits_int_range; lra).
        rewrite (static_cast_int_fits x Hfit).
        assert (Hx : 0 <= x) by lra.
        rewrite <- Qtrunc_truncation, (Qtrunc_nonneg x Hx).
        assert (Ef : Qfloor x = INT_MAX).
        { apply Qfloor_unique; unfold INT_MAX.
          - change (inject_Z 2147483647) with 2147483647. lra.
          - change (inject_Z (2147483647 + 1)) with 2147483648. exact Hin. }
        rewrite Ef.
        assert (E : Qle_bool (1 # 2) (x - inject_Z INT_MAX) = true).
        { apply Qle_bool_iff. unfold INT_MAX.
          change (inject_Z 2147483647) with 2147483647. lra. }
        rewrite E. reflexivity.
      * rewrite static_cast_int_undefined; [reflexivity|].
        intro Hfit. apply fits_int_range in Hfit. lra.
    + rewrite static_cast_int_undefined; [reflexivity|].
      intro Hfit. apply fits_int_range in Hfit. lra.
Qed.

Lemma round_half_up_or_toward_zero_witness :
  EngineMath.round (5 # 2) = Some (Qfloor ((5 # 2) + (1 # 2))) /\
  EngineMath.round (- (27 # 10)) = Some (Qceiling (- (27 # 10))) /\
  EngineMath.round 3000000000 = None.
Proof.
  split; [|split].
  - apply (proj1 (round_half_up_or_toward_zero (5 # 2)));
      [discriminate | reflexivity].
  - apply (proj1 (proj2 (round_half_up_or_toward_zero (- (27 # 10)))));
      [discriminate | reflexivity].
  - apply (proj2 (proj2 (round_half_up_or_toward_zero 3000000000))).
    left. discriminate.
Defined.

(** ** Exponential and angle conversion *)

(** X4: [exp(x)] multiplies [1] by [e] once for every counter below [x]:
    it is [1] for every [x <= 0], negative exponents included, and the
    product of [ceil(x)] factors [e], in exact arithmetic [e ^ ceil(x)],
    for [x >= 0] up to [2^24], the range in which the counter of [power]
    converts to [float] without rounding. *)
Theorem exp_is_integer_power (x : Q) :
  (x <= 0 -> returns (EngineMath.exp x) 1) /\
  (0 <= x -> x <= 16777216 ->
   returns (EngineMath.exp x)
           (Nat.iter (Z.to_nat (Qceiling x))
                     (fun result => result * EngineMath.e) 1) /\
   returns (EngineMath.exp x) (EngineMath.e ^ Qceiling x)).
Proof.
  unfold EngineMath.exp. split.
  - intro Hx. apply power_negative_exponent. exact Hx.
  - intros Hx Hmax.
    pose proof (power_loop_spec EngineMath.e x Hmax) as H.
    assert (Hc : (0 <= Qceiling x)%Z).
    { rewrite Zle_Qle. pose proof (Qle_ceiling x).
      change (inject_Z 0) with 0. lra. }
    replace (Z.max 0 (Qceiling x)) with (Qceiling x) in H by lia.
    split; [|exact H].
    apply (returns_Qeq _ (EngineMath.e ^ Qceiling x)); [|exact H].
    rewrite iterated_product. rewrite Z2Nat.id by exact Hc. reflexivity.
Qed.

Lemma exp_is_integer_power_witness :
  returns (EngineMath.exp (-1)) 1 /\
  returns (EngineMath.exp (1 # 2)) (EngineMath.e ^ Qceiling (1 # 2)).
Proof.
  split.
  - apply (proj1 (exp_is_integer_power (-1))). discriminate.
  - apply (proj2 (proj2 (exp_is_integer_power (1 # 2)) ltac:(discriminate) ltac:(discriminate))).
Defined.

(** X5: [degrees] and [radians] undo each other. *)
Theorem degrees_radians_round_trip (a : Q) :
  EngineMath.degrees (EngineMath.radians a) == a /\
  EngineMath.radians (EngineMath.degrees a) == a.
Proof.
  unfold EngineMath.degrees, EngineMath.radians, EngineMath.pi.
  split; field; discriminate.
Qed.

(** ** Factorial *)

Lemma factorial_loop_spec (n : nat) (result : Z) :
  EngineMath.factorial_loop (Z.of_nat n) result = (result * Zfact n)%Z.
Proof.
  revert result. induction n as [|n IH]; intro result.
  - rewrite EngineMath.factorial_loop_equation_1.
    change (Z.of_nat 0) with 0%Z. cbn. lia.
  - rewrite EngineMath.factorial_loop_equation_1.
    destruct (Z_lt_le_dec 0 (Z.of_nat (Datatypes.S n))) as [H | H]; [|lia].
    cbn [EngineMath.factorial_loop_unfold_clause_1].
    replace (Z.of_nat (Datatypes.S n) - 1)%Z with (Z.of_nat n) by lia.
    rewrite IH. cbn [Zfact]. lia.
Qed.

Lemma factorial_loop_nonpositive (i result : Z) :
  (i <= 0)%Z -> EngineMath.factorial_loop i result = result.
Proof.
  intro Hi. rewrite EngineMath.factorial_loop_equation_1.
  destruct (Z_lt_le_dec 0 i) as [H | H]; [lia | reflexivity].
Qed.

(** X6: [factorial(n)] is [n!] for every [n] from [0] to [12], the largest
    argument whose factorial fits the [int] accumulator ([13!] does not);
    for a negative argument the loop does not run and the result
    is [1]. *)
Theorem factorial_values (n : Z) :
  ((0 <= n <= 12)%Z ->
   EngineMath.factorial n = Zfact (Z.to_nat n) /\
   (1 <= EngineMath.factorial n <= INT_MAX)%Z) /\
  ((n < 0)%Z -> EngineMath.factorial n = 1%Z) /\
  (INT_MAX < Zfact 13)%Z.
Proof.
  split; [|split].
  - intro Hn.
    assert (E : EngineMath.factorial n = Zfact (Z.to_nat n)).
    { unfold EngineMath.factorial.
      rewrite <- (Z2Nat.id n) at 1 by lia.
      rewrite factorial_loop_spec. lia. }
    split; [exact E|]. rewrite E.
    assert (Hc : (Z.to_nat n <= 12)%nat) by lia.
    revert Hc. generalize (Z.to_nat n). intros k Hk.
    do 13 (destruct k as [|k]; [vm_compute; split; discriminate|]).
    lia.
  - intro Hn. unfold EngineMath.factorial.
    apply factorial_loop_nonpositive. lia.
  - reflexivity.
Qed.

Lemma factorial_values_witness :
  EngineMath.factorial 5 = Zfact (Z.to_nat 5) /\
  EngineMath.factorial (-3) = 1%Z.
Proof.
  split.
  - apply (proj1 (factorial_values 5)). lia.
  - apply (proj1 (proj2 (factorial_values (-3)))). lia.
Defined.

(** ** Sine *)

Lemma fabs_Qabs (x : Q) : EngineMath.fabs x == Qabs x.
Proof.
  unfold EngineMath.fabs. destruct (Qltb x 0) eqn:E.
  - apply Qltb_true in E. rewrite Qabs_neg by lra. ring.
  - apply Qltb_false in E. rewrite Qabs_pos by exact E. reflexivity.
Qed.

Lemma Zfact_positive (k : nat) : (0 < Zfact k)%Z.
Proof.
  induction k as [|k IH]; [reflexivity|].
  cbn [Zfact]. apply Z.mul_pos_pos; lia.
Qed.

Lemma sin_after_succ (angle : Q) (k : nat) :
  sin_after angle (Datatypes.S k)
  = EngineMath.sin_body angle (sin_after angle k).
Proof. reflexivity. Qed.

Lemma sin_after_n (angle : Q) (k : nat) :
  EngineMath.sin_n (sin_after angle k) = Z.of_nat k.
Proof.
  induction k as [|k IH]; [reflexivity|].
  rewrite sin_after_succ. unfold EngineMath.sin_body.
  cbn [EngineMath.sin_n]. rewrite IH. lia.
Qed.

(** After [k] rounds, [currentTerm] is term [k] of the Taylor series and
    [result] is the sum of the terms before it. *)
Lemma sin_after_taylor (angle : Q) (k : nat) :
  EngineMath.sin_currentTerm (sin_after angle k) == taylor_sin_term angle k /\
  EngineMath.sin_result (sin_after angle k) == taylor_sin_sum angle k.
Proof.
  induction k as [|k [IHt IHr]].
  - split; [|reflexivity].
    unfold taylor_sin_term. cbn. field.
  - rewrite sin_after_succ. unfold EngineMath.sin_body.
    cbn [EngineMath.sin_currentTerm EngineMath.sin_result taylor_sin_sum].
    rewrite sin_after_n. split; [|rewrite IHt, IHr; reflexivity].
    rewrite IHt. unfold taylor_sin_term.
    replace (2 * Datatypes.S k + 1)%nat
      with (Datatypes.S (Datatypes.S (2 * k + 1))) by lia.
    cbn [Zfact].
    assert (HF : ~ inject_Z (Zfact (2 * k + 1)) == 0).
    { pose proof (Zfact_positive (2 * k + 1)) as HF.
      intro H. unfold Qeq in H. cbn [Qnum Qden inject_Z] in H.
      rewrite Z.mul_1_r in H. rewrite H in HF. discriminate HF. }
    set (F := Zfact (2 * k + 1)) in *.
    replace (Z.of_nat (Datatypes.S (Datatypes.S (2 * k + 1))))
      with (Z.of_nat (2 * k + 1) + 1 + 1)%Z by lia.
    rewrite !Qpower_succ_nonneg by lia.
    replace (Z.of_nat (Datatypes.S k)) with (Z.of_nat k + 1)%Z by lia.
    rewrite Z.pow_add_r by lia.
    replace (Z.of_nat (2 * k + 1) + 1 + 1)%Z
      with (2 * (Z.of_nat k + 1) + 1)%Z by lia.
    replace (Z.of_nat (Datatypes.S (2 * k + 1)))
      with (2 * (Z.of_nat k + 1))%Z by lia.
    rewrite !inject_Z_mult, !inject_Z_plus, !inject_Z_mult.
    change (inject_Z 2) with 2. change (inject_Z 1) with 1.
    change (inject_Z ((-1) ^ 1)) with (-1).
    set (p := inject_Z (Z.of_nat k) + 1).
    assert (Hp : 0 < p).
    { unfold p. assert (H : 0 <= inject_Z (Z.of_nat k)).
      { change 0 with (inject_Z 0). rewrite <- Zle_Qle. lia. }
      lra. }
    rewrite ?inject_Z_plus. change (inject_Z 1) with 1. fold p.
    generalize (angle ^ Z.of_nat (2 * k + 1)) (inject_Z ((-1) ^ Z.of_nat k)).
    intros A sgn.
    clearbody p F.
    field. repeat split; try exact HF; lra.
Qed.

Lemma Qabs_over_positive (x d : Q) :
  x <= 0 -> 0 < d -> Qabs (x / d) == - x / d.
Proof.
  intros Hx Hd.
  assert (H : x / d <= 0).
  { unfold Qdiv. rewrite <- (Qmult_0_l (/ d)).
    apply Qmult_le_compat_r; [exact Hx|].
    apply Qlt_le_weak. apply Qinv_lt_0_compat. exact Hd. }
  rewrite (Qabs_neg _ H). field. lra.
Qed.

(** The size of the term of one round, from the size of the term before
    it. *)
Lemma sin_term_ratio (angle : Q) (k : nat) :
  Qabs (EngineMath.sin_currentTerm (sin_after angle (Datatypes.S k)))
  * ((2 * (inject_Z (Z.of_nat k) + 1)) * (2 * (inject_Z (Z.of_nat k) + 1) + 1))
  == Qabs (EngineMath.sin_currentTerm (sin_after angle k)) * (angle * angle).
Proof.
  rewrite sin_after_succ. unfold EngineMath.sin_body.
  cbn [EngineMath.sin_currentTerm]. rewrite sin_after_n.
  rewrite inject_Z_plus. change (inject_Z 1) with 1.
  set (p := inject_Z (Z.of_nat k) + 1).
  assert (Hp : 0 < p).
  { unfold p. assert (H : 0 <= inject_Z (Z.of_nat k)).
    { change 0 with (inject_Z 0). rewrite <- Zle_Qle. lia. }
    lra. }
  rewrite Qabs_Qmult.
  assert (Hd : 0 < 2 * p * (2 * p + 1)) by nra.
  assert (Hx : -1 * angle * angle <= 0) by nra.
  rewrite (Qabs_over_positive _ _ Hx Hd).
  generalize (Qabs (EngineMath.sin_currentTerm (sin_after angle k))).
  intro v. clearbody p. field. lra.
Qed.

(** Once the round number has passed [angle^2], every term is at most a
    quarter of the term before it. *)
Lemma sin_term_quarters (angle : Q) (k : nat) :
  angle * angle <= inject_Z (Z.of_nat k) + 1 ->
  Qabs (EngineMath.sin_currentTerm (sin_after angle (Datatypes.S k))) * 4
  <= Qabs (EngineMath.sin_currentTerm (sin_after angle k)).
Proof.
  intro Hk.
  pose proof (sin_term_ratio angle k) as R.
  pose proof (Qabs_nonneg
                (EngineMath.sin_currentTerm (sin_after angle (Datatypes.S k)))) as Hu.
  pose proof (Qabs_nonneg (EngineMath.sin_currentTerm (sin_after angle k))) as Hv.
  set (u := Qabs (EngineMath.sin_currentTerm (sin_after angle (Datatypes.S k)))) in *.
  set (v := Qabs (EngineMath.sin_currentTerm (sin_after angle k))) in *.
  set (p := inject_Z (Z.of_nat k) + 1) in *.
  assert (Hp : 1 <= p).
  { unfold p. assert (H : 0 <= inject_Z (Z.of_nat k)).
    { change 0 with (inject_Z 0). rewrite <- Zle_Qle. lia. }
    lra. }
  set (a2 := angle * angle) in *.
  assert (Ha : 0 <= a2) by (unfold a2; nra).
  clearbody u v p a2.
  destruct (Qlt_le_dec 0 a2) as [Hpos | Hzero].
  - apply Qnot_lt_le. intro Hc.
    assert (H1 : v * a2 < u * 4 * a2) by nra.
    assert (H0 : 4 * a2 <= 2 * p * (2 * p + 1)) by nra.
    assert (H2 : u * 4 * a2 <= u * (2 * p * (2 * p + 1))).
    { set (D := 2 * p * (2 * p + 1)) in *. clearbody D.
      clear - H0 Hu. nra. }
    lra.
  - assert (Hz : a2 == 0) by lra.
    assert (Hu0 : u * (2 * p * (2 * p + 1)) == 0) by (rewrite R, Hz; ring).
    apply Qmult_integral in Hu0. destruct Hu0 as [Hu0 | Hd]; [lra | nra].
Qed.

Lemma sin_term_decays (angle : Q) (m j : nat) :
  angle * angle <= inject_Z (Z.of_nat m) ->
  Qabs (EngineMath.sin_currentTerm (sin_after angle (m + j))) * 4 ^ Z.of_nat j
  <= Qabs (EngineMath.sin_currentTerm (sin_after angle m)).
Proof.
  intro Hm. induction j as [|j IH].
  - rewrite Nat.add_0_r. change (4 ^ Z.of_nat 0) with 1. lra.
  - replace (m + Datatypes.S j)%nat with (Datatypes.S (m + j)) by lia.
    rewrite Nat2Z.inj_succ. unfold Z.succ.
    rewrite Qpower_succ_nonneg by lia.
    assert (Hk : angle * angle <= inject_Z (Z.of_nat (m + j)) + 1).
    { assert (H : inject_Z (Z.of_nat m) <= inject_Z (Z.of_nat (m + j)))
        by (rewrite <- Zle_Qle; lia).
      lra. }
    pose proof (sin_term_quarters angle (m + j) Hk) as Hq.
    assert (Hp : 0 < 4 ^ Z.of_nat j) by (apply Qpower_0_lt; reflexivity).
    set (P := 4 ^ Z.of_nat j) in *.
    set (u := Qabs (EngineMath.sin_currentTerm
                      (sin_after angle (Datatypes.S (m + j))))) in *.
    set (v := Qabs (EngineMath.sin_currentTerm (sin_after angle (m + j)))) in *.
    clearbody P u v. nra.
Qed.

(** A term is at most the term before it times [angle^2]. *)
Lemma sin_term_grows (angle : Q) (k : nat) :
  Qabs (EngineMath.sin_currentTerm (sin_after angle (Datatypes.S k)))
  <= Qabs (EngineMath.sin_currentTerm (sin_after angle k)) * (angle * angle).
Proof.
  pose proof (sin_term_ratio angle k) as R.
  pose proof (Qabs_nonneg
                (EngineMath.sin_currentTerm (sin_after angle (Datatypes.S k)))) as Hu.
  set (u := Qabs (EngineMath.sin_currentTerm (sin_after angle (Datatypes.S k)))) in *.
  set (v := Qabs (EngineMath.sin_currentTerm (sin_after angle k))) in *.
  set (p := inject_Z (Z.of_nat k) + 1) in *.
  assert (Hp : 1 <= p).
  { unfold p. assert (H : 0 <= inject_Z (Z.of_nat k)).
    { change 0 with (inject_Z 0). rewrite <- Zle_Qle. lia. }
    lra. }
  set (a2 := angle * angle) in *.
  assert (HD : 1 <= 2 * p * (2 * p + 1)) by nra.
  set (D := 2 * p * (2 * p + 1)) in *.
  clearbody u v a2 D. clear p Hp.
  assert (H : u <= u * D) by nra.
  lra.
Qed.

(** For an angle of magnitude up to [64], term [k] is at most
    [64 * 4096^k]. *)
Lemma sin_term_bound (angle : Q) (k : nat) :
  Qabs angle <= 64 ->
  Qabs (EngineMath.sin_currentTerm (sin_after angle k))
  <= 64 * 4 ^ (6 * Z.of_nat k).
Proof.
  intro Ha. induction k as [|k IH].
  - change (4 ^ (6 * Z.of_nat 0)) with 1.
    change (EngineMath.sin_currentTerm (sin_after angle 0)) with angle. lra.
  - pose proof (sin_term_grows angle k) as Hg.
    assert (Ha2 : 0 <= angle * angle <= 4096).
    { apply Qabs_Qle_condition in Ha. split; nra. }
    replace (6 * Z.of_nat (Datatypes.S k))%Z with (6 * Z.of_nat k + 6)%Z by lia.
    rewrite Qpower_plus by discriminate.
    change (4 ^ 6) with 4096.
    assert (HP : 0 < 4 ^ (6 * Z.of_nat k)) by (apply Qpower_0_lt; reflexivity).
    pose proof (Qabs_nonneg (EngineMath.sin_currentTerm (sin_after angle k))) as Hv.
    set (u := Qabs (EngineMath.sin_currentTerm (sin_after angle (Datatypes.S k)))) in *.
    set (v := Qabs (EngineMath.sin_currentTerm (sin_after angle k))) in *.
    set (P := 4 ^ (6 * Z.of_nat k)) in *.
    set (a2 := angle * angle) in *.
    clearbody u v P a2.
    assert (H1 : v * a2 <= v * 4096) by nra.
    assert (H2 : v * 4096 <= 64 * P * 4096) by nra.
    lra.
Qed.

(** For an angle of magnitude up to [64], a term below the threshold
    comes within [7 * m + 15] rounds, where [m] is at least
    [angle^2]. *)
Lemma sin_term_small_at (angle : Q) (m : nat) :
  Qabs angle <= 64 -> angle * angle <= inject_Z (Z.of_nat m) ->
  Qabs (EngineMath.sin_currentTerm (sin_after angle (m + (6 * m + 15))))
  < EngineMath.sin_EPSILON.
Proof.
  intros Ha Hm.
  pose proof (sin_term_decays angle m (6 * m + 15) Hm) as Hd.
  pose proof (sin_term_bound angle m Ha) as Hb.
  replace (Z.of_nat (6 * m + 15)) with (6 * Z.of_nat m + 15)%Z in Hd by lia.
  rewrite Qpower_plus in Hd by discriminate.
  change (4 ^ 15) with 1073741824 in Hd.
  assert (HP : 0 < 4 ^ (6 * Z.of_nat m)) by (apply Qpower_0_lt; reflexivity).
  set (u := Qabs (EngineMath.sin_currentTerm
                    (sin_after angle (m + (6 * m + 15))))) in *.
  set (v := Qabs (EngineMath.sin_currentTerm (sin_after angle m))) in *.
  set (P := 4 ^ (6 * Z.of_nat m)) in *.
  clearbody u v P.
  apply Qnot_le_lt. intro Hc. unfold EngineMath.sin_EPSILON in Hc.
  assert (H1 : (944473296573929 # 9444732965739290427392) * P <= u * P) by nra.
  lra.
Qed.

(** For an angle of magnitude up to [64], some term after the first is
    below the threshold, within [28687] rounds. *)
Lemma sin_term_small_exists (angle : Q) :
  Qabs angle <= 64 ->
  exists k : nat,
    (1 <= k)%nat /\ (Z.of_nat k <= 28687)%Z /\
    Qabs (EngineMath.sin_currentTerm (sin_after angle k))
    < EngineMath.sin_EPSILON.
Proof.
  intro Ha. exists (4096 + (6 * 4096 + 15))%nat.
  split; [lia|]. split; [lia|].
  apply sin_term_small_at; [exact Ha|].
  change (inject_Z (Z.of_nat 4096)) with 4096.
  apply Qabs_Qle_condition in Ha. nra.
Qed.

(** The loop of [sin] leaves at the first round whose test fails, as long
    as the counter stays an [int]. *)
Lemma sin_loop_halts (angle : Q) (k : nat) (l : EngineMath.sin_locals) :
  (EngineMath.sin_n l + Z.of_nat k <= INT_MAX)%Z ->
  EngineMath.sin_test (Nat.iter k (EngineMath.sin_body angle) l) = false ->
  exists k' : nat,
    (k' <= k)%nat /\
    EngineMath.sin_test (Nat.iter k' (EngineMath.sin_body angle) l) = false /\
    (forall i : nat, (i < k')%nat ->
       EngineMath.sin_test (Nat.iter i (EngineMath.sin_body angle) l) = true) /\
    (forall fuel : nat, (k' <= fuel)%nat ->
       EngineMath.sin_loop fuel angle l
       = Some (Nat.iter k' (EngineMath.sin_body angle) l)).
Proof.
  revert l. induction k as [|k IH]; intros l Hn Hk.
  - exists 0%nat. change (Nat.iter 0 (EngineMath.sin_body angle) l) with l in *.
    split; [lia|]. split; [exact Hk|]. split; [intros i Hi; lia|].
    intros fuel _. destruct fuel; cbn [EngineMath.sin_loop]; rewrite Hk; reflexivity.
  - destruct (EngineMath.sin_test l) eqn:Hl.
    + rewrite Nat.iter_succ_r in Hk.
      assert (Hn' : (EngineMath.sin_n (EngineMath.sin_body angle l)
                     + Z.of_nat k <= INT_MAX)%Z).
      { unfold EngineMath.sin_body. cbn [EngineMath.sin_n]. lia. }
      destruct (IH (EngineMath.sin_body angle l) Hn' Hk)
        as [k' [Hle [Hf [Hlt Hrun]]]].
      exists (Datatypes.S k').
      split; [lia|].
      split; [rewrite Nat.iter_succ_r; exact Hf|].
      split.
      * intros i Hi. destruct i as [|i]; [exact Hl|].
        rewrite Nat.iter_succ_r. apply Hlt. lia.
      * intros fuel Hfuel. destruct fuel as [|fuel]; [lia|].
        cbn [EngineMath.sin_loop]. rewrite Hl.
        assert (Hi : (EngineMath.sin_n l <? INT_MAX)%Z = true)
          by (apply Z.ltb_lt; lia).
        rewrite Hi.
        rewrite Nat.iter_succ_r. apply Hrun. lia.
    + exists 0%nat. change (Nat.iter 0 (EngineMath.sin_body angle) l) with l.
      split; [lia|]. split; [exact Hl|]. split; [intros i Hi; lia|].
      intros fuel _. destruct fuel; cbn [EngineMath.sin_loop]; rewrite Hl; reflexivity.
Qed.

Lemma sin_test_spec (l : EngineMath.sin_locals) :
  EngineMath.sin_test l = false <->
  Qabs (EngineMath.sin_currentTerm l) < EngineMath.sin_EPSILON /\
  EngineMath.sin_n l <> 0%Z.
Proof.
  unfold EngineMath.sin_test. rewrite orb_false_iff.
  rewrite Qle_bool_false, fabs_Qabs, Z.eqb_neq. reflexivity.
Qed.

(** What [sin] computes for an angle of magnitude up to [64]. *)
Lemma sin_runs (angle : Q) :
  Qabs angle <= 64 ->
  exists (k : nat) (v : Q),
    (1 <= k)%nat /\ (Z.of_nat k <= 28687)%Z /\
    Qabs (taylor_sin_term angle k) < EngineMath.sin_EPSILON /\
    (forall i : nat, (1 <= i < k)%nat ->
       EngineMath.sin_EPSILON <= Qabs (taylor_sin_term angle i)) /\
    v == taylor_sin_sum angle k /\
    (forall fuel : nat, (k <= fuel)%nat -> EngineMath.sin fuel angle = Some v).
Proof.
  intro Ha.
  destruct (sin_term_small_exists angle Ha) as [k0 [Hk0 [Hmax Hsmall]]].
  assert (Htest : EngineMath.sin_test
                    (Nat.iter k0 (EngineMath.sin_body angle) (sin_start angle))
                  = false).
  { apply sin_test_spec. split; [exact Hsmall|].
    change (Nat.iter k0 (EngineMath.sin_body angle) (sin_start angle))
      with (sin_after angle k0).
    rewrite sin_after_n. lia. }
  assert (Hint : (EngineMath.sin_n (sin_start angle) + Z.of_nat k0 <= INT_MAX)%Z).
  { unfold sin_start, INT_MAX. cbn [EngineMath.sin_n]. lia. }
  destruct (sin_loop_halts angle k0 (sin_start angle) Hint Htest)
    as [k [Hle [Hf [Hlt Hrun]]]].
  change (Nat.iter k (EngineMath.sin_body angle) (sin_start angle))
    with (sin_after angle k) in *.
  apply sin_test_spec in Hf. destruct Hf as [Hfs Hfn].
  rewrite sin_after_n in Hfn.
  destruct (sin_after_taylor angle k) as [Et Er].
  exists k, (EngineMath.sin_result (sin_after angle k)).
  split; [lia|]. split; [lia|].
  split; [rewrite <- Et; exact Hfs|].
  split.
  - intros i Hi.
    assert (Hi' : (i < k)%nat) by lia.
    specialize (Hlt i Hi').
    change (Nat.iter i (EngineMath.sin_body angle) (sin_start angle))
      with (sin_after angle i) in Hlt.
    destruct (sin_after_taylor angle i) as [Eti _].
    rewrite <- Eti.
    apply Qnot_lt_le. intro Hc.
    assert (Hfalse : EngineMath.sin_test (sin_after angle i) = false).
    { apply sin_test_spec. split; [exact Hc|]. rewrite sin_after_n. lia. }
    congruence.
  - split; [exact Er|].
    intros fuel Hfuel. unfold EngineMath.sin.
    change (EngineMath.mk_sin_locals 0 0 angle) with (sin_start angle).
    rewrite (Hrun fuel Hfuel). reflexivity.
Qed.

(** X7: in exact arithmetic, [sin(angle)] returns for every angle of
    magnitude up to [64]: its loop stops after some number [k >= 1] of
    rounds, at most [28687], and the result is the sum of the first [k]
    terms [(-1)^i angle^(2i+1) / (2i+1)!] of the Taylor series, where [k]
    is the first index after [0] of a term below the threshold (the
    value of the literal [0.0000001]) in magnitude.  So at least one term
    is summed, and the first term is summed whatever its size. *)
Theorem sin_sums_taylor_until_small (angle : Q) :
  Qabs angle <= 64 ->
  exists (k : nat) (v : Q),
    (1 <= k)%nat /\ (Z.of_nat k <= 28687)%Z /\
    Qabs (taylor_sin_term angle k) < EngineMath.sin_EPSILON /\
    (forall i : nat, (1 <= i < k)%nat ->
       EngineMath.sin_EPSILON <= Qabs (taylor_sin_term angle i)) /\
    v == taylor_sin_sum angle k /\
    (forall fuel : nat, (k <= fuel)%nat -> EngineMath.sin fuel angle = Some v).
Proof.
  exact (sin_runs angle).
Qed.

Lemma sin_sums_taylor_until_small_witness :
  exists (k : nat) (v : Q),
    (1 <= k)%nat /\ (Z.of_nat k <= 28687)%Z /\
    Qabs (taylor_sin_term (1 # 2) k) < EngineMath.sin_EPSILON /\
    (forall i : nat, (1 <= i < k)%nat ->
       EngineMath.sin_EPSILON <= Qabs (taylor_sin_term (1 # 2) i)) /\
    v == taylor_sin_sum (1 # 2) k /\
    (forall fuel : nat, (k <= fuel)%nat ->
       EngineMath.sin fuel (1 # 2) = Some v).
Proof.
  apply (sin_sums_taylor_until_small (1 # 2)). discriminate.
Defined.

(** For the angle [1/2] the loop of [sin] runs four rounds. *)
Example sin_half :
  (exists v, EngineMath.sin 4 (1 # 2) = Some v /\ v == 309287 # 645120) /\
  EngineMath.sin 3 (1 # 2) = None /\
  EngineMath.sin 1 0 = Some 0.
Proof.
  split; [|split].
  - eexists. split; [vm_compute; reflexivity|]. reflexivity.
  - vm_compute. reflexivity.
  - vm_compute. reflexivity.
Qed.

Lemma sin_test_mirror (l l' : EngineMath.sin_locals) :
  sin_mirror l l' -> EngineMath.sin_test l' = EngineMath.sin_test l.
Proof.
  intros [Hn [_ Ht]].
  assert (Habs : Qabs (EngineMath.sin_currentTerm l')
                 == Qabs (EngineMath.sin_currentTerm l))
    by (rewrite Ht; apply Qabs_opp).
  destruct (EngineMath.sin_test l) eqn:A, (EngineMath.sin_test l') eqn:B;
    try reflexivity; exfalso.
  - apply sin_test_spec in B. destruct B as [B1 B2].
    assert (C : EngineMath.sin_test l = false).
    { apply sin_test_spec. rewrite <- Habs, <- Hn. split; assumption. }
    congruence.
  - apply sin_test_spec in A. destruct A as [A1 A2].
    assert (C : EngineMath.sin_test l' = false).
    { apply sin_test_spec. rewrite Habs, Hn. split; assumption. }
    congruence.
Qed.

Lemma sin_body_mirror (angle angle' : Q) (l l' : EngineMath.sin_locals) :
  angle' == - angle ->
  sin_mirror l l' ->
  sin_mirror (EngineMath.sin_body angle l) (EngineMath.sin_body angle' l').
Proof.
  intros Ha [Hn [Hr Ht]]. unfold sin_mirror, EngineMath.sin_body.
  cbn [EngineMath.sin_n EngineMath.sin_result EngineMath.sin_currentTerm].
  rewrite Hn. split; [reflexivity|]. split.
  - rewrite Hr, Ht. ring.
  - rewrite Ht, Ha. unfold Qdiv. ring.
Qed.

(** On two opposite angles the loop of [sin] runs the same rounds: with
    every bound on the rounds both runs end or neither does, and they
    end in mirrored states. *)
Lemma sin_loop_mirror (angle angle' : Q) (fuel : nat)
    (l l' : EngineMath.sin_locals) :
  angle' == - angle ->
  sin_mirror l l' ->
  match EngineMath.sin_loop fuel angle l,
        EngineMath.sin_loop fuel angle' l' with
  | Some r, Some r' => sin_mirror r r'
  | None, None => True
  | _, _ => False
  end.
Proof.
  intro Ha. revert l l'. induction fuel as [|fuel IH]; intros l l' H;
    cbn [EngineMath.sin_loop]; rewrite (sin_test_mirror l l' H);
    destruct (EngineMath.sin_test l); try exact H; try exact I.
  rewrite (proj1 H).
  destruct (EngineMath.sin_n l <? INT_MAX)%Z; [|exact I].
  apply IH. apply sin_body_mirror; assumption.
Qed.

Lemma sin_mirror_all_fuel (angle angle' : Q) (fuel : nat) :
  angle' == - angle ->
  match EngineMath.sin fuel angle, EngineMath.sin fuel angle' with
  | Some v, Some v' => v' == - v
  | None, None => True
  | _, _ => False
  end.
Proof.
  intro Ha. unfold EngineMath.sin.
  assert (Hstart : sin_mirror (EngineMath.mk_sin_locals 0 0 angle)
                              (EngineMath.mk_sin_locals 0 0 angle')).
  { unfold sin_mirror. cbn. split; [reflexivity|].
    split; [reflexivity | exact Ha]. }
  pose proof (sin_loop_mirror angle angle' fuel _ _ Ha Hstart) as H.
  destruct (EngineMath.sin_loop fuel angle (EngineMath.mk_sin_locals 0 0 angle)),
           (EngineMath.sin_loop fuel angle' (EngineMath.mk_sin_locals 0 0 angle'));
    try exact H.
  apply H.
Qed.

(** More rounds than a stopped loop needed do not change its outcome. *)
Lemma sin_loop_more_fuel (angle : Q) (k fuel : nat) (l r : EngineMath.sin_locals) :
  (k <= fuel)%nat ->
  EngineMath.sin_loop k angle l = Some r ->
  EngineMath.sin_loop fuel angle l = Some r.
Proof.
  revert fuel l. induction k as [|k IH]; intros fuel l Hfuel Hk.
  - cbn [EngineMath.sin_loop] in Hk.
    destruct fuel; cbn [EngineMath.sin_loop];
      destruct (EngineMath.sin_test l); congruence.
  - destruct fuel as [|fuel]; [lia|].
    cbn [EngineMath.sin_loop] in *.
    destruct (EngineMath.sin_test l); [|exact Hk].
    destruct (EngineMath.sin_n l <? INT_MAX)%Z; [|discriminate Hk].
    apply IH; [lia | exact Hk].
Qed.

(** The values of [sin] at two opposite angles of magnitude up to
    [64]. *)
Lemma sin_at_opposite_angles (angle angle' : Q) :
  angle' == - angle -> Qabs angle <= 64 ->
  exists (k : nat) (v v' : Q),
    (Z.of_nat k <= 28687)%Z /\
    v' == - v /\
    forall fuel : nat, (k <= fuel)%nat ->
      EngineMath.sin fuel angle = Some v /\
      EngineMath.sin fuel angle' = Some v'.
Proof.
  intros Ha Hr.
  destruct (sin_runs angle Hr) as [k [v [_ [Hk [_ [_ [_ Hrun]]]]]]].
  pose proof (sin_mirror_all_fuel angle angle' k Ha) as Hm.
  rewrite (Hrun k (Nat.le_refl k)) in Hm.
  destruct (EngineMath.sin k angle') as [v'|] eqn:Ev'; [|contradiction].
  exists k, v, v'. split; [exact Hk|]. split; [exact Hm|].
  intros fuel Hfuel. split; [apply Hrun; exact Hfuel|].
  pose proof (sin_mirror_all_fuel angle angle' fuel Ha) as Hf.
  rewrite (Hrun fuel Hfuel) in Hf.
  unfold EngineMath.sin in *.
  destruct (EngineMath.sin_loop k angle' (EngineMath.mk_sin_locals 0 0 angle'))
    as [r'|] eqn:Er'; [|discriminate Ev'].
  rewrite (sin_loop_more_fuel angle' k fuel _ _ Hfuel Er'). exact Ev'.
Qed.

(** X8: [sin] is an odd function.  With every bound on the rounds,
    [sin(-angle)] and [sin(angle)] both return or neither does, so that
    the two run the same number of rounds, and the values they return
    are opposite.  For an angle of magnitude up to [64] both return, in
    exact arithmetic. *)
Theorem sin_is_odd (angle : Q) :
  (forall fuel : nat,
      match EngineMath.sin fuel angle, EngineMath.sin fuel (- angle) with
      | Some v, Some v' => v' == - v
      | None, None => True
      | _, _ => False
      end) /\
  (Qabs angle <= 64 ->
   exists (k : nat) (v v' : Q),
     (Z.of_nat k <= 28687)%Z /\
     v' == - v /\
     forall fuel : nat, (k <= fuel)%nat ->
       EngineMath.sin fuel angle = Some v /\
       EngineMath.sin fuel (- angle) = Some v').
Proof.
  split.
  - intro fuel. apply sin_mirror_all_fuel. reflexivity.
  - apply sin_at_opposite_angles. reflexivity.
Qed.

Lemma sin_is_odd_witness :
  exists (k : nat) (v v' : Q),
    (Z.of_nat k <= 28687)%Z /\
    v' == - v /\
    forall fuel : nat, (k <= fuel)%nat ->
      EngineMath.sin fuel (1 # 2) = Some v /\
      EngineMath.sin fuel (- (1 # 2)) = Some v'.
Proof.
  apply (proj2 (sin_is_odd (1 # 2))). discriminate.
Defined.

(** ** Sine in binary32 arithmetic *)

(** The sums above are those of exact arithmetic.  On [float], [sin] at
    [0.5f] returns [16086851 * 2^-25] after a few rounds.  At [64.0f] the
    terms grow beyond [10^26] before they fall, and the sum that is
    left after [93] rounds is the rounding error of these, [9409815 *
    2^40].  At [100.0f] the term is infinite from round [38] on and stays
    so, and the sum is not a number: the test of the loop is still true
    after [2000] rounds. *)
Lemma Binary32_sin_values :
  Binary32.sin 200 (S754_finite false 8388608 (-24))
  = Some (S754_finite false 16086851 (-25)) /\
  Binary32.sin 93 (Binary32.of_int 64) = Some (S754_finite false 9409815 40) /\
  Binary32.sin 92 (Binary32.of_int 64) = None /\
  Binary32.sin_currentTerm
    (Nat.iter 38 (Binary32.sin_body (Binary32.of_int 100))
       (Binary32.mk_sin_locals 0 (Binary32.of_int 0) (Binary32.of_int 100)))
  = S754_infinity false /\
  Binary32.sin_result
    (Nat.iter 40 (Binary32.sin_body (Binary32.of_int 100))
       (Binary32.mk_sin_locals 0 (Binary32.of_int 0) (Binary32.of_int 100)))
  = S754_nan /\
  Binary32.sin 2000 (Binary32.of_int 100) = None.
Proof.
  repeat match goal with |- _ /\ _ => split end; vm_compute; reflexivity.
Qed.

(** ** Lengths and distances *)

Lemma sqrt_nonpositive (x : Q) : x <= 0 -> EngineMath.sqrt x = 0.
Proof.
  intro Hx. unfold EngineMath.sqrt.
  apply Qle_bool_iff in Hx. rewrite Hx. reflexivity.
Qed.

Lemma sqrt_positive (x : Q) : 0 < x -> 0 < EngineMath.sqrt x.
Proof.
  intro Hx. rewrite (sqrt_unfold_positive x Hx).
  apply newton_iterates_positive. exact Hx.
Qed.

Lemma sqrt_zero_iff (x : Q) : EngineMath.sqrt x == 0 <-> x <= 0.
Proof.
  split; intro H.
  - apply Qnot_lt_le. intro Hx. pose proof (sqrt_positive x Hx). lra.
  - rewrite (sqrt_nonpositive x H). reflexivity.
Qed.

Lemma newton_step_respects_Qeq (x y xi yi : Q) :
  x == y -> xi == yi -> newton_step x xi == newton_step y yi.
Proof.
  intros Hx Hxi. unfold newton_step. rewrite Hx, Hxi. reflexivity.
Qed.

Lemma sqrt_respects_Qeq (x y : Q) :
  x == y -> EngineMath.sqrt x == EngineMath.sqrt y.
Proof.
  intro Hxy. destruct (Qlt_le_dec 0 x) as [Hx | Hx].
  - assert (Hy : 0 < y) by (rewrite <- Hxy; exact Hx).
    rewrite (sqrt_unfold_positive x Hx), (sqrt_unfold_positive y Hy).
    assert (Hs : x / 2 == y / 2) by (rewrite Hxy; reflexivity).
    revert Hs. generalize (x / 2) (y / 2). generalize 10%nat.
    intro n. induction n as [|n IH]; intros s s' Hs; [exact Hs|].
    cbn [Nat.iter]. apply newton_step_respects_Qeq; [exact Hxy|].
    apply IH. exact Hs.
  - assert (Hy : y <= 0) by (rewrite <- Hxy; exact Hx).
    rewrite (sqrt_nonpositive x Hx), (sqrt_nonpositive y Hy). reflexivity.
Qed.

Lemma sum_of_squares_2_zero (a b : Q) :
  a * a + b * b == 0 -> a == 0 /\ b == 0.
Proof.
  intro H.
  destruct (sum_of_squares_zero a b 0 0) as [Ha [Hb _]]; [lra|].
  split; assumption.
Qed.

Lemma sum_of_squares_3_zero (a b c : Q) :
  a * a + b * b + c * c == 0 -> a == 0 /\ b == 0 /\ c == 0.
Proof.
  intro H.
  destruct (sum_of_squares_zero a b c 0) as [Ha [Hb [Hc _]]]; [lra|].
  repeat split; assumption.
Qed.

Lemma CVector2_length_spec (v : CVector2.t) :
  0 <= CVector2.length v /\
  (CVector2.length v == 0 <-> CVector2.eq v CVector2.zero).
Proof.
  destruct v as [x y].
  unfold CVector2.length, CVector2.eq, CVector2.zero.
  cbn [CVector2.x CVector2.y].
  assert (Hs : 0 <= x * x + y * y) by nra.
  split.
  - apply Qle_lteq in Hs. destruct Hs as [Hs | Hs].
    + apply Qlt_le_weak. apply sqrt_positive. exact Hs.
    + rewrite sqrt_nonpositive by lra. lra.
  - rewrite sqrt_zero_iff. split.
    + intro H. apply sum_of_squares_2_zero. lra.
    + intros [Hx Hy]. rewrite Hx, Hy. lra.
Qed.

Lemma CVector3_length_spec (v : CVector3.t) :
  0 <= CVector3.length v /\
  (CVector3.length v == 0 <-> CVector3.eq v CVector3.zero).
Proof.
  destruct v as [x y z].
  unfold CVector3.length, CVector3.eq, CVector3.zero.
  cbn [CVector3.x CVector3.y CVector3.z].
  assert (Hs : 0 <= x * x + y * y + z * z) by nra.
  split.
  - apply Qle_lteq in Hs. destruct Hs as [Hs | Hs].
    + apply Qlt_le_weak. apply sqrt_positive. exact Hs.
    + rewrite sqrt_nonpositive by lra. lra.
  - rewrite sqrt_zero_iff. split.
    + intro H. apply sum_of_squares_3_zero. lra.
    + intros [Hx [Hy Hz]]. rewrite Hx, Hy, Hz. lra.
Qed.

Lemma CVector4_length_spec (v : CVector4.t) :
  0 <= CVector4.length v /\
  (CVector4.length v == 0 <-> CVector4.eq v CVector4.zero).
Proof.
  destruct v as [x y z w].
  unfold CVector4.length, CVector4.eq, CVector4.zero.
  cbn [CVector4.x CVector4.y CVector4.z CVector4.w].
  assert (Hs : 0 <= x * x + y * y + z * z + w * w) by nra.
  split.
  - apply Qle_lteq in Hs. destruct Hs as [Hs | Hs].
    + apply Qlt_le_weak. apply sqrt_positive. exact Hs.
    + rewrite sqrt_nonpositive by lra. lra.
  - rewrite sqrt_zero_iff. split.
    + intro H. apply sum_of_squares_zero. lra.
    + intros [Hx [Hy [Hz Hw]]]. rewrite Hx, Hy, Hz, Hw. lra.
Qed.

(** X9: in exact arithmetic, [length()] is never negative, and it is [0]
    for the zero vector only: the guard [len == 0] of [normalized()] and
    [normalize()] selects exactly the zero vector. *)
Theorem length_zero_only_for_zero_vector :
  (forall v : CVector2.t,
      0 <= CVector2.length v /\
      (CVector2.length v == 0 <-> CVector2.eq v CVector2.zero)) /\
  (forall v : CVector3.t,
      0 <= CVector3.length v /\
      (CVector3.length v == 0 <-> CVector3.eq v CVector3.zero)) /\
  (forall v : CVector4.t,
      0 <= CVector4.length v /\
      (CVector4.length v == 0 <-> CVector4.eq v CVector4.zero)).
Proof.
  split; [exact CVector2_length_spec|].
  split; [exact CVector3_length_spec | exact CVector4_length_spec].
Qed.

(** ** Normalization *)

Lemma CVector2_normalized_spec (v : CVector2.t) :
  CVector2.eq (CVector2.mul (CVector2.normalized v) (CVector2.length v)) v /\
  CVector2.eq (CVector2.normalize v) (CVector2.normalized v).
Proof.
  destruct (CVector2_length_spec v) as [_ Hz].
  unfold CVector2.normalized, CVector2.normalize, CVector2.mul, CVector2.eq.
  destruct (Qeq_bool (CVector2.length v) 0) eqn:E.
  - apply Qeq_bool_iff in E. pose proof (proj1 Hz E) as [Hx Hy].
    cbn [CVector2.x CVector2.y CVector2.zero negb] in *.
    rewrite Hx, Hy. repeat split; ring.
  - apply Qeq_bool_false in E.
    cbn [CVector2.x CVector2.y negb].
    repeat split; try reflexivity; field; exact E.
Qed.

Lemma CVector3_normalized_spec (v : CVector3.t) :
  CVector3.eq (CVector3.mul (CVector3.normalized v) (CVector3.length v)) v /\
  CVector3.eq (CVector3.normalize v) (CVector3.normalized v).
Proof.
  destruct (CVector3_length_spec v) as [_ Hz].
  unfold CVector3.normalized, CVector3.normalize, CVector3.mul, CVector3.eq.
  destruct (Qeq_bool (CVector3.length v) 0) eqn:E.
  - apply Qeq_bool_iff in E. pose proof (proj1 Hz E) as [Hx [Hy Hz']].
    cbn [CVector3.x CVector3.y CVector3.z CVector3.zero negb] in *.
    rewrite Hx, Hy, Hz'. repeat split; ring.
  - apply Qeq_bool_false in E.
    cbn [CVector3.x CVector3.y CVector3.z negb].
    repeat split; try reflexivity; field; exact E.
Qed.

Lemma CVector4_normalized_spec (v : CVector4.t) :
  CVector4.eq (CVector4.mul (CVector4.normalized v) (CVector4.length v)) v /\
  CVector4.eq (CVector4.normalize v) (CVector4.normalized v).
Proof.
  destruct (CVector4_length_spec v) as [_ Hz].
  unfold CVector4.normalized, CVector4.normalize, CVector4.mul, CVector4.eq.
  destruct (Qeq_bool (CVector4.length v) 0) eqn:E.
  - apply Qeq_bool_iff in E. pose proof (proj1 Hz E) as [Hx [Hy [Hz' Hw]]].
    cbn [CVector4.x CVector4.y CVector4.z CVector4.w CVector4.zero negb] in *.
    rewrite Hx, Hy, Hz', Hw. repeat split; ring.
  - apply Qeq_bool_false in E.
    cbn [CVector4.x CVector4.y CVector4.z CVector4.w negb].
    repeat split; try reflexivity; field; exact E.
Qed.

(** X10: in exact arithmetic, for every vector, the zero vector included,
    [normalized()] times [length()] restores the vector: [normalized()]
    is the vector divided by its length, and the zero vector where that
    length is [0]; it never divides by zero.  The in-place [normalize()]
    produces the same components. *)
Theorem normalized_times_length_restores :
  (forall v : CVector2.t,
      CVector2.eq (CVector2.mul (CVector2.normalized v) (CVector2.length v)) v /\
      CVector2.eq (CVector2.normalize v) (CVector2.normalized v)) /\
  (forall v : CVector3.t,
      CVector3.eq (CVector3.mul (CVector3.normalized v) (CVector3.length v)) v /\
      CVector3.eq (CVector3.normalize v) (CVector3.normalized v)) /\
  (forall v : CVector4.t,
      CVector4.eq (CVector4.mul (CVector4.normalized v) (CVector4.length v)) v /\
      CVector4.eq (CVector4.normalize v) (CVector4.normalized v)).
Proof.
  split; [exact CVector2_normalized_spec|].
  split; [exact CVector3_normalized_spec | exact CVector4_normalized_spec].
Qed.

(** ** Distances *)

Lemma CVector2_distance_spec (a b : CVector2.t) :
  CVector2.distance a b == CVector2.distance b a /\
  (CVector2.distance a b == 0 <-> CVector2.eq a b) /\
  EngineMath.distance (CVector2.x a) (CVector2.y a) (CVector2.x b) (CVector2.y b)
    == CVector2.distance a b.
Proof.
  destruct a as [ax ay], b as [bx by_].
  unfold CVector2.distance, EngineMath.distance.
  split; [|split].
  - unfold CVector2.length, CVector2.sub. cbn [CVector2.x CVector2.y].
    apply sqrt_respects_Qeq. ring.
  - destruct (CVector2_length_spec (CVector2.sub (CVector2.mk ax ay)
                                                 (CVector2.mk bx by_))) as [_ Hz].
    rewrite Hz. unfold CVector2.eq, CVector2.sub, CVector2.zero.
    cbn [CVector2.x CVector2.y]. split; intros [H1 H2]; split; lra.
  - unfold CVector2.length, CVector2.sub. cbn [CVector2.x CVector2.y].
    apply sqrt_respects_Qeq. ring.
Qed.

Lemma CVector3_distance_spec (a b : CVector3.t) :
  CVector3.distance a b == CVector3.distance b a /\
  (CVector3.distance a b == 0 <-> CVector3.eq a b).
Proof.
  destruct a as [ax ay az], b as [bx by_ bz].
  unfold CVector3.distance.
  split.
  - unfold CVector3.length, CVector3.sub. cbn [CVector3.x CVector3.y CVector3.z].
    apply sqrt_respects_Qeq. ring.
  - destruct (CVector3_length_spec (CVector3.sub (CVector3.mk ax ay az)
                                                 (CVector3.mk bx by_ bz))) as [_ Hz].
    rewrite Hz. unfold CVector3.eq, CVector3.sub, CVector3.zero.
    cbn [CVector3.x CVector3.y CVector3.z].
    split; intros [H1 [H2 H3]]; repeat split; lra.
Qed.

Lemma CVector4_distance_spec (a b : CVector4.t) :
  CVector4.distance a b == CVector4.distance b a /\
  (CVector4.distance a b == 0 <-> CVector4.eq a b).
Proof.
  destruct a as [ax ay az aw], b as [bx by_ bz bw].
  unfold CVector4.distance.
  split.
  - unfold CVector4.length, CVector4.sub.
    cbn [CVector4.x CVector4.y CVector4.z CVector4.w].
    apply sqrt_respects_Qeq. ring.
  - destruct (CVector4_length_spec (CVector4.sub (CVector4.mk ax ay az aw)
                                                 (CVector4.mk bx by_ bz bw)))
      as [_ Hz].
    rewrite Hz. unfold CVector4.eq, CVector4.sub, CVector4.zero.
    cbn [CVector4.x CVector4.y CVector4.z CVector4.w].
    split; intros [H1 [H2 [H3 H4]]]; repeat split; lra.
Qed.

(** X11: in exact arithmetic, the distance of two points does not depend
    on their order and is [0] for equal points only, for [CVector2],
    [CVector3] and [CVector4]; the scalar [EngineMath::distance] of the
    coordinates is [CVector2::distance] of the points. *)
Theorem distance_symmetric_and_separating :
  (forall a b : CVector2.t,
      CVector2.distance a b == CVector2.distance b a /\
      (CVector2.distance a b == 0 <-> CVector2.eq a b) /\
      EngineMath.distance (CVector2.x a) (CVector2.y a)
                          (CVector2.x b) (CVector2.y b)
        == CVector2.distance a b) /\
  (forall a b : CVector3.t,
      CVector3.distance a b == CVector3.distance b a /\
      (CVector3.distance a b == 0 <-> CVector3.eq a b)) /\
  (forall a b : CVector4.t,
      CVector4.distance a b == CVector4.distance b a /\
      (CVector4.distance a b == 0 <-> CVector4.eq a b)).
Proof.
  split; [exact CVector2_distance_spec|].
  split; [exact CVector3_distance_spec | exact CVector4_distance_spec].
Qed.

(** ** Dot and cross products *)

Lemma CVector3_cross_spec (a b : CVector3.t) :
  CVector3.eq (CVector3.cross a b) (CVector3.mul (CVector3.cross b a) (-1)) /\
  CVector3.dot (CVector3.cross a b) a == 0 /\
  CVector3.dot (CVector3.cross a b) b == 0 /\
  CVector3.lengthSquared (CVector3.cross a b)
    == CVector3.lengthSquared a * CVector3.lengthSquared b
       - CVector3.dot a b * CVector3.dot a b /\
  CVector3.dot a b * CVector3.dot a b
    <= CVector3.lengthSquared a * CVector3.lengthSquared b.
Proof.
  destruct a as [ax ay az], b as [bx by_ bz].
  unfold CVector3.eq, CVector3.cross, CVector3.mul, CVector3.dot,
    CVector3.lengthSquared.
  cbn [CVector3.x CVector3.y CVector3.z].
  assert (L : (ay * bz - az * by_) * (ay * bz - az * by_)
              + (az * bx - ax * bz) * (az * bx - ax * bz)
              + (ax * by_ - ay * bx) * (ax * by_ - ay * bx)
              == (ax * ax + ay * ay + az * az) * (bx * bx + by_ * by_ + bz * bz)
                 - (ax * bx + ay * by_ + az * bz) * (ax * bx + ay * by_ + az * bz))
    by ring.
  split; [repeat split; ring|].
  split; [ring|]. split; [ring|]. split; [exact L|].
  assert (Sq : forall q : Q, 0 <= q * q) by (intro q; nra).
  pose proof (Sq (ay * bz - az * by_)) as H1.
  pose proof (Sq (az * bx - ax * bz)) as H2.
  pose proof (Sq (ax * by_ - ay * bx)) as H3.
  lra.
Qed.

Lemma CVector2_cross_spec (a b : CVector2.t) :
  CVector2.cross a b == - CVector2.cross b a /\
  CVector2.cross a b * CVector2.cross a b + CVector2.dot a b * CVector2.dot a b
    == CVector2.lengthSquared a * CVector2.lengthSquared b /\
  CVector2.cross a a == 0.
Proof.
  destruct a as [ax ay], b as [bx by_].
  unfold CVector2.cross, CVector2.dot, CVector2.lengthSquared, CVector2.mul.
  cbn [CVector2.x CVector2.y].
  repeat split; ring.
Qed.

(** X12: in exact arithmetic, the cross product of [CVector3] changes sign
    when its arguments are exchanged, is orthogonal to both arguments, and
    satisfies the identity of Lagrange, from which the inequality of
    Cauchy and Schwarz for [dot] follows.  The scalar cross product of [CVector2] changes sign when its
    arguments are exchanged, it is [0] for a vector with itself, and its
    square and the square of [dot] add up to the product of the squared
    lengths. *)
Theorem cross_product_laws :
  (forall a b : CVector3.t,
      CVector3.eq (CVector3.cross a b) (CVector3.mul (CVector3.cross b a) (-1)) /\
      CVector3.dot (CVector3.cross a b) a == 0 /\
      CVector3.dot (CVector3.cross a b) b == 0 /\
      CVector3.lengthSquared (CVector3.cross a b)
        == CVector3.lengthSquared a * CVector3.lengthSquared b
           - CVector3.dot a b * CVector3.dot a b /\
      CVector3.dot a b * CVector3.dot a b
        <= CVector3.lengthSquared a * CVector3.lengthSquared b) /\
  (forall a b : CVector2.t,
      CVector2.cross a b == - CVector2.cross b a /\
      CVector2.cross a b * CVector2.cross a b
        + CVector2.dot a b * CVector2.dot a b
        == CVector2.lengthSquared a * CVector2.lengthSquared b /\
      CVector2.cross a a == 0).
Proof.
  split; [exact CVector3_cross_spec | exact CVector2_cross_spec].
Qed.

(** ** Interpolation of vectors *)

Lemma clamp01_low (t : Q) : t <= 0 -> clamp01 t == 0.
Proof.
  intro Ht. unfold clamp01.
  rewrite Q.max_l; [reflexivity|].
  apply Q.min_le_iff. right. exact Ht.
Qed.

Lemma clamp01_high (t : Q) : 1 <= t -> clamp01 t == 1.
Proof.
  intro Ht. unfold clamp01.
  rewrite Q.min_l by exact Ht. rewrite Q.max_r by lra. reflexivity.
Qed.

Lemma clamp01_range (t : Q) : 0 <= clamp01 t <= 1.
Proof.
  unfold clamp01. split.
  - apply Q.le_max_l.
  - apply Q.max_lub; [lra | apply Q.le_min_l].
Qed.

(** X13: in exact arithmetic, [lerp(a, b, t)] of vectors returns [a] for
    every [t <= 0] and [b] for every [t >= 1], and in between each
    component stays between the components of [a] and [b]: the result
    never leaves the segment. *)
Theorem vector_lerp_stays_on_segment :
  (forall (a b : CVector2.t) (t : Q),
      (t <= 0 -> CVector2.eq (CVector2.lerp a b t) a) /\
      (1 <= t -> CVector2.eq (CVector2.lerp a b t) b) /\
      Qmin (CVector2.x a) (CVector2.x b) <= CVector2.x (CVector2.lerp a b t)
        <= Qmax (CVector2.x a) (CVector2.x b) /\
      Qmin (CVector2.y a) (CVector2.y b) <= CVector2.y (CVector2.lerp a b t)
        <= Qmax (CVector2.y a) (CVector2.y b)) /\
  (forall (a b : CVector3.t) (t : Q),
      (t <= 0 -> CVector3.eq (CVector3.lerp a b t) a) /\
      (1 <= t -> CVector3.eq (CVector3.lerp a b t) b) /\
      Qmin (CVector3.x a) (CVector3.x b) <= CVector3.x (CVector3.lerp a b t)
        <= Qmax (CVector3.x a) (CVector3.x b) /\
      Qmin (CVector3.y a) (CVector3.y b) <= CVector3.y (CVector3.lerp a b t)
        <= Qmax (CVector3.y a) (CVector3.y b) /\
      Qmin (CVector3.z a) (CVector3.z b) <= CVector3.z (CVector3.lerp a b t)
        <= Qmax (CVector3.z a) (CVector3.z b)) /\
  (forall (a b : CVector4.t) (t : Q),
      (t <= 0 -> CVector4.eq (CVector4.lerp a b t) a) /\
      (1 <= t -> CVector4.eq (CVector4.lerp a b t) b) /\
      Qmin (CVector4.x a) (CVector4.x b) <= CVector4.x (CVector4.lerp a b t)
        <= Qmax (CVector4.x a) (CVector4.x b) /\
      Qmin (CVector4.y a) (CVector4.y b) <= CVector4.y (CVector4.lerp a b t)
        <= Qmax (CVector4.y a) (CVector4.y b) /\
      Qmin (CVector4.z a) (CVector4.z b) <= CVector4.z (CVector4.lerp a b t)
        <= Qmax (CVector4.z a) (CVector4.z b) /\
      Qmin (CVector4.w a) (CVector4.w b) <= CVector4.w (CVector4.lerp a b t)
        <= Qmax (CVector4.w a) (CVector4.w b)).
Proof.
  assert (Seg : forall p q c : Q, 0 <= c <= 1 ->
                  Qmin p q <= p + (q - p) * c <= Qmax p q).
  { intros p q c [Hc0 Hc1].
    destruct (Qlt_le_dec p q) as [Hpq | Hpq].
    - rewrite Q.min_l, Q.max_r by lra. split; nra.
    - rewrite Q.min_r, Q.max_l by lra. split; nra. }
  split; [|split]; intros a b t.
  - destruct (CVector2_lerp_clamps a b t) as [Hx Hy].
    unfold CVector2.eq. rewrite Hx, Hy.
    split; [|split].
    + intro Ht. rewrite (clamp01_low t Ht). split; ring.
    + intro Ht. rewrite (clamp01_high t Ht). split; ring.
    + split; apply Seg; apply clamp01_range.
  - destruct (CVector3_lerp_clamps a b t) as [Hx [Hy Hz]].
    unfold CVector3.eq. rewrite Hx, Hy, Hz.
    split; [|split].
    + intro Ht. rewrite (clamp01_low t Ht). repeat split; ring.
    + intro Ht. rewrite (clamp01_high t Ht). repeat split; ring.
    + split; [|split]; apply Seg; apply clamp01_range.
  - destruct (CVector4_lerp_clamps a b t) as [Hx [Hy [Hz Hw]]].
    unfold CVector4.eq. rewrite Hx, Hy, Hz, Hw.
    split; [|split].
    + intro Ht. rewrite (clamp01_low t Ht). repeat split; ring.
    + intro Ht. rewrite (clamp01_high t Ht). repeat split; ring.
    + split; [|split; [|split]]; apply Seg; apply clamp01_range.
Qed.

Lemma vector_lerp_stays_on_segment_witness :
  CVector2.eq (CVector2.lerp (CVector2.mk 1 2) (CVector2.mk 3 4) (-5))
              (CVector2.mk 1 2) /\
  CVector3.eq (CVector3.lerp (CVector3.mk 1 2 3) (CVector3.mk 4 5 6) 7)
              (CVector3.mk 4 5 6).
Proof.
  destruct vector_lerp_stays_on_segment as [H2 [H3 _]].
  split.
  - apply (proj1 (H2 (CVector2.mk 1 2) (CVector2.mk 3 4) (-5))). discriminate.
  - apply (proj1 (proj2 (H3 (CVector3.mk 1 2 3) (CVector3.mk 4 5 6) 7))).
    discriminate.
Defined.

(** ** Indexed access to [CVector4] *)

(** X14: [CVector4::operator[]] returns [x], [y], [z] for the indices [0], [1],
    [2], and [w] for every other index, [3] and every index out of range,
    negative ones included. *)
Theorem CVector4_index_default_is_w (v : CVector4.t) (i : Z) :
  (CVector4.index v 0 = CVector4.x v /\ CVector4.index v 1 = CVector4.y v /\
   CVector4.index v 2 = CVector4.z v) /\
  (~ (0 <= i <= 2)%Z -> CVector4.index v i = CVector4.w v).
Proof.
  split; [repeat split; reflexivity|].
  intro Hi. unfold CVector4.index.
  destruct i as [|[p|[p|p|]|]|p]; try reflexivity; lia.
Qed.

Lemma CVector4_index_default_is_w_witness :
  CVector4.index (CVector4.mk 5 6 7 8) (-1) = 8 /\
  CVector4.index (CVector4.mk 5 6 7 8) 4 = 8.
Proof.
  split.
  - apply (proj2 (CVector4_index_default_is_w (CVector4.mk 5 6 7 8) (-1))). lia.
  - apply (proj2 (CVector4_index_default_is_w (CVector4.mk 5 6 7 8) 4)). lia.
Defined.

(** ** Matrix products *)

(** Entry [(i, j)] of a product is the sum over [k] of [a[i][k] * b[k][j]],
    added up from [0] in the order of the loop. *)
Lemma Matrix2x2_mul_entry (A B : Matrix2x2.t) (i j : Z) :
  (0 <= i < 2)%Z -> (0 <= j < 2)%Z ->
  Matrix2x2.m (Matrix2x2.mul A B) i j
  = 0 + Matrix2x2.m A i 0 * Matrix2x2.m B 0 j
      + Matrix2x2.m A i 1 * Matrix2x2.m B 1 j.
Proof.
  intros Hi Hj. index_cases i; index_cases j; reflexivity.
Qed.

Lemma Matrix3x3_mul_entry (A B : Matrix3x3.t) (i j : Z) :
  (0 <= i < 3)%Z -> (0 <= j < 3)%Z ->
  Matrix3x3.m (Matrix3x3.mul A B) i j
  = 0 + Matrix3x3.m A i 0 * Matrix3x3.m B 0 j
      + Matrix3x3.m A i 1 * Matrix3x3.m B 1 j
      + Matrix3x3.m A i 2 * Matrix3x3.m B 2 j.
Proof.
  intros Hi Hj. index_cases i; index_cases j; reflexivity.
Qed.

Lemma Matrix4x4_mul_entry (A B : Matrix4x4.t) (i j : Z) :
  (0 <= i < 4)%Z -> (0 <= j < 4)%Z ->
  Matrix4x4.m (Matrix4x4.mul A B) i j
  = 0 + Matrix4x4.m A i 0 * Matrix4x4.m B 0 j
      + Matrix4x4.m A i 1 * Matrix4x4.m B 1 j
      + Matrix4x4.m A i 2 * Matrix4x4.m B 2 j
      + Matrix4x4.m A i 3 * Matrix4x4.m B 3 j.
Proof.
  intros Hi Hj. index_cases i; index_cases j; reflexivity.
Qed.

(** Rewrites the entries of products, inside products as well. *)
Ltac mul_entries :=
  repeat (first
    [ rewrite Matrix2x2_mul_entry by lia
    | rewrite Matrix3x3_mul_entry by lia
    | rewrite Matrix4x4_mul_entry by lia ]).

Lemma Matrix_mul_assoc :
  (forall A B C : Matrix2x2.t,
      Matrix2x2.eq (Matrix2x2.mul (Matrix2x2.mul A B) C)
                   (Matrix2x2.mul A (Matrix2x2.mul B C))) /\
  (forall A B C : Matrix3x3.t,
      Matrix3x3.eq (Matrix3x3.mul (Matrix3x3.mul A B) C)
                   (Matrix3x3.mul A (Matrix3x3.mul B C))) /\
  (forall A B C : Matrix4x4.t,
      Matrix4x4.eq (Matrix4x4.mul (Matrix4x4.mul A B) C)
                   (Matrix4x4.mul A (Matrix4x4.mul B C))).
Proof.
  split; [|split]; intros A B C i j Hi Hj; mul_entries; ring.
Qed.

Lemma Matrix_mul_identity :
  (forall M : Matrix2x2.t,
      Matrix2x2.eq (Matrix2x2.mul M Matrix2x2.identity) M /\
      Matrix2x2.eq (Matrix2x2.mul Matrix2x2.identity M) M) /\
  (forall M : Matrix3x3.t,
      Matrix3x3.eq (Matrix3x3.mul M Matrix3x3.identity) M /\
      Matrix3x3.eq (Matrix3x3.mul Matrix3x3.identity M) M) /\
  (forall M : Matrix4x4.t,
      Matrix4x4.eq (Matrix4x4.mul M Matrix4x4.identity) M /\
      Matrix4x4.eq (Matrix4x4.mul Matrix4x4.identity M) M).
Proof.
  split; [|split]; intro M; split; intros i j Hi Hj; mul_entries;
    index_cases i; index_cases j;
    cbv [Matrix2x2.identity Matrix2x2.default Matrix2x2.setIdentity
         Matrix3x3.identity Matrix3x3.make
         Matrix4x4.identity Matrix4x4.make
         Matrix2x2.m Matrix3x3.m Matrix4x4.m
         aset indeterminate andb Z.eqb Pos.eqb];
    ring.
Qed.

(** X15: in exact arithmetic, the matrix product is associative, and the
    identity matrix is neutral for it on both sides, for each of the
    three sizes:
    [Matrix2x2::identity()], [Matrix3x3::identity()] and
    [Matrix4x4::identity()]. *)
Theorem matrix_mul_monoid_laws :
  ((forall A B C : Matrix2x2.t,
       Matrix2x2.eq (Matrix2x2.mul (Matrix2x2.mul A B) C)
                    (Matrix2x2.mul A (Matrix2x2.mul B C))) /\
   (forall A B C : Matrix3x3.t,
       Matrix3x3.eq (Matrix3x3.mul (Matrix3x3.mul A B) C)
                    (Matrix3x3.mul A (Matrix3x3.mul B C))) /\
   (forall A B C : Matrix4x4.t,
       Matrix4x4.eq (Matrix4x4.mul (Matrix4x4.mul A B) C)
                    (Matrix4x4.mul A (Matrix4x4.mul B C)))) /\
  ((forall M : Matrix2x2.t,
       Matrix2x2.eq (Matrix2x2.mul M Matrix2x2.identity) M /\
       Matrix2x2.eq (Matrix2x2.mul Matrix2x2.identity M) M) /\
   (forall M : Matrix3x3.t,
       Matrix3x3.eq (Matrix3x3.mul M Matrix3x3.identity) M /\
       Matrix3x3.eq (Matrix3x3.mul Matrix3x3.identity M) M) /\
   (forall M : Matrix4x4.t,
       Matrix4x4.eq (Matrix4x4.mul M Matrix4x4.identity) M /\
       Matrix4x4.eq (Matrix4x4.mul Matrix4x4.identity M) M)).
Proof.
  split; [exact Matrix_mul_assoc | exact Matrix_mul_identity].
Qed.

(** ** Determinant and transpose *)

(** X16: in exact arithmetic, the determinant of a product is the product
    of the determinants, and transposing does not change the determinant,
    for [Matrix2x2] and [Matrix3x3]. *)
Theorem determinant_multiplicative :
  (forall A B : Matrix2x2.t,
      Matrix2x2.determinant (Matrix2x2.mul A B)
        == Matrix2x2.determinant A * Matrix2x2.determinant B /\
      Matrix2x2.determinant (Matrix2x2.transpose A)
        == Matrix2x2.determinant A) /\
  (forall A B : Matrix3x3.t,
      Matrix3x3.determinant (Matrix3x3.mul A B)
        == Matrix3x3.determinant A * Matrix3x3.determinant B /\
      Matrix3x3.determinant (Matrix3x3.transpose A)
        == Matrix3x3.determinant A).
Proof.
  split; intros A B; split.
  - unfold Matrix2x2.determinant. mul_entries. ring.
  - destruct A as [a]. run_matrix. ring.
  - unfold Matrix3x3.determinant. mul_entries. ring.
  - destruct A as [a]. run_matrix. ring.
Qed.

Lemma Matrix2x2_transpose_entry (M : Matrix2x2.t) (i j : Z) :
  (0 <= i < 2)%Z -> (0 <= j < 2)%Z ->
  Matrix2x2.m (Matrix2x2.transpose M) i j = Matrix2x2.m M j i.
Proof.
  intros Hi Hj. index_cases i; index_cases j; reflexivity.
Qed.

Lemma Matrix3x3_transpose_entry (M : Matrix3x3.t) (i j : Z) :
  (0 <= i < 3)%Z -> (0 <= j < 3)%Z ->
  Matrix3x3.m (Matrix3x3.transpose M) i j = Matrix3x3.m M j i.
Proof.
  intros Hi Hj. index_cases i; index_cases j; reflexivity.
Qed.

Lemma Matrix4x4_transpose_entry (M : Matrix4x4.t) (i j : Z) :
  (0 <= i < 4)%Z -> (0 <= j < 4)%Z ->
  Matrix4x4.m (Matrix4x4.transpose M) i j = Matrix4x4.m M j i.
Proof.
  intros Hi Hj. index_cases i; index_cases j; reflexivity.
Qed.

Ltac transpose_entries :=
  repeat (first
    [ rewrite Matrix2x2_transpose_entry by lia
    | rewrite Matrix3x3_transpose_entry by lia
    | rewrite Matrix4x4_transpose_entry by lia ]).

(** X17: Transposing twice restores the matrix, and the transpose of a product
    is the product of the transposes in the opposite order. *)
Theorem transpose_laws :
  (forall A B : Matrix2x2.t,
      Matrix2x2.eq (Matrix2x2.transpose (Matrix2x2.transpose A)) A /\
      Matrix2x2.eq (Matrix2x2.transpose (Matrix2x2.mul A B))
                   (Matrix2x2.mul (Matrix2x2.transpose B) (Matrix2x2.transpose A))) /\
  (forall A B : Matrix3x3.t,
      Matrix3x3.eq (Matrix3x3.transpose (Matrix3x3.transpose A)) A /\
      Matrix3x3.eq (Matrix3x3.transpose (Matrix3x3.mul A B))
                   (Matrix3x3.mul (Matrix3x3.transpose B) (Matrix3x3.transpose A))) /\
  (forall A B : Matrix4x4.t,
      Matrix4x4.eq (Matrix4x4.transpose (Matrix4x4.transpose A)) A /\
      Matrix4x4.eq (Matrix4x4.transpose (Matrix4x4.mul A B))
                   (Matrix4x4.mul (Matrix4x4.transpose B) (Matrix4x4.transpose A))).
Proof.
  split; [|split]; intros A B; split; intros i j Hi Hj;
    transpose_entries; mul_entries; transpose_entries; ring.
Qed.

(** ** Entrywise arithmetic of [Matrix4x4] *)

(** X18: [operator+], [operator-] and [operator*(float)] of [Matrix4x4] build
    their result in a default-constructed matrix and assign all sixteen
    entries: every entry of the result, the last row included, is the sum,
    difference or multiple of the entries of the operands, and nothing of
    the default-constructed matrix is left. *)
Theorem Matrix4x4_arithmetic_entrywise (A B : Matrix4x4.t) (sca : Q) (i j : Z) :
  (0 <= i < 4)%Z -> (0 <= j < 4)%Z ->
  Matrix4x4.m (Matrix4x4.add A B) i j = Matrix4x4.m A i j + Matrix4x4.m B i j /\
  Matrix4x4.m (Matrix4x4.sub A B) i j = Matrix4x4.m A i j - Matrix4x4.m B i j /\
  Matrix4x4.m (Matrix4x4.mul_scalar A sca) i j = Matrix4x4.m A i j * sca.
Proof.
  intros Hi Hj. index_cases i; index_cases j; repeat split; reflexivity.
Qed.

Lemma Matrix4x4_arithmetic_entrywise_witness :
  Matrix4x4.m (Matrix4x4.add Matrix4x4.identity Matrix4x4.identity) 3 3
  = Matrix4x4.m Matrix4x4.identity 3 3 + Matrix4x4.m Matrix4x4.identity 3 3.
Proof.
  apply (Matrix4x4_arithmetic_entrywise
           Matrix4x4.identity Matrix4x4.identity 1 3 3); lia.
Defined.

(** ** Translation and scaling matrices *)

Lemma Matrix4x4_setTranslation_entries (M : Matrix4x4.t) (tx ty tz : Q) (i j : Z) :
  (0 <= i < 4)%Z -> (0 <= j < 4)%Z ->
  Matrix4x4.m (Matrix4x4.setTranslation M tx ty tz) i j
  = Matrix4x4.m (Matrix4x4.make 1 0 0 tx  0 1 0 ty  0 0 1 tz  0 0 0 1) i j.
Proof.
  intros Hi Hj. index_cases i; index_cases j; reflexivity.
Qed.

Lemma Matrix4x4_setScale_entries (M : Matrix4x4.t) (sx sy sz : Q) (i j : Z) :
  (0 <= i < 4)%Z -> (0 <= j < 4)%Z ->
  Matrix4x4.m (Matrix4x4.setScale M sx sy sz) i j
  = Matrix4x4.m (Matrix4x4.make sx 0 0 0  0 sy 0 0  0 0 sz 0  0 0 0 1) i j.
Proof.
  intros Hi Hj. index_cases i; index_cases j; reflexivity.
Qed.

(** X19: Whatever the matrix held before, [setTranslation(tx, ty, tz)] makes it
    move every point by [(tx, ty, tz)] and [setScale(sx, sy, sz)] makes it
    scale every point componentwise; translations compose by adding their
    offsets and scalings by multiplying their factors. *)
Theorem Matrix4x4_translation_and_scale (M M' : Matrix4x4.t)
    (a b c a' b' c' : Q) (v : CVector3.t) :
  CVector3.eq (Matrix4x4.mul_v3 (Matrix4x4.setTranslation M a b c) v)
              (CVector3.add v (CVector3.mk a b c)) /\
  CVector3.eq (Matrix4x4.mul_v3 (Matrix4x4.setScale M a b c) v)
              (CVector3.mk (a * CVector3.x v) (b * CVector3.y v)
                           (c * CVector3.z v)) /\
  Matrix4x4.eq (Matrix4x4.mul (Matrix4x4.setTranslation M a b c)
                              (Matrix4x4.setTranslation M' a' b' c'))
               (Matrix4x4.setTranslation M (a + a') (b + b') (c + c')) /\
  Matrix4x4.eq (Matrix4x4.mul (Matrix4x4.setScale M a b c)
                              (Matrix4x4.setScale M' a' b' c'))
               (Matrix4x4.setScale M (a * a') (b * b') (c * c')).
Proof.
  split; [|split; [|split]].
  - unfold Matrix4x4.mul_v3.
    rewrite !Matrix4x4_setTranslation_entries by lia.
    destruct v as [x y z].
    cbv [Matrix4x4.make Matrix4x4.m aset indeterminate andb Z.eqb Pos.eqb
         CVector3.x CVector3.y CVector3.z].
    assert (Hw : Qeq_bool (0 * x + 0 * y + 0 * z + 1) 0 = false)
      by (apply Qeq_bool_false; lra).
    rewrite Hw. unfold CVector3.eq, CVector3.add. cbn.
    repeat split; field; lra.
  - unfold Matrix4x4.mul_v3.
    rewrite !Matrix4x4_setScale_entries by lia.
    destruct v as [x y z].
    cbv [Matrix4x4.make Matrix4x4.m aset indeterminate andb Z.eqb Pos.eqb
         CVector3.x CVector3.y CVector3.z].
    assert (Hw : Qeq_bool (0 * x + 0 * y + 0 * z + 1) 0 = false)
      by (apply Qeq_bool_false; lra).
    rewrite Hw. unfold CVector3.eq. cbn.
    repeat split; field; lra.
  - intros i j Hi Hj. mul_entries.
    rewrite !Matrix4x4_setTranslation_entries by lia.
    index_cases i; index_cases j;
      cbv [Matrix4x4.make Matrix4x4.m aset indeterminate andb Z.eqb Pos.eqb];
      ring.
  - intros i j Hi Hj. mul_entries.
    rewrite !Matrix4x4_setScale_entries by lia.
    index_cases i; index_cases j;
      cbv [Matrix4x4.make Matrix4x4.m aset indeterminate andb Z.eqb Pos.eqb];
      ring.
Qed.

(** ** Matrices acting on vectors *)

(** X20: in exact arithmetic, applying a product of matrices to a vector
    is applying the factors one after the other, right factor first, for
    the linear maps
    [Matrix2x2 * CVector2], [Matrix3x3 * CVector3] and
    [Matrix4x4 * CVector4]; and the identity matrix maps every vector to
    itself. *)
Theorem matrix_vector_product_composes :
  (forall (A B : Matrix2x2.t) (v : CVector2.t),
      CVector2.eq (Matrix2x2.mul_v2 (Matrix2x2.mul A B) v)
                  (Matrix2x2.mul_v2 A (Matrix2x2.mul_v2 B v)) /\
      CVector2.eq (Matrix2x2.mul_v2 Matrix2x2.identity v) v) /\
  (forall (A B : Matrix3x3.t) (v : CVector3.t),
      CVector3.eq (Matrix3x3.mul_v3 (Matrix3x3.mul A B) v)
                  (Matrix3x3.mul_v3 A (Matrix3x3.mul_v3 B v)) /\
      CVector3.eq (Matrix3x3.mul_v3 Matrix3x3.identity v) v) /\
  (forall (A B : Matrix4x4.t) (v : CVector4.t),
      CVector4.eq (Matrix4x4.mul_v4 (Matrix4x4.mul A B) v)
                  (Matrix4x4.mul_v4 A (Matrix4x4.mul_v4 B v)) /\
      CVector4.eq (Matrix4x4.mul_v4 Matrix4x4.identity v) v).
Proof.
  split; [|split]; intros A B v; split.
  - unfold Matrix2x2.mul_v2, CVector2.eq. cbn [CVector2.x CVector2.y].
    mul_entries. split; ring.
  - unfold Matrix2x2.mul_v2, CVector2.eq. cbn. split; ring.
  - unfold Matrix3x3.mul_v3, CVector3.eq. cbn [CVector3.x CVector3.y CVector3.z].
    mul_entries. repeat split; ring.
  - unfold Matrix3x3.mul_v3, CVector3.eq. cbn. repeat split; ring.
  - unfold Matrix4x4.mul_v4, CVector4.eq.
    cbn [CVector4.x CVector4.y CVector4.z CVector4.w].
    mul_entries. repeat split; ring.
  - unfold Matrix4x4.mul_v4, CVector4.eq. cbn. repeat split; ring.
Qed.

(** The default-constructed [Matrix4x4] is not neutral on vectors: it
    copies [z] into the fourth component. *)
Lemma Matrix4x4_default_on_vectors (v : CVector4.t) :
  CVector4.eq (Matrix4x4.mul_v4 Matrix4x4.default v)
              (CVector4.mk (CVector4.x v) (CVector4.y v) (CVector4.z v)
                           (CVector4.z v)).
Proof.
  unfold Matrix4x4.mul_v4, CVector4.eq. cbn. repeat split; ring.
Qed.

(** An affine matrix sends a point through the homogeneous product with
    [w = 1], without a division that changes it. *)
Lemma affine3_mul_v2 (M : Matrix3x3.t) (v : CVector2.t) :
  affine3 M ->
  CVector2.x (Matrix3x3.mul_v2 M v)
    == Matrix3x3.m M 0 0 * CVector2.x v + Matrix3x3.m M 0 1 * CVector2.y v
       + Matrix3x3.m M 0 2 /\
  CVector2.y (Matrix3x3.mul_v2 M v)
    == Matrix3x3.m M 1 0 * CVector2.x v + Matrix3x3.m M 1 1 * CVector2.y v
       + Matrix3x3.m M 1 2.
Proof.
  intros [H0 [H1 H2]]. unfold Matrix3x3.mul_v2.
  set (w := Matrix3x3.m M 2 0 * CVector2.x v + Matrix3x3.m M 2 1 * CVector2.y v
            + Matrix3x3.m M 2 2 * 1).
  assert (Hw : w == 1) by (unfold w; rewrite H0, H1, H2; ring).
  assert (Hb : Qeq_bool w 0 = false) by (apply Qeq_bool_false; lra).
  rewrite Hb. cbn [CVector2.x CVector2.y negb]. rewrite Hw. split; field.
Qed.

Lemma affine4_mul_v3 (M : Matrix4x4.t) (v : CVector3.t) :
  affine4 M ->
  CVector3.x (Matrix4x4.mul_v3 M v)
    == Matrix4x4.m M 0 0 * CVector3.x v + Matrix4x4.m M 0 1 * CVector3.y v
       + Matrix4x4.m M 0 2 * CVector3.z v + Matrix4x4.m M 0 3 /\
  CVector3.y (Matrix4x4.mul_v3 M v)
    == Matrix4x4.m M 1 0 * CVector3.x v + Matrix4x4.m M 1 1 * CVector3.y v
       + Matrix4x4.m M 1 2 * CVector3.z v + Matrix4x4.m M 1 3 /\
  CVector3.z (Matrix4x4.mul_v3 M v)
    == Matrix4x4.m M 2 0 * CVector3.x v + Matrix4x4.m M 2 1 * CVector3.y v
       + Matrix4x4.m M 2 2 * CVector3.z v + Matrix4x4.m M 2 3.
Proof.
  intros [H0 [H1 [H2 H3]]]. unfold Matrix4x4.mul_v3.
  set (w := Matrix4x4.m M 3 0 * CVector3.x v + Matrix4x4.m M 3 1 * CVector3.y v
            + Matrix4x4.m M 3 2 * CVector3.z v + Matrix4x4.m M 3 3).
  assert (Hw : w == 1) by (unfold w; rewrite H0, H1, H2, H3; ring).
  assert (Hb : Qeq_bool w 0 = false) by (apply Qeq_bool_false; lra).
  rewrite Hb. cbn [CVector3.x CVector3.y CVector3.z negb]. rewrite Hw.
  repeat split; field.
Qed.

Lemma affine3_mul (A B : Matrix3x3.t) :
  affine3 A -> affine3 B -> affine3 (Matrix3x3.mul A B).
Proof.
  intros [A0 [A1 A2]] [B0 [B1 B2]]. unfold affine3. mul_entries.
  rewrite A0, A1, A2, B0, B1, B2. repeat split; ring.
Qed.

Lemma affine4_mul (A B : Matrix4x4.t) :
  affine4 A -> affine4 B -> affine4 (Matrix4x4.mul A B).
Proof.
  intros [A0 [A1 [A2 A3]]] [B0 [B1 [B2 B3]]]. unfold affine4. mul_entries.
  rewrite A0, A1, A2, A3, B0, B1, B2, B3. repeat split; ring.
Qed.

(** X21: in exact arithmetic, the homogeneous products
    [Matrix3x3 * CVector2] and [Matrix4x4 * CVector3] compose for affine
    matrices (last row
    [(0, ..., 0, 1)]): the product of two affine matrices is affine, and
    applying it to a point is applying the factors one after the
    other. *)
Theorem affine_transforms_compose :
  (forall (A B : Matrix3x3.t) (v : CVector2.t),
      affine3 A -> affine3 B ->
      affine3 (Matrix3x3.mul A B) /\
      CVector2.eq (Matrix3x3.mul_v2 (Matrix3x3.mul A B) v)
                  (Matrix3x3.mul_v2 A (Matrix3x3.mul_v2 B v))) /\
  (forall (A B : Matrix4x4.t) (v : CVector3.t),
      affine4 A -> affine4 B ->
      affine4 (Matrix4x4.mul A B) /\
      CVector3.eq (Matrix4x4.mul_v3 (Matrix4x4.mul A B) v)
                  (Matrix4x4.mul_v3 A (Matrix4x4.mul_v3 B v))).
Proof.
  split.
  - intros A B v HA HB.
    pose proof (affine3_mul A B HA HB) as HAB.
    split; [exact HAB|].
    destruct (affine3_mul_v2 (Matrix3x3.mul A B) v HAB) as [Lx Ly].
    destruct (affine3_mul_v2 B v HB) as [Bx By].
    destruct (affine3_mul_v2 A (Matrix3x3.mul_v2 B v) HA) as [Rx Ry].
    unfold CVector2.eq. rewrite Lx, Ly, Rx, Ry, Bx, By. mul_entries.
    destruct HB as [B0 [B1 B2]]. rewrite ?B0, ?B1, ?B2.
    split; ring.
  - intros A B v HA HB.
    pose proof (affine4_mul A B HA HB) as HAB.
    split; [exact HAB|].
    destruct (affine4_mul_v3 (Matrix4x4.mul A B) v HAB) as [Lx [Ly Lz]].
    destruct (affine4_mul_v3 B v HB) as [Bx [By Bz]].
    destruct (affine4_mul_v3 A (Matrix4x4.mul_v3 B v) HA) as [Rx [Ry Rz]].
    unfold CVector3.eq. rewrite Lx, Ly, Lz, Rx, Ry, Rz, Bx, By, Bz.
    mul_entries.
    destruct HB as [B0 [B1 [B2 B3]]]. rewrite ?B0, ?B1, ?B2, ?B3.
    repeat split; ring.
Qed.

Lemma affine_transforms_compose_witness :
  CVector2.eq
    (Matrix3x3.mul_v2 (Matrix3x3.mul sample_move3 sample_move3) (CVector2.mk 1 1))
    (Matrix3x3.mul_v2 sample_move3 (Matrix3x3.mul_v2 sample_move3 (CVector2.mk 1 1))) /\
  CVector3.eq
    (Matrix4x4.mul_v3 (Matrix4x4.mul sample_move4 sample_move4) (CVector3.mk 1 1 1))
    (Matrix4x4.mul_v3 sample_move4
       (Matrix4x4.mul_v3 sample_move4 (CVector3.mk 1 1 1))).
Proof.
  destruct affine_transforms_compose as [H3 H4].
  assert (A3 : affine3 sample_move3)
    by (unfold affine3; vm_compute; repeat split; reflexivity).
  assert (A4 : affine4 sample_move4)
    by (unfold affine4; vm_compute; repeat split; reflexivity).
  split.
  - exact (proj2 (H3 sample_move3 sample_move3 (CVector2.mk 1 1) A3 A3)).
  - exact (proj2 (H4 sample_move4 sample_move4 (CVector3.mk 1 1 1) A4 A4)).
Defined.

(** ** The inverse of [Matrix2x2] *)

Lemma Matrix2x2_inverse_nonsingular (M : Matrix2x2.t) :
  ~ Matrix2x2.determinant M == 0 ->
  Matrix2x2.inverse M
  = Matrix2x2.make
      (Matrix2x2.m M 1 1 * (1 / Matrix2x2.determinant M))
      (- Matrix2x2.m M 0 1 * (1 / Matrix2x2.determinant M))
      (- Matrix2x2.m M 1 0 * (1 / Matrix2x2.determinant M))
      (Matrix2x2.m M 0 0 * (1 / Matrix2x2.determinant M)).
Proof.
  intro Hdet. unfold Matrix2x2.inverse.
  apply Qeq_bool_false in Hdet. rewrite Hdet. reflexivity.
Qed.

Lemma Matrix2x2_determinant_inverse (M : Matrix2x2.t) :
  ~ Matrix2x2.determinant M == 0 ->
  Matrix2x2.determinant (Matrix2x2.inverse M) == 1 / Matrix2x2.determinant M.
Proof.
  intro Hdet. rewrite (Matrix2x2_inverse_nonsingular M Hdet).
  destruct M as [a]. run_matrix_in Hdet. run_matrix. field. exact Hdet.
Qed.

(** X22: in exact arithmetic, for a [Matrix2x2] of nonzero determinant,
    [inverse()] solves the linear system: it undoes the matrix on vectors, on either side; its
    determinant is the reciprocal; and inverting twice restores the
    matrix. *)
Theorem Matrix2x2_inverse_undoes (M : Matrix2x2.t) (v : CVector2.t) :
  ~ Matrix2x2.determinant M == 0 ->
  CVector2.eq (Matrix2x2.mul_v2 M (Matrix2x2.mul_v2 (Matrix2x2.inverse M) v)) v /\
  CVector2.eq (Matrix2x2.mul_v2 (Matrix2x2.inverse M) (Matrix2x2.mul_v2 M v)) v /\
  Matrix2x2.determinant (Matrix2x2.inverse M) == 1 / Matrix2x2.determinant M /\
  Matrix2x2.eq (Matrix2x2.inverse (Matrix2x2.inverse M)) M.
Proof.
  intro Hdet.
  pose proof (Matrix2x2_determinant_inverse M Hdet) as Hdi.
  assert (Hdet' : ~ Matrix2x2.determinant (Matrix2x2.inverse M) == 0).
  { rewrite Hdi. intro H.
    apply Hdet. 
    assert (E : Matrix2x2.determinant M
                == Matrix2x2.determinant M * Matrix2x2.determinant M
                   * (1 / Matrix2x2.determinant M)) by (field; exact Hdet).
    rewrite E, H. ring. }
  split; [|split; [|split; [exact Hdi|]]].
  - rewrite (Matrix2x2_inverse_nonsingular M Hdet).
    destruct M as [a], v as [x y]. run_matrix_in Hdet.
    unfold CVector2.eq. run_matrix. split; field; exact Hdet.
  - rewrite (Matrix2x2_inverse_nonsingular M Hdet).
    destruct M as [a], v as [x y]. run_matrix_in Hdet.
    unfold CVector2.eq. run_matrix. split; field; exact Hdet.
  - intros i j Hi Hj.
    rewrite (Matrix2x2_inverse_nonsingular _ Hdet').
    set (d' := Matrix2x2.determinant (Matrix2x2.inverse M)) in *.
    rewrite (Matrix2x2_inverse_nonsingular M Hdet).
    set (d := Matrix2x2.determinant M) in *.
    clearbody d' d.
    assert (E : 1 / d' == d) by (rewrite Hdi; field; exact Hdet).
    destruct M as [a].
    index_cases i; index_cases j; run_matrix; rewrite E; field; exact Hdet.
Qed.

Lemma Matrix2x2_inverse_undoes_witness :
  CVector2.eq
    (Matrix2x2.mul_v2 sample_turn2
       (Matrix2x2.mul_v2 (Matrix2x2.inverse sample_turn2) (CVector2.mk 3 4)))
    (CVector2.mk 3 4).
Proof.
  refine (proj1 (Matrix2x2_inverse_undoes sample_turn2 (CVector2.mk 3 4) _)).
  vm_compute. discriminate.
Defined.

(** ** [Matrix3x3::operator==] *)

(** X23: [operator==] of [Matrix3x3] answers [true] exactly when the nine
    entries of the two matrices are pairwise equal. *)
Theorem Matrix3x3_eqb_iff (A B : Matrix3x3.t) :
  Matrix3x3.eqb A B = true <-> Matrix3x3.eq A B.
Proof.
  unfold Matrix3x3.eqb, Matrix3x3.eq.
  cbv [for_lt for_loop trip_count Z.to_nat Z.div Z.div_eucl Z.pos_div_eucl
       Z.sub Z.add Z.opp Z.pos_sub Z.leb Z.ltb Z.compare Z.mul Pos.mul
       Pos.compare Pos.compare_cont Pos.to_nat Pos.iter_op Nat.add
       Z.succ_double Z.pred_double Z.double Pos.pred_double Pos.add Pos.succ
       Z.gtb Z.geb CompOpp].
  split.
  - intros H i j Hi Hj.
    repeat match type of H with
    | context [Qeq_bool ?a ?b] =>
        let E := fresh "E" in
        destruct (Qeq_bool a b) eqn:E; cbn [negb] in H;
        [apply Qeq_bool_iff in E | discriminate H]
    end.
    index_cases i; index_cases j; assumption.
  - intro H.
    repeat match goal with
    | |- context [Qeq_bool (Matrix3x3.m A ?i ?j) (Matrix3x3.m B ?i ?j)] =>
        let E := fresh "E" in
        assert (E : Qeq_bool (Matrix3x3.m A i j) (Matrix3x3.m B i j) = true)
          by (apply Qeq_bool_iff; apply H; lia);
        rewrite E; cbn [negb]
    end.
    reflexivity.
Qed.

(** ** Quaternion algebra *)

(** X24: in exact arithmetic, the Hamilton product is associative, the
    identity quaternion is neutral on both sides, and the squared length
    of a product is the product of the squared lengths. *)
Theorem quaternion_mul_laws (p q r : Quaternion.t) :
  Quaternion.eq (Quaternion.mul (Quaternion.mul p q) r)
                (Quaternion.mul p (Quaternion.mul q r)) /\
  Quaternion.eq (Quaternion.mul q Quaternion.identity) q /\
  Quaternion.eq (Quaternion.mul Quaternion.identity q) q /\
  quat_lengthSquared (Quaternion.mul p q)
    == quat_lengthSquared p * quat_lengthSquared q.
Proof.
  destruct p as [px py pz pw], q as [qx qy qz qw], r as [rx ry rz rw].
  unfold Quaternion.eq, Quaternion.mul, Quaternion.identity, quat_lengthSquared.
  cbn [Quaternion.x Quaternion.y Quaternion.z Quaternion.w].
  repeat split; ring.
Qed.

Lemma Quaternion_inverse_nonzero (q : Quaternion.t) :
  ~ quat_lengthSquared q == 0 ->
  Quaternion.inverse q
  = Quaternion.mk (- Quaternion.x q / quat_lengthSquared q)
                  (- Quaternion.y q / quat_lengthSquared q)
                  (- Quaternion.z q / quat_lengthSquared q)
                  (Quaternion.w q / quat_lengthSquared q).
Proof.
  intro H. unfold Quaternion.inverse. fold (quat_lengthSquared q).
  apply Qeq_bool_false in H. rewrite H. reflexivity.
Qed.

Lemma quat_lengthSquared_mul (p q : Quaternion.t) :
  quat_lengthSquared (Quaternion.mul p q)
  == quat_lengthSquared p * quat_lengthSquared q.
Proof.
  destruct p as [px py pz pw], q as [qx qy qz qw].
  unfold Quaternion.mul, quat_lengthSquared.
  cbn [Quaternion.x Quaternion.y Quaternion.z Quaternion.w]. ring.
Qed.

Lemma quat_lengthSquared_mul_nonzero (p q : Quaternion.t) :
  ~ quat_lengthSquared p == 0 -> ~ quat_lengthSquared q == 0 ->
  ~ quat_lengthSquared (Quaternion.mul p q) == 0.
Proof.
  intros Hp Hq H. rewrite quat_lengthSquared_mul in H.
  apply Qmult_integral in H. destruct H; contradiction.
Qed.

(** X25: in exact arithmetic, for quaternions other than [(0, 0, 0, 0)],
    [inverse()] is an inverse on the left as well, inverting twice restores the quaternion, and the
    inverse of a product is the product of the inverses in the opposite
    order. *)
Theorem quaternion_inverse_laws (p q : Quaternion.t) :
  ~ Quaternion.eq p quat_zero -> ~ Quaternion.eq q quat_zero ->
  Quaternion.eq (Quaternion.mul (Quaternion.inverse q) q) Quaternion.identity /\
  Quaternion.eq (Quaternion.inverse (Quaternion.inverse q)) q /\
  Quaternion.eq (Quaternion.inverse (Quaternion.mul p q))
                (Quaternion.mul (Quaternion.inverse q) (Quaternion.inverse p)).
Proof.
  intros Hp Hq.
  apply quat_lengthSquared_nonzero in Hp, Hq.
  pose proof (quat_lengthSquared_mul_nonzero p q Hp Hq) as Hpq.
  split; [|split].
  - rewrite (Quaternion_inverse_nonzero q Hq).
    destruct q as [x y z w]. unfold quat_lengthSquared in *.
    unfold Quaternion.eq, Quaternion.mul, Quaternion.identity.
    cbn [Quaternion.x Quaternion.y Quaternion.z Quaternion.w] in *.
    repeat split; field; exact Hq.
  - assert (Hi : quat_lengthSquared (Quaternion.inverse q)
                 == 1 / quat_lengthSquared q).
    { rewrite (Quaternion_inverse_nonzero q Hq).
      destruct q as [x y z w]. unfold quat_lengthSquared in *.
      cbn [Quaternion.x Quaternion.y Quaternion.z Quaternion.w] in *.
      field. exact Hq. }
    assert (Hi0 : ~ quat_lengthSquared (Quaternion.inverse q) == 0).
    { rewrite Hi. intro H.
      assert (E : 1 == quat_lengthSquared q * (1 / quat_lengthSquared q))
        by (field; exact Hq).
      rewrite H in E. revert E. rewrite Qmult_0_r. discriminate. }
    rewrite (Quaternion_inverse_nonzero _ Hi0).
    set (l' := quat_lengthSquared (Quaternion.inverse q)) in *.
    rewrite (Quaternion_inverse_nonzero q Hq).
    set (l := quat_lengthSquared q) in *. clearbody l' l.
    unfold Quaternion.eq.
    cbn [Quaternion.x Quaternion.y Quaternion.z Quaternion.w].
    rewrite Hi. repeat split; field; exact Hq.
  - rewrite (Quaternion_inverse_nonzero _ Hpq),
      (Quaternion_inverse_nonzero p Hp), (Quaternion_inverse_nonzero q Hq).
    pose proof (quat_lengthSquared_mul p q) as Hm.
    set (lpq := quat_lengthSquared (Quaternion.mul p q)) in *.
    set (lp := quat_lengthSquared p) in *.
    set (lq := quat_lengthSquared q) in *.
    clearbody lpq lp lq.
    destruct p as [px py pz pw], q as [qx qy qz qw].
    unfold Quaternion.eq, Quaternion.mul.
    cbn [Quaternion.x Quaternion.y Quaternion.z Quaternion.w].
    rewrite Hm. repeat split; field; split; assumption.
Qed.

Lemma quaternion_inverse_laws_witness :
  Quaternion.eq
    (Quaternion.mul (Quaternion.inverse (Quaternion.mk 1 2 3 4))
                    (Quaternion.mk 1 2 3 4))
    Quaternion.identity.
Proof.
  refine (proj1 (quaternion_inverse_laws (Quaternion.mk 1 0 0 0)
                                         (Quaternion.mk 1 2 3 4) _ _)).
  - intros [H _]. discriminate H.
  - intros [H _]. discriminate H.
Defined.

(** ** Rotation by a quaternion *)

#[local] Instance Quaternion_eq_Equivalence : Equivalence Quaternion.eq.
Proof.
  split.
  - intros [x y z w]. unfold Quaternion.eq. repeat split; reflexivity.
  - intros a b [Hx [Hy [Hz Hw]]]. unfold Quaternion.eq.
    repeat split; symmetry; assumption.
  - intros a b c [Hx [Hy [Hz Hw]]] [Hx' [Hy' [Hz' Hw']]]. unfold Quaternion.eq.
    repeat split; etransitivity; eassumption.
Qed.

#[local] Instance Quaternion_mul_Proper :
  Proper (Quaternion.eq ==> Quaternion.eq ==> Quaternion.eq) Quaternion.mul.
Proof.
  intros a a' [Hx [Hy [Hz Hw]]] b b' [Hx' [Hy' [Hz' Hw']]].
  unfold Quaternion.eq, Quaternion.mul.
  cbn [Quaternion.x Quaternion.y Quaternion.z Quaternion.w].
  rewrite Hx, Hy, Hz, Hw, Hx', Hy', Hz', Hw'. repeat split; reflexivity.
Qed.

Lemma Quaternion_mul_assoc (p q r : Quaternion.t) :
  Quaternion.eq (Quaternion.mul (Quaternion.mul p q) r)
                (Quaternion.mul p (Quaternion.mul q r)).
Proof.
  destruct p as [px py pz pw], q as [qx qy qz qw], r as [rx ry rz rw].
  unfold Quaternion.eq, Quaternion.mul.
  cbn [Quaternion.x Quaternion.y Quaternion.z Quaternion.w].
  repeat split; ring.
Qed.

Lemma Quaternion_inverse_mul (p q : Quaternion.t) :
  ~ quat_lengthSquared p == 0 -> ~ quat_lengthSquared q == 0 ->
  Quaternion.eq (Quaternion.inverse (Quaternion.mul p q))
                (Quaternion.mul (Quaternion.inverse q) (Quaternion.inverse p)).
Proof.
  intros Hp Hq.
  pose proof (quat_lengthSquared_mul_nonzero p q Hp Hq) as Hpq.
  rewrite (Quaternion_inverse_nonzero _ Hpq),
    (Quaternion_inverse_nonzero p Hp), (Quaternion_inverse_nonzero q Hq).
  pose proof (quat_lengthSquared_mul p q) as Hm.
  set (lpq := quat_lengthSquared (Quaternion.mul p q)) in *.
  set (lp := quat_lengthSquared p) in *.
  set (lq := quat_lengthSquared q) in *.
  clearbody lpq lp lq.
  destruct p as [px py pz pw], q as [qx qy qz qw].
  unfold Quaternion.eq, Quaternion.mul.
  cbn [Quaternion.x Quaternion.y Quaternion.z Quaternion.w].
  rewrite Hm. repeat split; field; split; assumption.
Qed.

(** The sandwich product that [rotate] computes has real part [0]: the
    vector that [rotate] returns, taken as a quaternion, is the whole
    product. *)
Lemma Quaternion_rotate_sandwich (q : Quaternion.t) (v : CVector3.t) :
  ~ quat_lengthSquared q == 0 ->
  Quaternion.eq (quat_of_vector (Quaternion.rotate q v))
                (Quaternion.mul (Quaternion.mul q (quat_of_vector v))
                                (Quaternion.inverse q)).
Proof.
  intro Hq. unfold Quaternion.rotate, quat_of_vector.
  cbn [CVector3.x CVector3.y CVector3.z].
  set (r := Quaternion.mul _ (Quaternion.inverse q)).
  unfold Quaternion.eq. cbn [Quaternion.x Quaternion.y Quaternion.z Quaternion.w].
  split; [reflexivity|]. split; [reflexivity|]. split; [reflexivity|].
  unfold r. rewrite (Quaternion_inverse_nonzero q Hq).
  destruct q as [x y z w], v as [vx vy vz].
  unfold quat_lengthSquared in *. unfold Quaternion.mul.
  cbn [Quaternion.x Quaternion.y Quaternion.z Quaternion.w
       CVector3.x CVector3.y CVector3.z] in *.
  field. exact Hq.
Qed.

Lemma quat_of_vector_eq (u v : CVector3.t) :
  Quaternion.eq (quat_of_vector u) (quat_of_vector v) -> CVector3.eq u v.
Proof.
  intros [Hx [Hy [Hz _]]]. unfold CVector3.eq. repeat split; assumption.
Qed.

Lemma Quaternion_rotate_mul (p q : Quaternion.t) (v : CVector3.t) :
  ~ quat_lengthSquared p == 0 -> ~ quat_lengthSquared q == 0 ->
  CVector3.eq (Quaternion.rotate (Quaternion.mul p q) v)
              (Quaternion.rotate p (Quaternion.rotate q v)).
Proof.
  intros Hp Hq.
  pose proof (quat_lengthSquared_mul_nonzero p q Hp Hq) as Hpq.
  apply quat_of_vector_eq.
  rewrite (Quaternion_rotate_sandwich (Quaternion.mul p q) v Hpq).
  rewrite (Quaternion_rotate_sandwich p (Quaternion.rotate q v) Hp).
  rewrite (Quaternion_rotate_sandwich q v Hq).
  rewrite (Quaternion_inverse_mul p q Hp Hq).
  rewrite !Quaternion_mul_assoc. reflexivity.
Qed.

Lemma quat_lengthSquared_scale (q : Quaternion.t) (k : Q) :
  quat_lengthSquared (quat_scale q k) == k * k * quat_lengthSquared q.
Proof.
  destruct q as [x y z w]. unfold quat_scale, quat_lengthSquared.
  cbn [Quaternion.x Quaternion.y Quaternion.z Quaternion.w]. ring.
Qed.

Lemma Quaternion_rotate_identity (v : CVector3.t) :
  CVector3.eq (Quaternion.rotate Quaternion.identity v) v.
Proof.
  destruct v as [vx vy vz].
  unfold Quaternion.rotate, Quaternion.inverse, Quaternion.identity.
  cbn [Quaternion.x Quaternion.y Quaternion.z Quaternion.w].
  replace (Qeq_bool (0 * 0 + 0 * 0 + 0 * 0 + 1 * 1) 0) with false
    by reflexivity.
  unfold CVector3.eq, Quaternion.mul.
  cbn [Quaternion.x Quaternion.y Quaternion.z Quaternion.w
       CVector3.x CVector3.y CVector3.z].
  repeat split; field.
Qed.

Lemma Quaternion_rotate_lengthSquared (q : Quaternion.t) (v : CVector3.t) :
  ~ quat_lengthSquared q == 0 ->
  CVector3.lengthSquared (Quaternion.rotate q v) == CVector3.lengthSquared v.
Proof.
  intro Hq. unfold Quaternion.rotate.
  rewrite (Quaternion_inverse_nonzero q Hq).
  destruct q as [x y z w], v as [vx vy vz].
  unfold quat_lengthSquared in *.
  unfold CVector3.lengthSquared, Quaternion.mul.
  cbn [Quaternion.x Quaternion.y Quaternion.z Quaternion.w
       CVector3.x CVector3.y CVector3.z] in *.
  field. exact Hq.
Qed.

Lemma Quaternion_rotate_scale (q : Quaternion.t) (v : CVector3.t) (k : Q) :
  ~ quat_lengthSquared q == 0 -> ~ k == 0 ->
  CVector3.eq (Quaternion.rotate (quat_scale q k) v) (Quaternion.rotate q v).
Proof.
  intros Hq Hk.
  pose proof (quat_lengthSquared_scale q k) as Hs.
  assert (Hsq : ~ quat_lengthSquared (quat_scale q k) == 0).
  { rewrite Hs. intro H.
    apply Qmult_integral in H. destruct H as [H | H]; [|contradiction].
    apply Qmult_integral in H. destruct H; contradiction. }
  unfold Quaternion.rotate.
  rewrite (Quaternion_inverse_nonzero _ Hsq),
    (Quaternion_inverse_nonzero q Hq).
  set (ls := quat_lengthSquared (quat_scale q k)) in *.
  set (lq := quat_lengthSquared q) in *.
  clearbody ls lq.
  destruct q as [x y z w], v as [vx vy vz].
  unfold CVector3.eq, Quaternion.mul, quat_scale.
  cbn [Quaternion.x Quaternion.y Quaternion.z Quaternion.w
       CVector3.x CVector3.y CVector3.z].
  rewrite Hs. repeat split; field; split; assumption.
Qed.

(** X26: in exact arithmetic, [rotate] by the identity quaternion leaves
    every vector as it is.  For quaternions other than [(0, 0, 0, 0)],
    unit or not: [rotate] keeps
    the squared length of the vector, rotating by a product is rotating by
    the right factor and then by the left one, and a quaternion scaled by
    a nonzero factor rotates as the quaternion itself. *)
Theorem quaternion_rotate_laws (p q : Quaternion.t) (v : CVector3.t) (k : Q) :
  CVector3.eq (Quaternion.rotate Quaternion.identity v) v /\
  (~ Quaternion.eq q quat_zero ->
   CVector3.lengthSquared (Quaternion.rotate q v) == CVector3.lengthSquared v) /\
  (~ Quaternion.eq p quat_zero -> ~ Quaternion.eq q quat_zero ->
   CVector3.eq (Quaternion.rotate (Quaternion.mul p q) v)
               (Quaternion.rotate p (Quaternion.rotate q v))) /\
  (~ Quaternion.eq q quat_zero -> ~ k == 0 ->
   CVector3.eq (Quaternion.rotate (quat_scale q k) v) (Quaternion.rotate q v)).
Proof.
  split; [apply Quaternion_rotate_identity|].
  split; [intro Hq; apply Quaternion_rotate_lengthSquared;
          apply quat_lengthSquared_nonzero; exact Hq|].
  split.
  - intros Hp Hq. apply Quaternion_rotate_mul;
      apply quat_lengthSquared_nonzero; assumption.
  - intros Hq Hk. apply Quaternion_rotate_scale;
      [apply quat_lengthSquared_nonzero|]; assumption.
Qed.

Lemma quaternion_rotate_laws_witness :
  CVector3.lengthSquared
    (Quaternion.rotate (Quaternion.mk 1 2 3 4) (CVector3.mk 1 0 0))
  == CVector3.lengthSquared (CVector3.mk 1 0 0) /\
  CVector3.eq
    (Quaternion.rotate (Quaternion.mul (Quaternion.mk 0 1 0 1) (Quaternion.mk 1 2 3 4))
                       (CVector3.mk 1 0 0))
    (Quaternion.rotate (Quaternion.mk 0 1 0 1)
       (Quaternion.rotate (Quaternion.mk 1 2 3 4) (CVector3.mk 1 0 0))).
Proof.
  assert (H1 : ~ Quaternion.eq (Quaternion.mk 1 2 3 4) quat_zero)
    by (intros [H _]; discriminate H).
  assert (H2 : ~ Quaternion.eq (Quaternion.mk 0 1 0 1) quat_zero)
    by (intros [_ [H _]]; discriminate H).
  split.
  - exact (proj1 (proj2 (quaternion_rotate_laws
                           Quaternion.identity (Quaternion.mk 1 2 3 4)
                           (CVector3.mk 1 0 0) 1)) H1).
  - exact (proj1 (proj2 (proj2 (quaternion_rotate_laws
                                  (Quaternion.mk 0 1 0 1) (Quaternion.mk 1 2 3 4)
                                  (CVector3.mk 1 0 0) 1))) H2 H1).
Defined.

(** ** Normalizing quaternions *)

Lemma Quaternion_length_spec (q : Quaternion.t) :
  0 <= Quaternion.length q /\
  (Quaternion.length q == 0 <-> Quaternion.eq q quat_zero).
Proof.
  destruct q as [x y z w].
  unfold Quaternion.length, Quaternion.eq, quat_zero.
  cbn [Quaternion.x Quaternion.y Quaternion.z Quaternion.w].
  assert (Hs : 0 <= x * x + y * y + z * z + w * w) by nra.
  split.
  - apply Qle_lteq in Hs. destruct Hs as [Hs | Hs].
    + apply Qlt_le_weak. apply sqrt_positive. exact Hs.
    + rewrite sqrt_nonpositive by lra. lra.
  - rewrite sqrt_zero_iff. split.
    + intro H. apply sum_of_squares_zero. lra.
    + intros [Hx [Hy [Hz Hw]]]. rewrite Hx, Hy, Hz, Hw. lra.
Qed.

(** X27: in exact arithmetic, the two normalizations of a quaternion fall
    back differently at length [0]: [normalized()] returns the identity quaternion, while the
    in-place [normalize()] leaves the quaternion as it is.  For every
    other quaternion they agree, the length is positive, and the
    normalized quaternion times the length restores the quaternion. *)
Theorem quaternion_normalize_fallbacks (q : Quaternion.t) :
  (Quaternion.eq q quat_zero ->
   Quaternion.normalized q = Quaternion.identity /\
   Quaternion.normalize q = q) /\
  (~ Quaternion.eq q quat_zero ->
   Quaternion.normalize q = Quaternion.normalized q /\
   0 < Quaternion.length q /\
   Quaternion.eq (quat_scale (Quaternion.normalized q) (Quaternion.length q)) q).
Proof.
  destruct (Quaternion_length_spec q) as [Hpos Hz].
  unfold Quaternion.normalized, Quaternion.normalize.
  split; intro Hq.
  - apply Hz in Hq. apply Qeq_bool_iff in Hq. rewrite Hq.
    split; reflexivity.
  - assert (Hl : ~ Quaternion.length q == 0) by (intro H; apply Hq, Hz, H).
    pose proof Hl as Hb. apply Qeq_bool_false in Hb. rewrite Hb.
    split; [reflexivity|]. split; [lra|].
    unfold Quaternion.eq, quat_scale.
    cbn [Quaternion.x Quaternion.y Quaternion.z Quaternion.w].
    repeat split; field; exact Hl.
Qed.

Lemma quaternion_normalize_fallbacks_witness :
  Quaternion.normalized quat_zero = Quaternion.identity /\
  Quaternion.normalize quat_zero = quat_zero /\
  Quaternion.normalize (Quaternion.mk 0 3 0 4)
    = Quaternion.normalized (Quaternion.mk 0 3 0 4).
Proof.
  assert (H0 : Quaternion.eq quat_zero quat_zero)
    by (unfold Quaternion.eq; repeat split; reflexivity).
  assert (H1 : ~ Quaternion.eq (Quaternion.mk 0 3 0 4) quat_zero)
    by (intros [_ [H _]]; discriminate H).
  split; [|split].
  - exact (proj1 (proj1 (quaternion_normalize_fallbacks quat_zero) H0)).
  - exact (proj2 (proj1 (quaternion_normalize_fallbacks quat_zero) H0)).
  - exact (proj1 (proj2 (quaternion_normalize_fallbacks
                           (Quaternion.mk 0 3 0 4)) H1)).
Defined.

Lemma Quaternion_normalized_respects (a b : Quaternion.t) :
  Quaternion.eq a b ->
  Quaternion.eq (Quaternion.normalized a) (Quaternion.normalized b).
Proof.
  intros [Hx [Hy [Hz Hw]]].
  assert (Hl : Quaternion.length a == Quaternion.length b).
  { unfold Quaternion.length. apply sqrt_respects_Qeq.
    rewrite Hx, Hy, Hz, Hw. reflexivity. }
  unfold Quaternion.normalized.
  destruct (Qeq_bool (Quaternion.length b) 0) eqn:Eb.
  - assert (Ea : Qeq_bool (Quaternion.length a) 0 = true).
    { apply Qeq_bool_iff. apply Qeq_bool_iff in Eb. rewrite Hl. exact Eb. }
    rewrite Ea. reflexivity.
  - assert (Ea : Qeq_bool (Quaternion.length a) 0 = false).
    { apply Qeq_bool_false. apply Qeq_bool_false in Eb. rewrite Hl. exact Eb. }
    rewrite Ea. unfold Quaternion.eq.
    cbn [Quaternion.x Quaternion.y Quaternion.z Quaternion.w].
    rewrite Hx, Hy, Hz, Hw, Hl. repeat split; reflexivity.
Qed.

(** X28: in exact arithmetic, [Quaternion::lerp(a, b, t)] returns the
    normalized [a] for every [t <= 0] and the normalized [b] for every
    [t >= 1]. *)
Theorem quaternion_lerp_endpoints (a b : Quaternion.t) (t : Q) :
  (t <= 0 ->
   Quaternion.eq (Quaternion.lerp a b t) (Quaternion.normalized a)) /\
  (1 <= t ->
   Quaternion.eq (Quaternion.lerp a b t) (Quaternion.normalized b)).
Proof.
  destruct (Quaternion_lerp_clamps a b t) as [t' [Ht' E]].
  rewrite E. split; intro Ht; apply Quaternion_normalized_respects;
    unfold Quaternion.eq;
    cbn [Quaternion.x Quaternion.y Quaternion.z Quaternion.w];
    rewrite Ht'.
  - rewrite (clamp01_low t Ht). repeat split; ring.
  - rewrite (clamp01_high t Ht). repeat split; ring.
Qed.

Lemma quaternion_lerp_endpoints_witness :
  Quaternion.eq
    (Quaternion.lerp (Quaternion.mk 0 3 0 4) Quaternion.identity (-2))
    (Quaternion.normalized (Quaternion.mk 0 3 0 4)).
Proof.
  assert (Ht : -2 <= 0) by discriminate.
  exact (proj1 (quaternion_lerp_endpoints
                  (Quaternion.mk 0 3 0 4) Quaternion.identity (-2)) Ht).
Defined.

(** ** Symmetry of the cosine *)

Lemma cos_series_mirror (r r' : Q) :
  r' == - r -> EngineMath.cos_series r' == EngineMath.cos_series r.
Proof.
  intro H. rewrite !cos_series_is_taylor.
  cbv -[Qplus Qmult Qminus Qdiv Qopp Qinv Qeq].
  rewrite H. field.
Qed.

(** Two multiples of [6.28318530] that lead from one number into the same
    half-open interval of that length are the same multiple. *)
Lemma cos_turns_unique (y : Q) (n n' : nat) :
  - EngineMath.cos_PI <= y + inject_Z (Z.of_nat n) * EngineMath.cos_TWO_PI
    < EngineMath.cos_PI ->
  - EngineMath.cos_PI <= y + inject_Z (Z.of_nat n') * EngineMath.cos_TWO_PI
    < EngineMath.cos_PI ->
  n = n'.
Proof.
  unfold EngineMath.cos_PI, EngineMath.cos_TWO_PI. intros [H1 H2] [H3 H4].
  assert (Ha : inject_Z (Z.of_nat n) < inject_Z (Z.of_nat n') + 1) by lra.
  assert (Hb : inject_Z (Z.of_nat n') < inject_Z (Z.of_nat n) + 1) by lra.
  change 1 with (inject_Z 1) in Ha, Hb.
  rewrite <- inject_Z_plus in Ha, Hb.
  rewrite <- Zlt_Qlt in Ha, Hb. lia.
Qed.

Lemma cos_at_opposite_angles (angle angle' : Q) :
  angle' == - angle -> EngineMath.cos angle' == EngineMath.cos angle.
Proof.
  intro Hopp.
  unfold EngineMath.cos. apply cos_series_mirror.
  destruct (cos_reduce_down_spec angle) as [n1 [E1 [L1 C1]]].
  destruct (cos_reduce_up_spec (EngineMath.cos_reduce_down angle))
    as [n2 [E2 [L2 C2]]].
  destruct (cos_reduce_down_spec angle') as [m1 [F1 [K1 D1]]].
  destruct (cos_reduce_up_spec (EngineMath.cos_reduce_down angle'))
    as [m2 [F2 [K2 D2]]].
  set (a1 := EngineMath.cos_reduce_down angle) in *.
  set (a2 := EngineMath.cos_reduce_up a1) in *.
  set (b1 := EngineMath.cos_reduce_down angle') in *.
  set (b2 := EngineMath.cos_reduce_up b1) in *.
  clearbody a1 a2 b1 b2.
  destruct C1 as [[Ha [Hn1 Ea1]] | [Ha [Hn1 Ha1]]].
  - (* angle <= pi: the first loop leaves the angle *)
    subst a1 n1.
    destruct C2 as [[Hb [Hn2 Ea2]] | [Hb [Hn2 Ha2]]].
    + (* -pi <= angle <= pi: no loop runs on either side *)
      subst a2 n2.
      destruct D1 as [[Hc [Hm1 Eb1]] | [Hc _]]; [|lra].
      subst b1 m1.
      destruct D2 as [[Hd [Hm2 Eb2]] | [Hd _]]; [|lra].
      subst b2. exact Hopp.
    + (* angle < -pi: n2 turns are added, and m1 subtracted from -angle *)
      destruct D1 as [[Hc _] | [Hc [Hm1 Hb1]]]; [lra|].
      destruct D2 as [[Hd [Hm2 Eb2]] | [Hd _]]; [|lra].
      subst b2 m2.
      assert (En : m1 = n2).
      { apply (cos_turns_unique angle); split; lra. }
      subst m1. lra.
  - (* pi < angle: n1 turns are subtracted, and m2 added to -angle *)
    destruct C2 as [[Hb [Hn2 Ea2]] | [Hb _]]; [|lra].
    subst a2 n2.
    destruct D1 as [[Hc [Hm1 Eb1]] | [Hc _]]; [|lra].
    subst b1 m1.
    destruct D2 as [[Hd _] | [Hd [Hm2 Hb2]]]; [lra|].
    assert (En : m2 = n1).
    { apply (cos_turns_unique angle'); split; lra. }
    subst m2. lra.
Qed.

(** X29: [cos] is an even function: the range reduction of [-angle] ends at the
    opposite of the reduced [angle], and the series has even powers
    only. *)
Theorem cos_is_even (angle : Q) :
  EngineMath.cos (- angle) == EngineMath.cos angle.
Proof.
  apply cos_at_opposite_angles. reflexivity.
Qed.

(** ** Quaternions from an axis and an angle *)

(** X30: in exact arithmetic, the opposite angle gives the conjugate
    quaternion: with every bound on the rounds of [sin],
    [Quaternion::fromAxisAngle] returns for both angles or for neither,
    and the vector parts it returns are opposite while [w] is the same.
    For an angle of magnitude up to [128] it returns. *)
Theorem fromAxisAngle_opposite_angle (axis : CVector3.t) (angle : Q) :
  (forall fuel : nat,
      match Quaternion.fromAxisAngle fuel axis angle,
            Quaternion.fromAxisAngle fuel axis (- angle) with
      | Some q, Some q' => Quaternion.eq q' (quat_conjugate q)
      | None, None => True
      | _, _ => False
      end) /\
  (Qabs angle <= 128 ->
   exists (k : nat) (q q' : Quaternion.t),
     (Z.of_nat k <= 28687)%Z /\
     Quaternion.eq q' (quat_conjugate q) /\
     forall fuel : nat, (k <= fuel)%nat ->
       Quaternion.fromAxisAngle fuel axis angle = Some q /\
       Quaternion.fromAxisAngle fuel axis (- angle) = Some q').
Proof.
  assert (Hh : - angle * (1 # 2) == - (angle * (1 # 2))) by ring.
  pose proof (cos_at_opposite_angles _ _ Hh) as Hc.
  split.
  - intro fuel. unfold Quaternion.fromAxisAngle.
    pose proof (sin_mirror_all_fuel _ _ fuel Hh) as Hs.
    destruct (EngineMath.sin fuel (angle * (1 # 2))) as [s|],
             (EngineMath.sin fuel (- angle * (1 # 2))) as [s'|];
      try exact Hs.
    unfold Quaternion.eq, quat_conjugate.
    cbn [Quaternion.x Quaternion.y Quaternion.z Quaternion.w].
    rewrite Hs. split; [ring|]. split; [ring|]. split; [ring | exact Hc].
  - intro Ha.
    assert (Hr : Qabs (angle * (1 # 2)) <= 64).
    { apply Qabs_Qle_condition in Ha. apply Qabs_Qle_condition. split; lra. }
    destruct (sin_at_opposite_angles _ _ Hh Hr) as [k [s [s' [Hk [Hs Hrun]]]]].
    exists k.
    exists (Quaternion.mk (CVector3.x axis * s) (CVector3.y axis * s)
                          (CVector3.z axis * s)
                          (EngineMath.cos (angle * (1 # 2)))).
    exists (Quaternion.mk (CVector3.x axis * s') (CVector3.y axis * s')
                          (CVector3.z axis * s')
                          (EngineMath.cos (- angle * (1 # 2)))).
    split; [exact Hk|]. split.
    + unfold Quaternion.eq, quat_conjugate.
      cbn [Quaternion.x Quaternion.y Quaternion.z Quaternion.w].
      rewrite Hs. split; [ring|]. split; [ring|]. split; [ring | exact Hc].
    + intros fuel Hfuel. destruct (Hrun fuel Hfuel) as [E1 E2].
      unfold Quaternion.fromAxisAngle. rewrite E1, E2. split; reflexivity.
Qed.

Lemma fromAxisAngle_opposite_angle_witness :
  exists (k : nat) (q q' : Quaternion.t),
    (Z.of_nat k <= 28687)%Z /\
    Quaternion.eq q' (quat_conjugate q) /\
    forall fuel : nat, (k <= fuel)%nat ->
      Quaternion.fromAxisAngle fuel (CVector3.mk 0 1 0) 1 = Some q /\
      Quaternion.fromAxisAngle fuel (CVector3.mk 0 1 0) (- 1) = Some q'.
Proof.
  apply (proj2 (fromAxisAngle_opposite_angle (CVector3.mk 0 1 0) 1)).
  discriminate.
Defined.
